(** * Tektite: graph construction, identity merge and semantic similarity

    A shallow embedding of the graph core of the Tektite webview:

    - [generateGraphFromFiles]  (constants.ts)   the structural parser and
      graph builder;
    - the merge effect of [App]  (App.tsx)        the identity merge;
    - [cosineSimilarity], [cleanCodeForEmbedding] and
      [handleRecalculateSemanticGraph]  (App.tsx) the semantic pass;
    - [replaceFunctionInCode], [handleCodeChange], [pendingUpdates] and
      the writers of the file map  (App.tsx)      the editing path;
    - [enrichTree], [handleFileSelect] and the tree items of
      [handleFilesUploaded]  (App.tsx)            the file tree.

    JavaScript numbers are IEEE 754 binary64 values and are modelled by the
    primitive floats of Rocq, which are the same values with the same
    arithmetic.  JavaScript strings are modelled by [string]; a character
    stands for one code unit below 256, which covers ASCII sources.
    Optional properties ([embedding?], [isStale?], ...) are [option]s, with
    [None] for [undefined]. *)

From Stdlib Require Import List String Ascii Bool Arith NArith Lia Floats Permutation.
Import ListNotations.

(* ================================================================== *)
(** ** Strings as the JavaScript runtime sees them                     *)
(* ================================================================== *)

Module JS.

Local Open Scope string_scope.

Definition codeUnit (c : ascii) : nat := nat_of_ascii c.

Definition LF : ascii := "010"%char.
Definition CR : ascii := "013"%char.
Definition TAB : ascii := "009"%char.
Definition DQUOTE : ascii := "034"%char.
Definition SQUOTE : ascii := "039"%char.

(** The separator ["\n"]. *)
Definition nl : string := String LF EmptyString.

(** LineTerminator of ECMAScript, restricted to code units below 256. *)
Definition isLineTerminator (c : ascii) : bool :=
  Nat.eqb (codeUnit c) 10 || Nat.eqb (codeUnit c) 13.

(** The class [\s] (WhiteSpace and LineTerminator), which is also what
    [String.prototype.trim] strips. *)
Definition isSpace (c : ascii) : bool :=
  existsb (Nat.eqb (codeUnit c)) [9; 10; 11; 12; 13; 32; 160].

Definition isDigit (c : ascii) : bool := Nat.leb 48 (codeUnit c) && Nat.leb (codeUnit c) 57.
Definition isUpper (c : ascii) : bool := Nat.leb 65 (codeUnit c) && Nat.leb (codeUnit c) 90.
Definition isLower (c : ascii) : bool := Nat.leb 97 (codeUnit c) && Nat.leb (codeUnit c) 122.

(** [[a-zA-Z_]] and [[a-zA-Z0-9_]]; the latter is also the class [\w]. *)
Definition isIdentStart (c : ascii) : bool :=
  isLower c || isUpper c || Nat.eqb (codeUnit c) 95.
Definition isWord (c : ascii) : bool := isIdentStart c || isDigit c.

(** [s.startsWith(p)] *)
Fixpoint startsWith (p s : string) : bool :=
  match p, s with
  | EmptyString, _ => true
  | String a p', String b s' => Ascii.eqb a b && startsWith p' s'
  | String _ _, EmptyString => false
  end.

(** [s.includes(p)] *)
Fixpoint includes (p s : string) : bool :=
  startsWith p s ||
  match s with
  | EmptyString => false
  | String _ s' => includes p s'
  end.

(** [s.endsWith(p)] *)
Definition endsWith (p s : string) : bool :=
  Nat.leb (String.length p) (String.length s) &&
  String.eqb (substring (String.length s - String.length p) (String.length p) s) p.

Fixpoint trimStart (s : string) : string :=
  match s with
  | String c s' => if isSpace c then trimStart s' else s
  | EmptyString => EmptyString
  end.

Fixpoint rev_string (acc s : string) : string :=
  match s with
  | EmptyString => acc
  | String c s' => rev_string (String c acc) s'
  end.

(** [s.trim()] *)
Definition trim (s : string) : string :=
  rev_string EmptyString (trimStart (rev_string EmptyString (trimStart s))).

(** [s.split('\n')]: the pieces between line feeds; never empty. *)
Fixpoint split_nl (s : string) : list string :=
  match s with
  | EmptyString => [EmptyString]
  | String c s' =>
      if Ascii.eqb c LF then EmptyString :: split_nl s'
      else match split_nl s' with
           | l :: ls => String c l :: ls
           | [] => [String c EmptyString]
           end
  end.

(** [a.join('\n')] *)
Fixpoint join_nl (ls : list string) : string :=
  match ls with
  | [] => EmptyString
  | [l] => l
  | l :: ls' => l ++ nl ++ join_nl ls'
  end.

(** Truthiness of a string: the empty string is falsy. *)
Definition truthy (s : string) : bool := negb (String.eqb s EmptyString).

End JS.

(* ================================================================== *)
(** ** Regular expressions: the backtracking matcher of ECMAScript      *)
(* ================================================================== *)

(** The source relies on [RegExp] for recognising function headers and
    calls and for cleaning code.  The fragment it uses is embedded here
    with the priorities of the ECMAScript matcher: alternatives are tried
    left to right, a greedy star tries one more iteration before it tries
    to stop, a lazy star the other way round. *)
Module RegExp.

Inductive regex : Type :=
| Eps
| Cls (p : ascii -> bool)        (* one character of a class *)
| Seq (r1 r2 : regex)
| Alt (r1 r2 : regex)            (* r1|r2 *)
| Star (r : regex)               (* r*   *)
| LazyStar (r : regex)           (* r*?  *)
| Bol (multiline : bool)         (* ^    *)
| Eol (multiline : bool)         (* $    *)
| WordBoundary                   (* \b   *)
| Group (r : regex).             (* (r), captured *)

Definition Plus (r : regex) : regex := Seq r (Star r).     (* r+ *)
Definition Chr (c : ascii) : regex := Cls (Ascii.eqb c).

(** The characters of [s], one after the other. *)
Fixpoint Lit (s : string) : regex :=
  match s with
  | EmptyString => Eps
  | String c s' => Seq (Chr c) (Lit s')
  end.

(** [\s], [.] and [[\s\S]]. *)
Definition Space : regex := Cls JS.isSpace.
Definition Dot : regex := Cls (fun c => negb (JS.isLineTerminator c)).
Definition AnyChar : regex := Cls (fun _ => true).

(** A successful match: the character before the end position, the text
    that follows it, and the captures in the order the groups closed. *)
Definition result : Type := (option ascii * string * list string)%type.

Definition isWordOpt (c : option ascii) : bool :=
  match c with Some a => JS.isWord a | None => false end.

Definition next (s : string) : option ascii :=
  match s with String c _ => Some c | EmptyString => None end.

Definition atBol (multiline : bool) (prev : option ascii) : bool :=
  match prev with
  | None => true
  | Some c => multiline && JS.isLineTerminator c
  end.

Definition atEol (multiline : bool) (s : string) : bool :=
  match s with
  | EmptyString => true
  | String c _ => multiline && JS.isLineTerminator c
  end.

Definition consumed (s s' : string) : string :=
  substring 0 (String.length s - String.length s') s.

Definition orElse (a b : option result) : option result :=
  match a with Some _ => a | None => b end.

(** [rmatch r prev s caps k]: match [r] at the position whose previous
    character is [prev] and whose remaining text is [s], then continue with
    [k]; [None] makes the matcher backtrack.  An iteration of a star that
    consumes nothing is refused, as in ECMAScript, so the iteration count
    is bounded by the length of the remaining text. *)
Fixpoint rmatch (r : regex) (prev : option ascii) (s : string)
    (caps : list string)
    (k : option ascii -> string -> list string -> option result)
    {struct r} : option result :=
  match r with
  | Eps => k prev s caps
  | Cls p =>
      match s with
      | String c s' => if p c then k (Some c) s' caps else None
      | EmptyString => None
      end
  | Seq r1 r2 =>
      rmatch r1 prev s caps (fun prev' s' caps' => rmatch r2 prev' s' caps' k)
  | Alt r1 r2 => orElse (rmatch r1 prev s caps k) (rmatch r2 prev s caps k)
  | Star r1 =>
      (fix loop (n : nat) (prev : option ascii) (s : string)
           (caps : list string) {struct n} : option result :=
         match n with
         | 0 => k prev s caps
         | S n' =>
             orElse
               (rmatch r1 prev s caps (fun prev' s' caps' =>
                  if Nat.ltb (String.length s') (String.length s)
                  then loop n' prev' s' caps' else None))
               (k prev s caps)
         end) (String.length s) prev s caps
  | LazyStar r1 =>
      (fix loop (n : nat) (prev : option ascii) (s : string)
           (caps : list string) {struct n} : option result :=
         match n with
         | 0 => k prev s caps
         | S n' =>
             orElse
               (k prev s caps)
               (rmatch r1 prev s caps (fun prev' s' caps' =>
                  if Nat.ltb (String.length s') (String.length s)
                  then loop n' prev' s' caps' else None))
         end) (String.length s) prev s caps
  | Bol m => if atBol m prev then k prev s caps else None
  | Eol m => if atEol m s then k prev s caps else None
  | WordBoundary =>
      if xorb (isWordOpt prev) (isWordOpt (next s)) then k prev s caps else None
  | Group r1 =>
      rmatch r1 prev s caps
        (fun prev' s' caps' => k prev' s' (caps' ++ [consumed s s']))
  end.

(** Match at one position. *)
Definition matchAt (r : regex) (prev : option ascii) (s : string) : option result :=
  rmatch r prev s [] (fun prev' s' caps' => Some (prev', s', caps')).

(** The first match at or after a position ([RegExp.prototype.exec] with
    [lastIndex] at that position). *)
Fixpoint exec (r : regex) (prev : option ascii) (s : string) : option result :=
  match matchAt r prev s with
  | Some m => Some m
  | None =>
      match s with
      | EmptyString => None
      | String c s' => exec r (Some c) s'
      end
  end.

(** [r.test(s)] for a regex whose [lastIndex] is 0. *)
Definition test (r : regex) (s : string) : bool :=
  match exec r None s with Some _ => true | None => false end.

(** [s.match(r)] for a regex without the [g] flag: the captures. *)
Definition captures (r : regex) (s : string) : option (list string) :=
  match exec r None s with Some (_, _, caps) => Some caps | None => None end.

(** [s.replace(r, '')] for a regex with the [g] flag: every match, found
    from left to right, is deleted; after an empty match the search moves
    one character on. *)
Fixpoint removeAllFrom (fuel : nat) (r : regex) (prev : option ascii)
    (s : string) : string :=
  match fuel with
  | 0 => s
  | S fuel' =>
      let keepOne :=
        match s with
        | EmptyString => EmptyString
        | String c s' => String c (removeAllFrom fuel' r (Some c) s')
        end in
      match matchAt r prev s with
      | Some (prev', s', _) =>
          if Nat.ltb (String.length s') (String.length s)
          then removeAllFrom fuel' r prev' s'
          else keepOne
      | None => keepOne
      end
  end.

Definition removeAll (r : regex) (s : string) : string :=
  removeAllFrom (S (String.length s)) r None s.

End RegExp.

(* ================================================================== *)
(** ** The data model (types.ts)                                       *)
(* ================================================================== *)

Inductive NodeType : Type := MODULE | FILE | FUNCTION | NOTE.

Inductive EdgeType : Type := CALLS | IMPORTS | READS_WRITES | TESTED_BY | SEMANTIC.

Inductive Language : Type := typescript | python | markdown | text | json.

Inductive Status : Type := stable | experimental | deprecated.

Record Metadata : Type := mkMetadata {
  why : option string;
  tradeOff : option string;
  status : option Status
}.

Record NodeData : Type := mkNode {
  id : string;
  type : NodeType;
  label : string;
  language : option Language;
  code : option string;
  metadata : option Metadata;
  complexity : option float;
  x : option float;
  y : option float;
  embedding : option (list float);
  isStale : option bool
}.

(** [etype] is the property [type] of a link; NodeData has taken the name. *)
Record LinkData : Type := mkLink {
  source : string;
  target : string;
  etype : EdgeType;
  weight : option float
}.

Record GraphData : Type := mkGraph {
  nodes : list NodeData;
  links : list LinkData
}.

(** [FileMap = Record<string, string>], given by [Object.entries]: the
    entries in the order in which the runtime enumerates them. *)
Definition FileMap : Type := list (string * string).

Definition NodeType_eqb (a b : NodeType) : bool :=
  match a, b with
  | MODULE, MODULE | FILE, FILE | FUNCTION, FUNCTION | NOTE, NOTE => true
  | _, _ => false
  end.

Definition EdgeType_eqb (a b : EdgeType) : bool :=
  match a, b with
  | CALLS, CALLS | IMPORTS, IMPORTS | READS_WRITES, READS_WRITES
  | TESTED_BY, TESTED_BY | SEMANTIC, SEMANTIC => true
  | _, _ => false
  end.

Definition Language_eqb (a b : Language) : bool :=
  match a, b with
  | typescript, typescript | python, python | markdown, markdown
  | text, text | json, json => true
  | _, _ => false
  end.

(** [a === b] on two optional strings ([undefined === undefined] holds). *)
Definition code_eqb (a b : option string) : bool :=
  match a, b with
  | Some s, Some t => String.eqb s t
  | None, None => true
  | _, _ => false
  end.

(** The ids of a node list, in order. *)
Definition ids (ns : list NodeData) : list string := map id ns.

(* ================================================================== *)
(** ** generateGraphFromFiles (constants.ts)                           *)
(* ================================================================== *)

Module Builder.

Import RegExp.
Local Open Scope float_scope.

(** [Map<string, string>]: keys in insertion order; [set] on a key that is
    present replaces the value and keeps the key's place. *)
Definition StringMap : Type := list (string * string).

Fixpoint Map_set (k v : string) (m : StringMap) : StringMap :=
  match m with
  | [] => [(k, v)]
  | (k', v') :: m' =>
      if String.eqb k' k then (k', v) :: m' else (k', v') :: Map_set k v m'
  end.

(** The Number of an array index (exact below 2^53). *)
Fixpoint ofIndex (n : nat) : float :=
  match n with
  | 0%nat => 0
  | S n' => ofIndex n' + 1
  end.

Definition Math_PI : float := 0x1.921fb54442d18p+1.

Definition ORBIT_RADIUS : float := 350.
Definition jitter : float := 80.

(** [/^def\s+(NAME)\s*\((PARAMS)\):/], where NAME is [[a-zA-Z_][a-zA-Z0-9_]*]
    and PARAMS is any run of characters other than the closing parenthesis. *)
Definition functionRegex : regex :=
  Seq (Bol false)
  (Seq (Lit "def")
  (Seq (Plus Space)
  (Seq (Group (Seq (Cls JS.isIdentStart) (Star (Cls JS.isWord))))
  (Seq (Star Space)
  (Seq (Chr "(")
  (Seq (Group (Star (Cls (fun c => negb (Ascii.eqb c ")")))))
       (Lit "):"))))))).

(** [new RegExp(`\\b${targetName}\\(`, 'g')]; the names put into it are
    captures of [functionRegex], which hold no character that is special
    in a pattern. *)
Definition callRegex (targetName : string) : regex :=
  Seq WordBoundary (Seq (Lit targetName) (Chr "(")).

(** [lines[i].match(functionRegex)], reduced to [match[1]]. *)
Definition matchHeader (line : string) : option string :=
  match captures functionRegex line with
  | Some caps => Some (nth 0 caps EmptyString)
  | None => None
  end.

(** The [while (j < lines.length)] loop that extracts a body: blank lines
    and lines that start with a space, a tab, [#] or [@] are taken; the
    first other line stops the loop. *)
Fixpoint takeBody (lines : list string) : list string :=
  match lines with
  | [] => []
  | line :: rest =>
      if String.eqb (JS.trim line) EmptyString then line :: takeBody rest
      else if negb (JS.startsWith " " line)
              && negb (JS.startsWith (String JS.TAB EmptyString) line)
              && negb (JS.startsWith "#" line)
              && negb (JS.startsWith "@" line)
      then []
      else line :: takeBody rest
  end.

(** What the first pass has built so far: [nodes], [links],
    [definedFunctions], and how many values [Math.random] has handed out. *)
Record State : Type := mkState {
  st_nodes : list NodeData;
  st_links : list LinkData;
  definedFunctions : StringMap;
  draws : nat
}.

Section WithRuntime.

(** [Math.cos], [Math.sin] and [Math.floor] of the host, and the values
    that the successive calls of [Math.random()] return during one
    invocation. *)
Variables Math_cos Math_sin Math_floor : float -> float.
Variable Math_random : nat -> float.

(** The object pushed for a function whose header is [line]; the three
    calls of [Math.random] happen in the order of the properties. *)
Definition functionNode (funcName fullCode : string) (initialX initialY : float)
    (d : nat) : NodeData :=
  {| id := "fn-" ++ funcName;
     type := FUNCTION;
     label := funcName;
     language := Some python;
     code := Some fullCode;
     complexity := Some (Math_floor (Math_random d * 20) + 1);
     metadata := Some {| status := Some stable;
                         why := Some (if JS.includes "recursive" funcName
                                      then "Recursive Implementation"
                                      else "Logic Block")%string;
                         tradeOff := None |};
     x := Some (initialX + (Math_random (d + 1) * jitter - jitter / 2));
     y := Some (initialY + (Math_random (d + 2) * jitter - jitter / 2));
     embedding := None;
     isStale := None |}.

(** [for (let i = 0; i < lines.length; i++)] over the lines from [i] on. *)
Fixpoint scanLines (fileId : string) (initialX initialY : float)
    (lines : list string) (st : State) : State :=
  match lines with
  | [] => st
  | line :: rest =>
      match matchHeader line with
      | Some funcName =>
          let funcId := ("fn-" ++ funcName)%string in
          let fullCode := JS.join_nl (line :: takeBody rest) in
          scanLines fileId initialX initialY rest
            {| st_nodes := st_nodes st ++
                 [functionNode funcName fullCode initialX initialY (draws st)];
               st_links := st_links st ++
                 [{| source := funcId; target := fileId;
                     etype := IMPORTS; weight := None |}];
               definedFunctions := Map_set funcName funcId (definedFunctions st);
               draws := draws st + 3 |}
      | None => scanLines fileId initialX initialY rest st
      end
  end.

Definition isEntryPoint (filename : string) : bool :=
  JS.includes "main" filename || JS.includes "index" filename.

Definition initialX (filename : string) (fileIndex totalFiles : nat) : float :=
  if isEntryPoint filename then 0
  else Math_cos (ofIndex fileIndex / ofIndex totalFiles * 2 * Math_PI) * ORBIT_RADIUS.

Definition initialY (filename : string) (fileIndex totalFiles : nat) : float :=
  if isEntryPoint filename then 0
  else Math_sin (ofIndex fileIndex / ofIndex totalFiles * 2 * Math_PI) * ORBIT_RADIUS.

Definition languageOf (filename : string) : Language :=
  if JS.endsWith ".py" filename then python
  else if JS.endsWith ".md" filename then markdown
  else if JS.endsWith ".json" filename then json
  else text.

Definition fileNode (filename code : string) (fileIndex totalFiles : nat) : NodeData :=
  let isPython := JS.endsWith ".py" filename in
  {| id := "file-" ++ filename;
     type := if isPython then MODULE else FILE;
     label := filename;
     language := Some (languageOf filename);
     x := Some (initialX filename fileIndex totalFiles);
     y := Some (initialY filename fileIndex totalFiles);
     code := Some code;
     complexity := Some (if isPython then 10 else 0);
     metadata := None;
     embedding := None;
     isStale := None |}.

(** The callback of [fileEntries.forEach] in the first pass. *)
Definition visitFile (totalFiles : nat) (st : State) (fileIndex : nat)
    (entry : string * string) : State :=
  let (filename, code) := entry in
  let st' := {| st_nodes := st_nodes st ++ [fileNode filename code fileIndex totalFiles];
                st_links := st_links st;
                definedFunctions := definedFunctions st;
                draws := draws st |} in
  if JS.endsWith ".py" filename
  then scanLines ("file-" ++ filename)
         (initialX filename fileIndex totalFiles)
         (initialY filename fileIndex totalFiles)
         (JS.split_nl code) st'
  else st'.

Fixpoint forEachFile (totalFiles fileIndex : nat) (entries : FileMap)
    (st : State) : State :=
  match entries with
  | [] => st
  | e :: rest =>
      forEachFile totalFiles (S fileIndex) rest (visitFile totalFiles st fileIndex e)
  end.

Definition firstPass (files : FileMap) : State :=
  forEachFile (List.length files) 0 files
    {| st_nodes := []; st_links := []; definedFunctions := []; draws := 0 |}.

(** *** The first pass as lists

    The same nodes, links and names, written as functions of the lines and
    of the entries; the first pass is shown below to build exactly these. *)

(** The names of the headers among [lines], in order. *)
Fixpoint headerNames (lines : list string) : list string :=
  match lines with
  | [] => []
  | line :: rest =>
      match matchHeader line with
      | Some funcName => funcName :: headerNames rest
      | None => headerNames rest
      end
  end.

(** The function nodes of [lines], the first of which takes the draws
    [d], [d + 1] and [d + 2]. *)
Fixpoint functionNodes (initialX initialY : float) (lines : list string)
    (d : nat) : list NodeData :=
  match lines with
  | [] => []
  | line :: rest =>
      match matchHeader line with
      | Some funcName =>
          functionNode funcName (JS.join_nl (line :: takeBody rest))
                       initialX initialY d
          :: functionNodes initialX initialY rest (d + 3)
      | None => functionNodes initialX initialY rest d
      end
  end.

Definition importLink (fileId funcName : string) : LinkData :=
  {| source := "fn-" ++ funcName; target := fileId;
     etype := IMPORTS; weight := None |}.

Definition setAll (names : list string) (m : StringMap) : StringMap :=
  fold_left (fun m funcName => Map_set funcName ("fn-" ++ funcName)%string m) names m.

(** The lines in which headers are looked for: none unless the file is a
    Python file. *)
Definition linesOf (entry : string * string) : list string :=
  if JS.endsWith ".py" (fst entry) then JS.split_nl (snd entry) else [].

(** The function names that one entry defines, in order. *)
Definition namesIn (entry : string * string) : list string :=
  headerNames (linesOf entry).

(** The function names of all entries, in order, with repetitions. *)
Definition allNames (files : FileMap) : list string := flat_map namesIn files.

Fixpoint fileNodes (totalFiles fileIndex : nat) (entries : FileMap) (d : nat)
    : list NodeData :=
  match entries with
  | [] => []
  | e :: rest =>
      fileNode (fst e) (snd e) fileIndex totalFiles
      :: functionNodes (initialX (fst e) fileIndex totalFiles)
                       (initialY (fst e) fileIndex totalFiles) (linesOf e) d
      ++ fileNodes totalFiles (S fileIndex) rest
                   (d + 3 * List.length (namesIn e))
  end.

(** The Calls link from the node [sourceId] to the function [targetName]. *)
Definition callLink (sourceId targetName : string) : LinkData :=
  {| source := sourceId; target := "fn-" ++ targetName;
     etype := CALLS; weight := None |}.

(** The ids that one entry contributes: its file node, then its functions. *)
Definition idsOfEntry (e : string * string) : list string :=
  ("file-" ++ fst e)%string :: map (String.append "fn-") (namesIn e).

Definition fileLinks (entries : FileMap) : list LinkData :=
  flat_map (fun e => map (importLink ("file-" ++ fst e)) (namesIn e)) entries.

(** The text in which a call of [targetName] from [sourceNode] is looked
    for: the code without its first line if the name is its own. *)
Definition haystack (sourceNode : NodeData) (sourceCode targetName : string) : string :=
  if String.eqb (label sourceNode) targetName
  then JS.join_nl (tl (JS.split_nl sourceCode))
  else sourceCode.

(** The links pushed by the callback of the second pass for one source
    node, in the order of [definedFunctions.forEach]. *)
Definition callsFrom (defs : StringMap) (sourceNode : NodeData) : list LinkData :=
  match code sourceNode with
  | None => []
  | Some sourceCode =>
      if JS.truthy sourceCode then
        flat_map (fun entry : string * string =>
          let (targetName, targetId) := entry in
          if test (callRegex targetName) (haystack sourceNode sourceCode targetName)
          then [{| source := id sourceNode; target := targetId;
                   etype := CALLS; weight := None |}]
          else []) defs
      else []
  end.

Definition isFunction (n : NodeData) : bool := NodeType_eqb (type n) FUNCTION.

Definition generateGraphFromFiles (files : FileMap) : GraphData :=
  let st := firstPass files in
  {| nodes := st_nodes st;
     links := st_links st ++
              flat_map (callsFrom (definedFunctions st))
                       (filter isFunction (st_nodes st)) |}.

End WithRuntime.

End Builder.

(* ================================================================== *)
(** ** The merge effect of App (App.tsx)                               *)
(* ================================================================== *)

Module Merge.

(** [{ ...newNode, embedding: e, isStale: s }] *)
Definition withState (newNode : NodeData) (e : option (list float))
    (s : option bool) : NodeData :=
  {| id := id newNode; type := type newNode; label := label newNode;
     language := language newNode; code := code newNode;
     metadata := metadata newNode; complexity := complexity newNode;
     x := x newNode; y := y newNode;
     embedding := e; isStale := s |}.

(** The callback of [newStructure.nodes.map]. *)
Definition mergeNode (prevNodes : list NodeData) (newNode : NodeData) : NodeData :=
  match find (fun old => String.eqb (id old) (id newNode)) prevNodes with
  | Some oldNode =>
      if code_eqb (code oldNode) (code newNode)
      then withState newNode (embedding oldNode) (isStale oldNode)
      else withState newNode (embedding oldNode) (Some true)
  | None => withState newNode (embedding newNode) (Some true)
  end.

(** [mergedNodes.find(n => n.id === i)] as a condition: a node is truthy. *)
Definition hasNode (mergedNodes : list NodeData) (i : string) : bool :=
  match find (fun n => String.eqb (id n) i) mergedNodes with
  | Some _ => true
  | None => false
  end.

Definition isSemantic (l : LinkData) : bool := EdgeType_eqb (etype l) SEMANTIC.

(** The reducer given to [setGraphData], with [newStructure] made explicit. *)
Definition mergeGraph (prevGraph newStructure : GraphData) : GraphData :=
  let mergedNodes := map (mergeNode (nodes prevGraph)) (nodes newStructure) in
  let existingSemanticEdges := filter isSemantic (links prevGraph) in
  let validSemanticEdges :=
    filter (fun l => hasNode mergedNodes (source l) && hasNode mergedNodes (target l))
           existingSemanticEdges in
  {| nodes := mergedNodes;
     links := links newStructure ++ validSemanticEdges |}.

End Merge.

(* ================================================================== *)
(** ** The semantic pass (App.tsx)                                     *)
(* ================================================================== *)

Module Semantic.

Import RegExp.
Local Open Scope float_scope.

(** [vec.reduce((sum, a, i) => f(sum, a, i), init)], from index [i] on. *)
Fixpoint reduceFrom (f : float -> float -> nat -> float) (i : nat)
    (vec : list float) (sum : float) : float :=
  match vec with
  | [] => sum
  | a :: vec' => reduceFrom f (S i) vec' (f sum a i)
  end.

(** [vecB[i]] inside a product: past the end it is [undefined], which
    arithmetic turns into NaN. *)
Definition at_ (vecB : list float) (i : nat) : float := nth i vecB nan.

Definition dotProduct (vecA vecB : list float) : float :=
  reduceFrom (fun sum a i => sum + a * at_ vecB i) 0 vecA 0.

Definition magnitude (vec : list float) : float :=
  sqrt (reduceFrom (fun sum a _ => sum + a * a) 0 vec 0).

Definition cosineSimilarity (vecA vecB : list float) : float :=
  let magnitudeA := magnitude vecA in
  let magnitudeB := magnitude vecB in
  if magnitudeA * magnitudeB =? 0 then 0
  else dotProduct vecA vecB / (magnitudeA * magnitudeB).

(** The four patterns of [cleanCodeForEmbedding]: a [def] line up to its
    first colon, a triple-quoted literal, a [#] comment, a blank line. *)
Definition defLineRegex : regex :=
  Seq (Bol true) (Seq (Lit "def") (Seq (Plus Space) (Seq (LazyStar Dot) (Chr ":")))).

Definition tripleOf (q : ascii) : regex := Seq (Chr q) (Seq (Chr q) (Chr q)).

Definition docstringRegex : regex :=
  Group (Alt (Seq (tripleOf JS.DQUOTE) (Seq (LazyStar AnyChar) (tripleOf JS.DQUOTE)))
             (Seq (tripleOf JS.SQUOTE) (Seq (LazyStar AnyChar) (tripleOf JS.SQUOTE)))).

Definition commentRegex : regex :=
  Seq (Chr "#") (Seq (Star Dot) (Eol true)).

Definition blankLineRegex : regex :=
  Seq (Bol true) (Seq (Star Space)
    (Cls (fun c => Ascii.eqb c JS.CR || Ascii.eqb c JS.LF))).

Definition cleanCodeForEmbedding (rawCode : string) : string :=
  if negb (JS.truthy rawCode) then EmptyString
  else
    let cleaned := rawCode in
    let cleaned := removeAll defLineRegex cleaned in
    let cleaned := removeAll docstringRegex cleaned in
    let cleaned := removeAll commentRegex cleaned in
    let cleaned := JS.trim (removeAll blankLineRegex cleaned) in
    cleaned.

(** [a || b] on strings. *)
Definition orElseString (a b : string) : string := if JS.truthy a then a else b.

Definition codeOr (n : NodeData) (dflt : string) : string :=
  match code n with
  | Some c => orElseString c dflt
  | None => dflt
  end.

(** [pureLogicCode || node.code || node.label] *)
Definition contentToEmbed (node : NodeData) : string :=
  let pureLogicCode := cleanCodeForEmbedding (codeOr node EmptyString) in
  orElseString pureLogicCode (codeOr node (label node)).

Definition hasEmbedding (n : NodeData) : bool :=
  match embedding n with Some _ => true | None => false end.

Definition stale (n : NodeData) : bool :=
  match isStale n with Some b => b | None => false end.

(** The filter that selects [nodesToUpdate]. *)
Definition needsUpdate (n : NodeData) : bool :=
  NodeType_eqb (type n) FUNCTION
  && match language n with Some l => Language_eqb l python | None => false end
  && match code n with Some c => JS.truthy c | None => false end
  && (negb (hasEmbedding n) || stale n).

(** How a call of [vscodeApi.callEmbedding] ends: with a result whose
    [embedding] is a vector or [null], or with a rejection. *)
Inductive Reply : Type :=
| Resolved (embedding : option (list float))
| Rejected.

(** The reply to the request made for the [k]-th element of
    [nodesToUpdate], given the text that was sent. *)
Definition Embedder : Type := nat -> string -> Reply.

Fixpoint findIndex (f : NodeData -> bool) (ns : list NodeData) : option nat :=
  match ns with
  | [] => None
  | n :: ns' =>
      if f n then Some 0%nat
      else match findIndex f ns' with Some i => Some (S i) | None => None end
  end.

(** [newNodes[idx] = f(newNodes[idx])] for an index within the array. *)
Fixpoint updateAt (idx : nat) (f : NodeData -> NodeData) (ns : list NodeData)
    : list NodeData :=
  match ns, idx with
  | [], _ => []
  | n :: ns', 0%nat => f n :: ns'
  | n :: ns', S idx' => n :: updateAt idx' f ns'
  end.

(** What runs once the reply for [node] is there: the rest of the async
    callback, which is not interrupted by another callback. *)
Definition settle (node : NodeData) (reply : Reply)
    (st : list NodeData * bool) : list NodeData * bool :=
  let (newNodes, updated) := st in
  match reply with
  | Resolved (Some embedding) =>
      match findIndex (fun n => String.eqb (id n) (id node)) newNodes with
      | Some idx =>
          (updateAt idx (fun n => Merge.withState n (Some embedding) (Some false))
                    newNodes, true)
      | None => (newNodes, updated)
      end
  | Resolved None => (newNodes, updated)
  | Rejected => (newNodes, updated)
  end.

(** [Promise.all] over the requests: they are sent in the order of
    [nodesToUpdate]; [order] lists them as their replies are handled. *)
Definition settleAll (callEmbedding : Embedder) (nodesToUpdate : list NodeData)
    (order : list nat) (st : list NodeData * bool) : list NodeData * bool :=
  fold_left (fun st k =>
    match nth_error nodesToUpdate k with
    | Some node => settle node (callEmbedding k (contentToEmbed node)) st
    | None => st
    end) order st.

(** [funcNodes[i].embedding!] *)
Definition embeddingOf (n : NodeData) : list float :=
  match embedding n with Some e => e | None => [] end.

Definition threshold : float := 0.75.

(** The inner loop, [for (let j = i + 1; ...)], for [funcNodes[i] = a]. *)
Fixpoint linksFrom (a : NodeData) (rest : list NodeData) : list LinkData :=
  match rest with
  | [] => []
  | b :: rest' =>
      let score := cosineSimilarity (embeddingOf a) (embeddingOf b) in
      (if threshold <? score
       then [{| source := id a; target := id b;
                etype := SEMANTIC; weight := Some score |}]
       else []) ++ linksFrom a rest'
  end.

(** The outer loop, [for (let i = 0; ...)]. *)
Fixpoint semanticLinks (funcNodes : list NodeData) : list LinkData :=
  match funcNodes with
  | [] => []
  | a :: rest => linksFrom a rest ++ semanticLinks rest
  end.

(** [handleRecalculateSemanticGraph]: the argument of [setGraphData] if it
    is called, [None] if the handler leaves the stored graph alone. *)
Definition handleRecalculateSemanticGraph (callEmbedding : Embedder)
    (order : list nat) (graphData : GraphData) : option GraphData :=
  let nodesToUpdate := filter needsUpdate (nodes graphData) in
  if Nat.eqb (List.length nodesToUpdate) 0 then None
  else
    let (newNodes, updated) :=
      settleAll callEmbedding nodesToUpdate order (nodes graphData, false) in
    if updated then
      let structuralLinks :=
        filter (fun l => negb (Merge.isSemantic l)) (links graphData) in
      let funcNodes := filter hasEmbedding newNodes in
      Some {| nodes := newNodes;
              links := structuralLinks ++ semanticLinks funcNodes |}
    else None.

(** The stored graph once the handler has run. *)
Definition storedAfter (callEmbedding : Embedder) (order : list nat)
    (graphData : GraphData) : GraphData :=
  match handleRecalculateSemanticGraph callEmbedding order graphData with
  | Some g => g
  | None => graphData
  end.

End Semantic.

(* ================================================================== *)
(** ** Editing: replaceFunctionInCode, handleCodeChange, pendingUpdates *)
(* ================================================================== *)

Module Editing.

Import RegExp.

(** A name made of word characters only; in the source of a pattern each
    of them stands for itself. *)
Fixpoint isPlainName (s : string) : bool :=
  match s with
  | EmptyString => true
  | String c s' => JS.isWord c && isPlainName s'
  end.

(** [new RegExp(`^def\\s+${funcName}\\s*\\(`)] for a plain name; it is
    built from the label of a function node, which is a capture of
    [functionRegex]. *)
Definition headerOf (funcName : string) : regex :=
  Seq (Bol false)
  (Seq (Lit "def")
  (Seq (Plus Space)
  (Seq (Lit funcName)
  (Seq (Star Space) (Chr "("))))).

(** The condition under which the [while] loop of [replaceFunctionInCode]
    breaks: the line is not blank and starts with none of space, tab, [#]
    and [@]. *)
Definition endsBlock (line : string) : bool :=
  negb (String.eqb (JS.trim line) EmptyString)
  && negb (JS.startsWith " " line)
  && negb (JS.startsWith (String JS.TAB EmptyString) line)
  && negb (JS.startsWith "#" line)
  && negb (JS.startsWith "@" line).

(** The [while (j < lines.length)] loop from [j] on: the final [j]. *)
Fixpoint scanEnd (lines : list string) (j : nat) : nat :=
  match lines with
  | [] => j
  | line :: rest => if endsBlock line then j else scanEnd rest (S j)
  end.

(** The [for] loop from [i] on: [startLine] and [endLine] of the first line
    that the pattern matches, if there is one. *)
Fixpoint findBlock (funcName : string) (lines : list string) (i : nat)
    : option (nat * nat) :=
  match lines with
  | [] => None
  | line :: rest =>
      if test (headerOf funcName) line then Some (i, scanEnd rest (S i))
      else findBlock funcName rest (S i)
  end.

Definition replaceFunctionInCode (fileContent funcName newCode : string) : string :=
  let lines := JS.split_nl fileContent in
  match findBlock funcName lines 0 with
  | Some (startLine, endLine) =>
      let before := firstn startLine lines in
      let after := skipn endLine lines in
      JS.join_nl (before ++ [newCode] ++ after)
  | None => fileContent
  end.

(** *** Objects used as maps

    [{ ...prev, [k]: v }] and [obj[k] = v] on a plain object whose own keys
    are enumerated as [prev]: a key that is present keeps its place; a new
    key that is an array index goes among the array indices, which come
    first in ascending order; any other new key goes last. *)

Definition digitValue (c : ascii) : N := N.of_nat (JS.codeUnit c - 48).

Fixpoint allDigits (s : string) : bool :=
  match s with
  | EmptyString => true
  | String c s' => JS.isDigit c && allDigits s'
  end.

Fixpoint decimalFrom (acc : N) (s : string) : N :=
  match s with
  | EmptyString => acc
  | String c s' => decimalFrom (10 * acc + digitValue c)%N s'
  end.

(** A canonical numeric string below 2^32 - 1: no sign, no leading zero. *)
Definition arrayIndex (k : string) : option N :=
  match k with
  | EmptyString => None
  | String c rest =>
      if allDigits k
         && (negb (Ascii.eqb c "0") || String.eqb rest EmptyString)
         && N.leb (decimalFrom 0 k) 4294967294
      then Some (decimalFrom 0 k)
      else None
  end.

(** Where a new array index [n] goes. *)
Fixpoint insertIndex (n : N) (k v : string) (m : FileMap) : FileMap :=
  match m with
  | [] => [(k, v)]
  | (k', v') :: m' =>
      match arrayIndex k' with
      | Some n' =>
          if N.ltb n n' then (k, v) :: m else (k', v') :: insertIndex n k v m'
      | None => (k, v) :: m
      end
  end.

Fixpoint hasKey (k : string) (m : FileMap) : bool :=
  match m with
  | [] => false
  | (k', _) :: m' => String.eqb k' k || hasKey k m'
  end.

Fixpoint replaceValue (k v : string) (m : FileMap) : FileMap :=
  match m with
  | [] => []
  | (k', v') :: m' =>
      if String.eqb k' k then (k', v) :: m' else (k', v') :: replaceValue k v m'
  end.

Definition objectSet (k v : string) (m : FileMap) : FileMap :=
  if hasKey k m then replaceValue k v m
  else match arrayIndex k with
       | Some n => insertIndex n k v m
       | None => m ++ [(k, v)]
       end.

(** The own property [k], if there is one. *)
Fixpoint ownValue (k : string) (m : FileMap) : option string :=
  match m with
  | [] => None
  | (k', v) :: m' => if String.eqb k' k then Some v else ownValue k m'
  end.

(** *** handleCodeChange *)

(** The state that the handler reads and writes. *)
Record AppState : Type := mkAppState {
  graphData : GraphData;
  fileMap : FileMap;
  selectedNodeId : option string
}.

(** How the handler ends: it returns, or [replaceFunctionInCode] throws a
    TypeError because [fileMap[filename]] is no string. *)
Inductive Completion : Type := Returned | Threw.

(** [{ ...n, code: newCode, isStale: true }] *)
Definition withCode (n : NodeData) (newCode : string) : NodeData :=
  {| id := id n; type := type n; label := label n; language := language n;
     code := Some newCode; metadata := metadata n; complexity := complexity n;
     x := x n; y := y n; embedding := embedding n; isStale := Some true |}.

(** The updater given to [setGraphData]. *)
Definition markEdited (selected newCode : string) (g : GraphData) : GraphData :=
  {| nodes := map (fun n => if String.eqb (id n) selected
                            then withCode n newCode else n) (nodes g);
     links := links g |}.

(** The state left by the part of the handler that follows [setGraphData]:
    the file map it sets, if it sets one, and how it ends. *)
Definition syncFile (newCode : string) (g : GraphData) (files : FileMap)
    (node : NodeData) : FileMap * Completion :=
  match type node with
  | MODULE | FILE => (objectSet (label node) newCode files, Returned)
  | FUNCTION =>
      match find (fun l => EdgeType_eqb (etype l) IMPORTS
                           && String.eqb (source l) (id node)) (links g) with
      | None => (files, Returned)
      | Some importLink =>
          match find (fun n => String.eqb (id n) (target importLink)) (nodes g) with
          | None => (files, Returned)
          | Some parentNode =>
              let filename := label parentNode in
              match ownValue filename files with
              | None => (files, Threw)
              | Some currentFileContent =>
                  let updatedFileContent :=
                    replaceFunctionInCode currentFileContent (label node) newCode in
                  if String.eqb updatedFileContent currentFileContent
                  then (files, Returned)
                  else (objectSet filename updatedFileContent files, Returned)
              end
          end
      end
  | NOTE => (files, Returned)
  end.

Definition handleCodeChange (newCode : string) (st : AppState)
    : AppState * Completion :=
  match selectedNodeId st with
  | None => (st, Returned)
  | Some selected =>
      if negb (JS.truthy selected) then (st, Returned)
      else
        let graph' := markEdited selected newCode (graphData st) in
        match find (fun n => String.eqb (id n) selected) (nodes (graphData st)) with
        | None =>
            ({| graphData := graph'; fileMap := fileMap st;
                selectedNodeId := selectedNodeId st |}, Returned)
        | Some node =>
            let (files', completion) :=
              syncFile newCode (graphData st) (fileMap st) node in
            ({| graphData := graph'; fileMap := files';
                selectedNodeId := selectedNodeId st |}, completion)
        end
  end.

(** *** pendingUpdates *)

(** The filter of [pendingUpdates]; unlike [nodesToUpdate] it does not look
    at the code. *)
Definition isPending (n : NodeData) : bool :=
  NodeType_eqb (type n) FUNCTION
  && match language n with Some l => Language_eqb l python | None => false end
  && (negb (Semantic.hasEmbedding n) || Semantic.stale n).

Definition pendingUpdates (g : GraphData) : nat :=
  List.length (filter isPending (nodes g)).

(** *** The callbacks that change the file map *)

(** [path.split('/').pop() || path] *)
Fixpoint lastSegment (acc s : string) : string :=
  match s with
  | EmptyString => acc
  | String c s' =>
      if Ascii.eqb c "/" then lastSegment EmptyString s'
      else lastSegment (acc ++ String c EmptyString) s'
  end.

Definition baseName (path : string) : string :=
  Semantic.orElseString (lastSegment EmptyString path) path.

(** The listener registered with [onFileChange]. *)
Definition onFileChanged (path content : string) (files : FileMap) : FileMap :=
  objectSet (baseName path) content files.

(** [obj[k] = v] on a plain object: as [objectSet], but for the key
    [__proto__] when the object has no own property of that name: the
    assignment then reaches the setter of [Object.prototype], which ignores
    a string and adds no property. *)
Definition objectAssign (k v : string) (m : FileMap) : FileMap :=
  if String.eqb k "__proto__" && negb (hasKey k m) then m else objectSet k v m.

(** The file map that [handleFilesUploaded] sets: [{ ...fileMap }], then
    one assignment per uploaded file, in order. *)
Definition uploadFiles (uploaded : list (string * string)) (files : FileMap) : FileMap :=
  fold_left (fun newFiles f => objectAssign (fst f) (snd f) newFiles) uploaded files.

End Editing.

(* ================================================================== *)
(** ** The graphs that the app stores                                  *)
(* ================================================================== *)

Module App.

Section WithHost.

(** [Math.cos], [Math.sin] and [Math.floor] of the host. *)
Variables Math_cos Math_sin Math_floor : float -> float.

Local Abbreviation generateGraphFromFiles :=
  (Builder.generateGraphFromFiles Math_cos Math_sin Math_floor).

(** The values that the state [graphData] takes.  It starts as the empty
    graph or as the graph of the demo files; [setGraphData] is called at
    three places: by the merge effect, which runs when the file map is not
    empty, at the end of a semantic pass that has obtained an embedding,
    with a graph computed from the state that the pass has started from,
    and by [handleCodeChange] when a node is selected.  [Math_random] is
    the stream of values that [Math.random] returns during the invocation
    of the builder. *)
Inductive Stored : GraphData -> Prop :=
| Stored_empty : Stored {| nodes := []; links := [] |}
| Stored_demo (Math_random : nat -> float) (files : FileMap) :
    Stored (generateGraphFromFiles Math_random files)
| Stored_merge (prevGraph : GraphData) (Math_random : nat -> float)
    (fileMap : FileMap) :
    Stored prevGraph -> fileMap <> [] ->
    Stored (Merge.mergeGraph prevGraph (generateGraphFromFiles Math_random fileMap))
| Stored_pass (graphData newGraph : GraphData)
    (callEmbedding : Semantic.Embedder) (order : list nat) :
    Stored graphData ->
    Semantic.handleRecalculateSemanticGraph callEmbedding order graphData
      = Some newGraph ->
    Stored newGraph
| Stored_edit (prev : GraphData) (selectedNodeId newCode : string) :
    Stored prev -> JS.truthy selectedNodeId = true ->
    Stored (Editing.markEdited selectedNodeId newCode prev).

End WithHost.

End App.

(* ================================================================== *)
(** ** The file tree (App.tsx)                                          *)
(* ================================================================== *)

Module Tree.

(** ['file' | 'folder'], and ['function'] for the items that [enrichTree]
    makes. *)
Inductive ItemType : Type := ItemFile | ItemFolder | ItemFunction.

#[warnings="-register-all"] Inductive FileSystemItem : Type :=
  mkItem (item_id item_name : string) (item_type : ItemType)
         (item_language : option Language)
         (children : option (list FileSystemItem)) (isOpen : option bool).

Definition item_id (item : FileSystemItem) : string :=
  match item with mkItem i _ _ _ _ _ => i end.
Definition item_name (item : FileSystemItem) : string :=
  match item with mkItem _ n _ _ _ _ => n end.
Definition item_type (item : FileSystemItem) : ItemType :=
  match item with mkItem _ _ t _ _ _ => t end.
Definition children (item : FileSystemItem) : option (list FileSystemItem) :=
  match item with mkItem _ _ _ _ c _ => c end.
Definition isOpen (item : FileSystemItem) : option bool :=
  match item with mkItem _ _ _ _ _ o => o end.

(** [.filter((n): n is NodeData => !!n)] *)
Fixpoint present (found : list (option NodeData)) : list NodeData :=
  match found with
  | [] => []
  | Some n :: rest => n :: present rest
  | None :: rest => present rest
  end.

(** [{ id: n.id, name: n.label, type: 'function', language: 'python' }] *)
Definition functionItem (n : NodeData) : FileSystemItem :=
  mkItem (id n) (label n) ItemFunction (Some python) None None.

Definition functionsInFile (graphData : GraphData) (itemId : string)
    : list FileSystemItem :=
  map functionItem
    (present
       (map (fun l => find (fun n => String.eqb (id n) (source l)) (nodes graphData))
            (filter (fun l => EdgeType_eqb (etype l) IMPORTS
                              && String.eqb (target l) itemId)
                    (links graphData)))).

(** The callback of [items.map] in [enrichTree]; the children of a folder
    are enriched by the same function. *)
Fixpoint enrichItem (graphData : GraphData) (item : FileSystemItem)
    : FileSystemItem :=
  match item with
  | mkItem i name t language ch open =>
      let ch1 :=
        match t, ch with
        | ItemFolder, Some c => Some (map (enrichItem graphData) c)
        | _, _ => ch
        end in
      match t with
      | ItemFile =>
          let fs := functionsInFile graphData i in
          if Nat.ltb 0 (List.length fs)
          then mkItem i name t language (Some fs) (Some true)
          else mkItem i name t language ch1 open
      | _ => mkItem i name t language ch1 open
      end
  end.

Definition enrichTree (graphData : GraphData) (items : list FileSystemItem)
    : list FileSystemItem :=
  map (enrichItem graphData) items.

(** [s.replace(p, '')] for a string pattern: the first occurrence of [p]
    is removed. *)
Fixpoint dropChars (n : nat) (s : string) : string :=
  match n, s with
  | S n', String _ s' => dropChars n' s'
  | _, _ => s
  end.

Fixpoint removeFirst (p s : string) : string :=
  if JS.startsWith p s then dropChars (String.length p) s
  else match s with
       | EmptyString => EmptyString
       | String c s' => String c (removeFirst p s')
       end.

(** [handleFileSelect]: the selected id that it leaves. *)
Definition handleFileSelect (fileId : string) (graphData : GraphData)
    (selectedNodeId : option string) : option string :=
  match find (fun n => String.eqb (id n) fileId) (nodes graphData) with
  | Some node => Some (id node)
  | None =>
      let filename := removeFirst "file-" fileId in
      match find (fun n => String.eqb (label n) filename) (nodes graphData) with
      | Some node => Some (id node)
      | None => selectedNodeId
      end
  end.

(** The language that [handleFilesUploaded] gives the tree item of an
    uploaded file: four statements, a later one overrides an earlier one. *)
Definition uploadLanguage (name : string) : Language :=
  let lang := text in
  let lang := if JS.endsWith ".py" name then python else lang in
  let lang := if JS.endsWith ".ts" name || JS.endsWith ".tsx" name
              then typescript else lang in
  let lang := if JS.endsWith ".json" name then json else lang in
  let lang := if JS.endsWith ".md" name then markdown else lang in
  lang.

(** The item that [handleFilesUploaded] pushes for a file. *)
Definition uploadItem (file : string * string) : FileSystemItem :=
  mkItem ("file-" ++ fst file) (fst file) ItemFile
         (Some (uploadLanguage (fst file))) None None.

Definition newTreeItems (fileList : list (string * string)) : list FileSystemItem :=
  map uploadItem fileList.


End Tree.

(* ================================================================== *)
(** ** Inputs used in the examples                                     *)
(* ================================================================== *)

Module Scenario.

Local Open Scope string_scope.

Definition line (s : string) : string := s ++ JS.nl.

(** ["def f():\n    return 1\n"] *)
Definition onlyF : string := line "def f():" ++ line "    return 1".

(** ["def f():\n    return 2\n"] *)
Definition otherF : string := line "def f():" ++ line "    return 2".

(** ["def f():\n    return g()\n\ndef g():\n    return 1\n"] *)
Definition fCallsG : string :=
  line "def f():" ++ line "    return g()" ++ line "" ++
  line "def g():" ++ line "    return 1".

(** ["def f():\n    return f(0)\n"] *)
Definition recursiveF : string := line "def f():" ++ line "    return f(0)".

(** Scenarios A, B and C: one file [a.py]. *)
Definition scenarioA : FileMap := [("a.py", onlyF)].
Definition scenarioB : FileMap := [("a.py", fCallsG)].
Definition scenarioC : FileMap := [("a.py", recursiveF)].

(** [g] is defined, and [f] calls [xg], whose name ends with [g]. *)
Definition callsLongerName : FileMap :=
  [("a.py", line "def f():" ++ line "    return xg()" ++ line "" ++
            line "def g():" ++ line "    return 1")].

(** [g] is defined, and [f] names [g] without calling it. *)
Definition namesWithoutCall : FileMap :=
  [("a.py", line "def f():" ++ line "    return g" ++ line "" ++
            line "def g():" ++ line "    return 1")].

(** One entry-point file, [main.py]. *)
Definition mainOnly : FileMap := [("main.py", onlyF)].

(** Two files, each with a top-level function [f]. *)
Definition sameNameInTwoFiles : FileMap := [("a.py", onlyF); ("b.py", otherF)].

(** A host for the examples: [Math.cos] and [Math.sin] at the two angles
    that the examples ask for (0 and pi, the seats of the first and the
    second of two files), and [Math.floor]. *)
Definition hostCos (a : float) : float :=
  (if a =? 0 then 1 else if a =? Builder.Math_PI then -1 else nan)%float.

Definition hostSin (a : float) : float :=
  (if a =? 0 then 0
   else if a =? Builder.Math_PI then 0x1.1a62633145c07p-53 else nan)%float.

Definition hostFloor (v : float) : float :=
  (if v =? 0 then v
   else if abs v <? 0x1p52 then
     let r := if v <? 0 then (v - 0x1p52) + 0x1p52 else (v + 0x1p52) - 0x1p52 in
     if v <? r then r - 1 else r
   else v)%float.

(** [Math.random] always returning the same value. *)
Definition always (v : float) : nat -> float := fun _ => v.

Definition generate (random : nat -> float) (files : FileMap) : GraphData :=
  Builder.generateGraphFromFiles hostCos hostSin hostFloor random files.

(** The stored graph before the first load, and after a first load of
    [main.py] in which [Math.random] returned 0.25. *)
Definition emptyGraph : GraphData := {| nodes := []; links := [] |}.

Definition firstLoad : GraphData :=
  Merge.mergeGraph emptyGraph (generate (always 0.25) mainOnly).

(** The function node of [main.py] in a rebuild in which [Math.random]
    returns 0.75. *)
Definition rebuiltF : NodeData :=
  Builder.functionNode hostFloor (always 0.75) "f" onlyF 0 0 0.

(** Vectors for the similarity examples.  [unitX5] and [sixteen5] have
    magnitudes 1 and 4 and dot product 3; [unitX2] and [fourThree] have
    magnitudes 1 and 5 and dot product 4. *)
Definition unitX5 : list float := [1; 0; 0; 0; 0]%float.
Definition sixteen5 : list float := [3; 2; 1; 1; 1]%float.
Definition unitX2 : list float := [1; 0]%float.
Definition fourThree : list float := [4; 3]%float.

(** A vector whose squares overflow binary64. *)
Definition huge : list float := [0x1p600]%float.

(** A function node that carries the embedding [e]. *)
Definition embedded (name : string) (e : list float) : NodeData :=
  Merge.withState (Builder.functionNode hostFloor (always 0.5) name onlyF 0 0 0)
                  (Some e) (Some false).

(** The stored graph after a first load of one file with [f] and [g]:
    both function nodes wait for an embedding. *)
Definition mainFG : FileMap := [("main.py", fCallsG)].

Definition storedFG : GraphData :=
  Merge.mergeGraph emptyGraph (generate (always 0.5) mainFG).

(** An embedder that answers the first request with [unitX2] and the
    others with [fourThree]; one that rejects the first request and answers
    the others with [fourThree]; one that has no embedding to give. *)
Definition bothAnswered : Semantic.Embedder :=
  fun k _ => match k with
             | 0 => Semantic.Resolved (Some unitX2)
             | _ => Semantic.Resolved (Some fourThree)
             end.

Definition firstRejected : Semantic.Embedder :=
  fun k _ => match k with
             | 0 => Semantic.Rejected
             | _ => Semantic.Resolved (Some fourThree)
             end.

Definition noneAnswered : Semantic.Embedder :=
  fun k _ => match k with
             | 0 => Semantic.Rejected
             | _ => Semantic.Resolved None
             end.

(** The node of [f] in [storedFG]: the first of the two that wait. *)
Definition waitingF : NodeData :=
  Merge.withState
    (Builder.functionNode hostFloor (always 0.5) "f"
       (line "def f():" ++ line "    return g()") 0 0 0)
    None (Some true).

(** The stored graph after a first load of two files that each define
    [f], and its two function nodes, both with the id [fn-f]. *)
Definition storedTwoF : GraphData :=
  Merge.mergeGraph emptyGraph (generate (always 0.5) sameNameInTwoFiles).

Definition waitingFofA : NodeData :=
  Merge.withState
    (Builder.functionNode hostFloor (always 0.5) "f" onlyF
       (hostCos 0 * Builder.ORBIT_RADIUS) (hostSin 0 * Builder.ORBIT_RADIUS) 0)
    None (Some true).

Definition waitingFofB : NodeData :=
  Merge.withState
    (Builder.functionNode hostFloor (always 0.5) "f" otherF
       (hostCos Builder.Math_PI * Builder.ORBIT_RADIUS)
       (hostSin Builder.Math_PI * Builder.ORBIT_RADIUS) 3)
    None (Some true).



(** [storedFG] after a pass in which both requests were answered, and the
    Semantic link that this pass has computed. *)
Definition embeddedFG : GraphData :=
  Semantic.storedAfter bothAnswered [0; 1] storedFG.

Definition linkFG : LinkData :=
  {| source := "fn-f"; target := "fn-g"; etype := SEMANTIC;
     weight := Some (4 / 5)%float |}.

(** The function node of scenario C. *)
Definition recursiveNode : NodeData :=
  Builder.functionNode hostFloor (always 0.5) "f" recursiveF
    (hostCos 0 * Builder.ORBIT_RADIUS) (hostSin 0 * Builder.ORBIT_RADIUS) 0.

End Scenario.

(** Inputs of the examples of edits. *)
Module EditScenario.

Local Open Scope string_scope.

(** ["def g():\n    return 2\n"]: a block for [g]. *)
Definition newG : string := Scenario.line "def g():" ++ Scenario.line "    return 2".

(** The block of [g] in [Scenario.fCallsG]: ["def g():\n    return 1\n"]. *)
Definition oldG : string := Scenario.line "def g():" ++ Scenario.line "    return 1".

(** [Scenario.fCallsG] with the block of [g] replaced by [newG]. *)
Definition fCallsNewG : string :=
  Scenario.line "def f():" ++ Scenario.line "    return g()" ++ Scenario.line "" ++
  newG.

End EditScenario.

(* ================================================================== *)
(** * Properties                                                       *)
(* ================================================================== *)

Lemma NodeType_eqb_eq (a b : NodeType) : NodeType_eqb a b = true <-> a = b.
Proof. destruct a, b; simpl; split; congruence. Qed.

Lemma EdgeType_eqb_eq (a b : EdgeType) : EdgeType_eqb a b = true <-> a = b.
Proof. destruct a, b; simpl; split; congruence. Qed.

Lemma code_eqb_eq (a b : option string) : code_eqb a b = true <-> a = b.
Proof.
  destruct a as [s|], b as [t|]; simpl; try (split; congruence).
  rewrite String.eqb_eq. split; congruence.
Qed.

Lemma append_inj_l (p a b : string) : (p ++ a)%string = (p ++ b)%string -> a = b.
Proof. induction p as [|c p IH]; simpl; intros H; [exact H | injection H; auto]. Qed.

Lemma file_id_not_fn_id (a b : string) : ("file-" ++ a)%string <> ("fn-" ++ b)%string.
Proof. simpl. intros H. discriminate H. Qed.

(** ** Lists *)

Section ListFacts.

Context {A B : Type}.




Lemma NoDup_app_iff (l1 l2 : list A) :
  NoDup (l1 ++ l2) <->
  NoDup l1 /\ NoDup l2 /\ (forall v, In v l1 -> ~ In v l2).
Proof.
  split.
  - intros H. repeat split.
    + eapply NoDup_app_remove_r; eauto.
    + eapply NoDup_app_remove_l; eauto.
    + induction l1 as [|u l1 IH]; cbn in *; [tauto|].
      inversion H as [|? ? Hu Hrest]; subst.
      intros v [<-|Hv] Hin2.
      * apply Hu, in_or_app. now right.
      * exact (IH Hrest v Hv Hin2).
  - intros (H1 & H2 & H3). now apply NoDup_app.
Qed.

End ListFacts.

(** ** The first pass builds the lists of its view *)

Module BuilderFacts.

Import Builder.

Section WithRuntime.

Variables Math_cos Math_sin Math_floor : float -> float.
Variable Math_random : nat -> float.

Local Abbreviation scanLines := (scanLines Math_floor Math_random).
Local Abbreviation functionNodes := (functionNodes Math_floor Math_random).
Local Abbreviation forEachFile := (forEachFile Math_cos Math_sin Math_floor Math_random).
Local Abbreviation fileNodes := (fileNodes Math_cos Math_sin Math_floor Math_random).
Local Abbreviation firstPass := (firstPass Math_cos Math_sin Math_floor Math_random).
Local Abbreviation generateGraphFromFiles :=
  (generateGraphFromFiles Math_cos Math_sin Math_floor Math_random).

Lemma scanLines_view (fileId : string) (ix iy : float) (lines : list string) :
  forall st,
    scanLines fileId ix iy lines st =
    {| st_nodes := st_nodes st ++ functionNodes ix iy lines (draws st);
       st_links := st_links st ++ map (importLink fileId) (headerNames lines);
       definedFunctions := setAll (headerNames lines) (definedFunctions st);
       draws := draws st + 3 * List.length (headerNames lines) |}.
Proof.
  induction lines as [|line rest IH]; intros st; simpl.
  - destruct st; simpl. rewrite !app_nil_r. f_equal. lia.
  - destruct (matchHeader line) as [funcName|].
    + rewrite IH. simpl. rewrite <- !app_assoc. simpl. f_equal. lia.
    + apply IH.
Qed.

Lemma visitFile_view (totalFiles : nat) (st : State) (fileIndex : nat)
    (e : string * string) :
  visitFile Math_cos Math_sin Math_floor Math_random totalFiles st fileIndex e =
  {| st_nodes := st_nodes st ++
       fileNode Math_cos Math_sin (fst e) (snd e) fileIndex totalFiles
       :: functionNodes (initialX Math_cos (fst e) fileIndex totalFiles)
                        (initialY Math_sin (fst e) fileIndex totalFiles)
                        (linesOf e) (draws st);
     st_links := st_links st ++ map (importLink ("file-" ++ fst e)) (namesIn e);
     definedFunctions := setAll (namesIn e) (definedFunctions st);
     draws := draws st + 3 * List.length (namesIn e) |}.
Proof.
  destruct e as [filename code]. unfold visitFile, namesIn, linesOf.
  cbn [fst snd]. destruct (JS.endsWith ".py" filename).
  - rewrite scanLines_view. cbn [st_nodes st_links definedFunctions draws].
    rewrite <- app_assoc. reflexivity.
  - cbn [headerNames Builder.functionNodes map setAll fold_left List.length].
    rewrite app_nil_r, Nat.mul_0_r, Nat.add_0_r. reflexivity.
Qed.

Lemma forEachFile_view (totalFiles : nat) (entries : FileMap) :
  forall fileIndex st,
    forEachFile totalFiles fileIndex entries st =
    {| st_nodes := st_nodes st ++ fileNodes totalFiles fileIndex entries (draws st);
       st_links := st_links st ++ fileLinks entries;
       definedFunctions := setAll (allNames entries) (definedFunctions st);
       draws := draws st + 3 * List.length (allNames entries) |}.
Proof.
  induction entries as [|e rest IH]; intros fileIndex st.
  - destruct st; cbn. rewrite !app_nil_r. f_equal. lia.
  - cbn [Builder.forEachFile]. rewrite IH, visitFile_view.
    cbn [st_nodes st_links definedFunctions draws Builder.fileNodes].
    unfold fileLinks, allNames, setAll. cbn [flat_map].
    rewrite fold_left_app, length_app, <- !app_assoc. cbn [app].
    f_equal. lia.
Qed.

Lemma firstPass_view (files : FileMap) :
  firstPass files =
  {| st_nodes := fileNodes (List.length files) 0 files 0;
     st_links := fileLinks files;
     definedFunctions := setAll (allNames files) [];
     draws := 3 * List.length (allNames files) |}.
Proof. unfold Builder.firstPass. rewrite forEachFile_view. reflexivity. Qed.

(** ** Node ids *)

Lemma ids_functionNodes (ix iy : float) (lines : list string) :
  forall d, ids (functionNodes ix iy lines d) =
            map (String.append "fn-") (headerNames lines).
Proof.
  induction lines as [|l rest IH]; intros d; cbn; [reflexivity|].
  destruct (matchHeader l); cbn; [rewrite IH; reflexivity | apply IH].
Qed.

Lemma ids_fileNodes (totalFiles : nat) (entries : FileMap) :
  forall fileIndex d,
    ids (fileNodes totalFiles fileIndex entries d) = flat_map idsOfEntry entries.
Proof.
  induction entries as [|e rest IH]; intros fileIndex d; cbn; [reflexivity|].
  unfold ids in *. rewrite map_app, IH. fold (ids (functionNodes
    (initialX Math_cos (fst e) fileIndex totalFiles)
    (initialY Math_sin (fst e) fileIndex totalFiles) (linesOf e) d)).
  rewrite ids_functionNodes. reflexivity.
Qed.

Lemma ids_generate (files : FileMap) :
  ids (nodes (generateGraphFromFiles files)) = flat_map idsOfEntry files.
Proof.
  unfold Builder.generateGraphFromFiles. cbn [nodes].
  rewrite firstPass_view. cbn [st_nodes]. apply ids_fileNodes.
Qed.



(** ** The second pass *)

(** Every value of [definedFunctions] is the id made from its key. *)
Definition canonical (m : StringMap) : Prop :=
  forall k v, In (k, v) m -> v = ("fn-" ++ k)%string.

Lemma Map_set_in (k : string) (m : StringMap) :
  canonical m ->
  forall k' v', In (k', v') (Map_set k ("fn-" ++ k) m) <->
                In (k', v') m \/ (k', v') = (k, ("fn-" ++ k)%string).
Proof.
  intros Hm k' v'. induction m as [|[k0 v0] m IH].
  - cbn. intuition congruence.
  - cbn [Map_set]. destruct (String.eqb k0 k) eqn:E.
    + apply String.eqb_eq in E. subst k0.
      assert (v0 = ("fn-" ++ k)%string) by (apply Hm; now left). subst v0.
      cbn. intuition congruence.
    + assert (Hm' : canonical m) by (intros a b Hab; apply Hm; now right).
      specialize (IH Hm'). cbn. rewrite IH. tauto.
Qed.

Lemma Map_set_canonical (k : string) (m : StringMap) :
  canonical m -> canonical (Map_set k ("fn-" ++ k) m).
Proof.
  intros Hm k' v' Hin. apply (Map_set_in k m Hm) in Hin as [Hin|Heq].
  - now apply Hm.
  - congruence.
Qed.

Lemma setAll_in (names : list string) :
  forall m, canonical m ->
    canonical (setAll names m) /\
    forall k v, In (k, v) (setAll names m) <->
                In (k, v) m \/ (In k names /\ v = ("fn-" ++ k)%string).
Proof.
  induction names as [|n names IH]; intros m Hm; cbn.
  - split; [exact Hm | intros; tauto].
  - destruct (IH _ (Map_set_canonical n m Hm)) as [Hc Hin].
    split; [exact Hc|]. intros k v. unfold setAll in Hin. rewrite Hin.
    rewrite (Map_set_in n m Hm). split.
    + intros [[H|H]|[H1 H2]].
      * now left.
      * injection H as -> ->. right. split; [now left | reflexivity].
      * right. split; [now right | exact H2].
    + intros [H|[[H1|H1] H2]].
      * left. now left.
      * subst. left. now right.
      * right. now split.
Qed.

Lemma definedFunctions_in (files : FileMap) (k v : string) :
  In (k, v) (definedFunctions (firstPass files)) <->
  In k (allNames files) /\ v = ("fn-" ++ k)%string.
Proof.
  rewrite firstPass_view. cbn [definedFunctions].
  assert (H0 : canonical []) by (intros a b []).
  destruct (setAll_in (allNames files) [] H0) as [_ H]. rewrite H. cbn. tauto.
Qed.

(** What the first pass guarantees of a function node: its code is a
    non-empty text and its id is made from its label. *)
Definition functionShape (n : NodeData) : Prop :=
  isFunction n = true /\
  (exists c, code n = Some c /\ JS.truthy c = true) /\
  id n = ("fn-" ++ label n)%string.

Lemma matchHeader_nonempty (line funcName : string) :
  matchHeader line = Some funcName -> exists c l, line = String c l.
Proof.
  destruct line as [|c l]; [discriminate | eauto].
Qed.

Lemma join_nl_truthy (c : ascii) (l : string) (rest : list string) :
  JS.truthy (JS.join_nl (String c l :: rest)) = true.
Proof. destruct rest; reflexivity. Qed.

Lemma functionNodes_shape (ix iy : float) (lines : list string) :
  forall d, Forall functionShape (functionNodes ix iy lines d).
Proof.
  induction lines as [|line rest IH]; intros d; cbn; [constructor|].
  destruct (matchHeader line) as [funcName|] eqn:E; [|apply IH].
  constructor; [|apply IH].
  destruct (matchHeader_nonempty _ _ E) as (c & l & ->).
  repeat split. cbn. eexists. split; [reflexivity | apply join_nl_truthy].
Qed.

Lemma functionNodes_labels (ix iy : float) (lines : list string) :
  forall d, map label (filter isFunction (functionNodes ix iy lines d))
            = headerNames lines.
Proof.
  induction lines as [|line rest IH]; intros d; cbn; [reflexivity|].
  destruct (matchHeader line); cbn; [rewrite IH; reflexivity | apply IH].
Qed.

Lemma fileNode_not_function (filename code : string) (fileIndex totalFiles : nat) :
  isFunction (fileNode Math_cos Math_sin filename code fileIndex totalFiles) = false.
Proof. unfold isFunction, fileNode. cbn. destruct (JS.endsWith ".py" filename); reflexivity. Qed.

Lemma fileNodes_shape (totalFiles : nat) (entries : FileMap) :
  forall fileIndex d,
    Forall (fun n => isFunction n = true -> functionShape n)
           (fileNodes totalFiles fileIndex entries d).
Proof.
  induction entries as [|e rest IH]; intros fileIndex d; cbn [Builder.fileNodes];
    [constructor|].
  constructor.
  - rewrite fileNode_not_function. discriminate.
  - apply Forall_app. split; [|apply IH].
    eapply Forall_impl; [|apply functionNodes_shape]. auto.
Qed.

Lemma fileNodes_labels (totalFiles : nat) (entries : FileMap) :
  forall fileIndex d,
    map label (filter isFunction (fileNodes totalFiles fileIndex entries d))
    = allNames entries.
Proof.
  induction entries as [|e rest IH]; intros fileIndex d; cbn [Builder.fileNodes];
    [reflexivity|].
  cbn [filter]. rewrite fileNode_not_function, filter_app, map_app.
  rewrite functionNodes_labels, IH. reflexivity.
Qed.

(** The labels of the function nodes are the names that the headers
    define, in order. *)
Lemma function_labels (files : FileMap) :
  map label (filter isFunction (nodes (generateGraphFromFiles files)))
  = allNames files.
Proof.
  unfold Builder.generateGraphFromFiles. cbn [nodes].
  rewrite firstPass_view. apply fileNodes_labels.
Qed.

Lemma function_shape (files : FileMap) (n : NodeData) :
  In n (nodes (generateGraphFromFiles files)) -> isFunction n = true ->
  functionShape n.
Proof.
  unfold Builder.generateGraphFromFiles. cbn [nodes].
  rewrite firstPass_view. cbn [st_nodes]. intros Hin.
  exact (proj1 (Forall_forall _ _)
           (fileNodes_shape (List.length files) files 0 0) n Hin).
Qed.

Lemma fileLinks_imports (entries : FileMap) (l : LinkData) :
  In l (fileLinks entries) -> etype l = IMPORTS.
Proof.
  unfold fileLinks. rewrite in_flat_map. intros (e & _ & Hin).
  apply in_map_iff in Hin as (name & <- & _). reflexivity.
Qed.

Lemma callsFrom_in (defs : StringMap) (s : NodeData) (c : string) (l : LinkData) :
  code s = Some c -> JS.truthy c = true ->
  (In l (callsFrom defs s) <->
   exists t tid, In (t, tid) defs /\
     RegExp.test (callRegex t) (haystack s c t) = true /\
     l = {| source := id s; target := tid; etype := CALLS; weight := None |}).
Proof.
  intros Hc Ht. unfold callsFrom. rewrite Hc, Ht, in_flat_map. split.
  - intros ([t tid] & Hin & Hl).
    destruct (RegExp.test (callRegex t) (haystack s c t)) eqn:E; [|destruct Hl].
    destruct Hl as [<-|[]]. eauto.
  - intros (t & tid & Hin & E & ->). exists (t, tid). split; [exact Hin|].
    rewrite E. now left.
Qed.

(** The links of the graph are the Imports links of the first pass
    followed by the Calls links of the second pass, and the known function
    names are the labels of the function nodes.  For a function node
    [s] and a known function name [t], the link from [s] to [fn-t] is
    pushed for [s] exactly when the pattern made for [t] matches the text
    searched, which is the code of [s] without its first line if [t] is the
    name of [s], and the whole code of [s] otherwise. *)
Lemma calls_by_pattern (files : FileMap) :
  links (generateGraphFromFiles files)
    = fileLinks files
      ++ flat_map (callsFrom (definedFunctions (firstPass files)))
                  (filter isFunction (nodes (generateGraphFromFiles files)))
  /\
  map label (filter isFunction (nodes (generateGraphFromFiles files)))
    = allNames files
  /\
  (forall s t,
      In s (nodes (generateGraphFromFiles files)) -> isFunction s = true ->
      In t (allNames files) ->
      exists c, code s = Some c /\
        (In (callLink (id s) t) (callsFrom (definedFunctions (firstPass files)) s)
         <-> RegExp.test (callRegex t)
               (if String.eqb (label s) t
                then JS.join_nl (tl (JS.split_nl c)) else c) = true))
  /\
  (forall src t,
      In (callLink src t) (links (generateGraphFromFiles files)) <->
      exists s c,
        In s (nodes (generateGraphFromFiles files)) /\ isFunction s = true /\
        id s = src /\ code s = Some c /\ In t (allNames files) /\
        RegExp.test (callRegex t)
          (if String.eqb (label s) t
           then JS.join_nl (tl (JS.split_nl c)) else c) = true)
  /\
  links (generateGraphFromFiles Scenario.scenarioC)
    = [importLink "file-a.py" "f"; callLink "fn-f" "f"]
  /\
  links (generateGraphFromFiles Scenario.scenarioA)
    = [importLink "file-a.py" "f"]
  /\
  links (generateGraphFromFiles Scenario.scenarioB)
    = [importLink "file-a.py" "f"; importLink "file-a.py" "g"; callLink "fn-f" "g"].
Proof.
  assert (Hlinks : links (generateGraphFromFiles files)
    = fileLinks files
      ++ flat_map (callsFrom (definedFunctions (firstPass files)))
                  (filter isFunction (nodes (generateGraphFromFiles files)))).
  { unfold Builder.generateGraphFromFiles. cbn [links nodes].
    rewrite firstPass_view. reflexivity. }
  assert (Hper : forall s t c,
      code s = Some c -> JS.truthy c = true -> In t (allNames files) ->
      (In (callLink (id s) t) (callsFrom (definedFunctions (firstPass files)) s)
       <-> RegExp.test (callRegex t)
             (if String.eqb (label s) t
              then JS.join_nl (tl (JS.split_nl c)) else c) = true)).
  { intros s t c Hc Htr Ht. rewrite (callsFrom_in _ _ _ _ Hc Htr). split.
    - intros (t' & tid & Hin & Htest & Heq).
      apply definedFunctions_in in Hin as [_ ->].
      unfold callLink in Heq. injection Heq as Heq. subst t'. exact Htest.
    - intros Htest. exists t, ("fn-" ++ t)%string. repeat split.
      + apply definedFunctions_in. now split.
      + exact Htest. }
  split; [exact Hlinks|]. split; [apply function_labels|]. split; [|split].
  - intros s t Hs Hf Ht.
    destruct (function_shape files s Hs Hf) as (_ & (c & Hc & Htr) & _).
    exists c. split; [exact Hc|]. now apply Hper.
  - intros src t. rewrite Hlinks, in_app_iff, in_flat_map. split.
    + intros [Himp|(s & Hs & Hin)].
      * apply fileLinks_imports in Himp. discriminate Himp.
      * apply filter_In in Hs as [Hs Hf].
        destruct (function_shape files s Hs Hf) as (_ & (c & Hc & Htr) & _).
        assert (Hin' := Hin).
        apply (callsFrom_in _ _ _ _ Hc Htr) in Hin' as (t' & tid & Hdef & Htest & Heq).
        apply definedFunctions_in in Hdef as [Ht' ->].
        unfold callLink in Heq. injection Heq as Hsrc Heq. subst t' src.
        exists s, c. repeat split; auto.
    + intros (s & c & Hs & Hf & <- & Hc & Ht & Htest). right.
      exists s. split; [apply filter_In; now split|].
      destruct (function_shape files s Hs Hf) as (_ & (c' & Hc' & Htr) & _).
      assert (c' = c) by congruence. subst c'.
      now apply (Hper s t c Hc Htr Ht).
  - split; [|split];
      unfold Builder.generateGraphFromFiles; cbn [links];
      rewrite firstPass_view; vm_compute; reflexivity.
Qed.

(** ** No derived state in a fresh graph *)




(** The builder emits Imports and Calls links only. *)
Lemma generate_structural (files : FileMap) (l : LinkData) :
  In l (links (generateGraphFromFiles files)) ->
  etype l = IMPORTS \/ etype l = CALLS.
Proof.
  unfold Builder.generateGraphFromFiles. cbn [links].
  rewrite firstPass_view. cbn [st_links st_nodes definedFunctions].
  rewrite in_app_iff, in_flat_map. intros [H|(s & _ & H)].
  - left. now apply fileLinks_imports in H.
  - right. unfold callsFrom in H.
    destruct (code s) as [c|]; [|destruct H].
    destruct (JS.truthy c); [|destruct H].
    apply in_flat_map in H as ([t tid] & _ & H).
    destruct (RegExp.test _ _); [|destruct H].
    destruct H as [<-|[]]. reflexivity.
Qed.

End WithRuntime.


(** C5 at a failing input: two files each define [f], the names of the
    files are different, and two nodes of the graph carry the id [fn-f]. *)
Lemma node_ids_repeat_for_same_name :
  NoDup (map fst Scenario.sameNameInTwoFiles) /\
  ids (nodes (Scenario.generate (Scenario.always 0.5) Scenario.sameNameInTwoFiles))
  = ["file-a.py"; "fn-f"; "file-b.py"; "fn-f"]%string /\
  ~ NoDup (ids (nodes (Scenario.generate (Scenario.always 0.5)
                         Scenario.sameNameInTwoFiles))).
Proof.
  assert (E : ids (nodes (Scenario.generate (Scenario.always 0.5)
                            Scenario.sameNameInTwoFiles))
              = ["file-a.py"; "fn-f"; "file-b.py"; "fn-f"]%string)
    by (vm_compute; reflexivity).
  split; [|split; [exact E|]].
  - repeat constructor; simpl; intuition discriminate.
  - rewrite E. intros H.
    inversion H as [|? ? _ H1]; subst.
    inversion H1 as [|? ? Hin _]; subst.
    apply Hin. simpl. tauto.
Qed.

End BuilderFacts.

(** ** Two invocations *)

Module Determinism.

Import Builder.

(** Two nodes that agree on everything but, for function nodes, on the
    three properties that are drawn from [Math.random]. *)
Definition sameButDraws (n1 n2 : NodeData) : Prop :=
  id n1 = id n2 /\ type n1 = type n2 /\ label n1 = label n2 /\
  language n1 = language n2 /\ code n1 = code n2 /\
  metadata n1 = metadata n2 /\ embedding n1 = embedding n2 /\
  isStale n1 = isStale n2 /\
  (isFunction n1 = false -> n1 = n2).

Section TwoInvocations.

Variables Math_cos Math_sin Math_floor : float -> float.
Variables random1 random2 : nat -> float.

Local Abbreviation generate1 :=
  (generateGraphFromFiles Math_cos Math_sin Math_floor random1).
Local Abbreviation generate2 :=
  (generateGraphFromFiles Math_cos Math_sin Math_floor random2).

Lemma sameButDraws_refl (n : NodeData) : sameButDraws n n.
Proof. unfold sameButDraws. tauto. Qed.

Lemma functionNodes_sameButDraws (ix iy : float) (lines : list string) :
  forall d1 d2,
    Forall2 sameButDraws
      (functionNodes Math_floor random1 ix iy lines d1)
      (functionNodes Math_floor random2 ix iy lines d2).
Proof.
  induction lines as [|l rest IH]; intros d1 d2; cbn; [constructor|].
  destruct (matchHeader l); [|apply IH].
  constructor; [|apply IH].
  unfold sameButDraws, isFunction. cbn. repeat split; discriminate.
Qed.

Lemma fileNodes_sameButDraws (totalFiles : nat) (entries : FileMap) :
  forall fileIndex d1 d2,
    Forall2 sameButDraws
      (fileNodes Math_cos Math_sin Math_floor random1 totalFiles fileIndex entries d1)
      (fileNodes Math_cos Math_sin Math_floor random2 totalFiles fileIndex entries d2).
Proof.
  induction entries as [|e rest IH]; intros fileIndex d1 d2; cbn; [constructor|].
  constructor; [apply sameButDraws_refl|].
  apply Forall2_app; [apply functionNodes_sameButDraws | apply IH].
Qed.

Lemma callsFrom_sameButDraws (defs : StringMap) (n1 n2 : NodeData) :
  sameButDraws n1 n2 -> callsFrom defs n1 = callsFrom defs n2.
Proof.
  intros (Hid & _ & Hlabel & _ & Hcode & _).
  unfold callsFrom, haystack. rewrite Hid, Hlabel, Hcode. reflexivity.
Qed.

Lemma calls_sameButDraws (defs : StringMap) (ns1 ns2 : list NodeData) :
  Forall2 sameButDraws ns1 ns2 ->
  flat_map (callsFrom defs) (filter isFunction ns1) =
  flat_map (callsFrom defs) (filter isFunction ns2).
Proof.
  induction 1 as [|n1 n2 ns1 ns2 Hn _ IH]; cbn; [reflexivity|].
  assert (Hf : isFunction n1 = isFunction n2).
  { unfold isFunction. destruct Hn as (_ & -> & _). reflexivity. }
  rewrite <- Hf. destruct (isFunction n1); cbn; [|exact IH].
  rewrite IH, (callsFrom_sameButDraws defs _ _ Hn). reflexivity.
Qed.

(** C4, as the code has it: two invocations on the same FileMap return
    the same links, and node lists that agree, position by position, on
    every property but the complexity, x and y of the function nodes,
    which come from [Math.random]. *)
Theorem generate_same_but_draws (files : FileMap) :
  links (generate1 files) = links (generate2 files) /\
  Forall2 sameButDraws (nodes (generate1 files)) (nodes (generate2 files)).
Proof.
  unfold generateGraphFromFiles. cbn [nodes links].
  rewrite !BuilderFacts.firstPass_view. cbn [st_nodes st_links definedFunctions].
  assert (H := fileNodes_sameButDraws (List.length files) files 0 0 0).
  split; [|exact H].
  f_equal. apply calls_sameButDraws, H.
Qed.

End TwoInvocations.

(** The function node of [main.py] lands at x = -20 when [Math.random]
    returns 0.25 and at x = 20 when it returns 0.75. *)
Lemma generate_depends_on_random :
  map x (nodes (Scenario.generate (Scenario.always 0.25) Scenario.mainOnly))
    = [Some 0%float; Some (-20)%float] /\
  map x (nodes (Scenario.generate (Scenario.always 0.75) Scenario.mainOnly))
    = [Some 0%float; Some 20%float] /\
  nodes (Scenario.generate (Scenario.always 0.25) Scenario.mainOnly)
    <> nodes (Scenario.generate (Scenario.always 0.75) Scenario.mainOnly).
Proof.
  assert (E1 : map x (nodes (Scenario.generate (Scenario.always 0.25) Scenario.mainOnly))
               = [Some 0%float; Some (-20)%float]) by (vm_compute; reflexivity).
  assert (E2 : map x (nodes (Scenario.generate (Scenario.always 0.75) Scenario.mainOnly))
               = [Some 0%float; Some 20%float]) by (vm_compute; reflexivity).
  split; [exact E1 | split; [exact E2 |]].
  intros H. rewrite H, E2 in E1.
  apply (f_equal (fun l => match l with
                           | [_; Some v] => PrimFloat.eqb v 20
                           | _ => false
                           end)) in E1.
  vm_compute in E1. discriminate E1.
Qed.

End Determinism.

(** ** The merge *)

Module MergeFacts.

Import Merge.

Lemma hasNode_In (ns : list NodeData) (i : string) :
  hasNode ns i = true <-> In i (ids ns).
Proof.
  unfold hasNode, ids.
  destruct (find (fun n => String.eqb (id n) i) ns) as [n|] eqn:E.
  - apply find_some in E as [Hin Heq]. apply String.eqb_eq in Heq.
    split; [intros _ | reflexivity]. subst i. now apply in_map.
  - split; [discriminate|]. intros Hin.
    apply in_map_iff in Hin as (n & <- & Hn).
    apply (find_none _ _ E) in Hn. cbn in Hn. rewrite String.eqb_refl in Hn.
    discriminate Hn.
Qed.

Lemma find_unique (ns : list NodeData) (o : NodeData) (i : string) :
  NoDup (ids ns) -> In o ns -> id o = i ->
  find (fun old => String.eqb (id old) i) ns = Some o.
Proof.
  intros Hnd Hin Hid. induction ns as [|a ns IH]; [destruct Hin|].
  cbn in *. inversion Hnd as [|? ? Ha Hns]; subst.
  destruct Hin as [->|Hin].
  - now rewrite String.eqb_refl.
  - destruct (String.eqb (id a) (id o)) eqn:E; [|now apply IH].
    apply String.eqb_eq in E. exfalso. apply Ha. rewrite E.
    now apply in_map.
Qed.


Lemma mergeNode_id (prevNodes : list NodeData) (n : NodeData) :
  id (mergeNode prevNodes n) = id n.
Proof.
  unfold mergeNode. destruct (find _ prevNodes) as [o|]; [|reflexivity].
  destruct (code_eqb (code o) (code n)); reflexivity.
Qed.

Lemma ids_merged (prevNodes ns : list NodeData) :
  ids (map (mergeNode prevNodes) ns) = ids ns.
Proof.
  unfold ids. rewrite map_map. apply map_ext. apply mergeNode_id.
Qed.


Section WithRuntime.

Variables Math_cos Math_sin Math_floor : float -> float.
Variable Math_random : nat -> float.

Local Abbreviation generateGraphFromFiles :=
  (Builder.generateGraphFromFiles Math_cos Math_sin Math_floor Math_random).


Lemma filter_filter (f g : LinkData -> bool) (l : list LinkData) :
  filter f (filter g l) = filter (fun e => g e && f e) l.
Proof.
  induction l as [|e l IH]; cbn; [reflexivity|].
  destruct (g e); cbn; [destruct (f e); now rewrite IH | exact IH].
Qed.

(** The previous Semantic links that the merge keeps. *)
Definition survives (mergedNodes : list NodeData) (l : LinkData) : bool :=
  isSemantic l && (hasNode mergedNodes (source l) && hasNode mergedNodes (target l)).

Lemma survives_iff (mergedNodes : list NodeData) (l : LinkData) :
  survives mergedNodes l = true <->
  etype l = SEMANTIC /\ In (source l) (ids mergedNodes)
  /\ In (target l) (ids mergedNodes).
Proof.
  unfold survives, isSemantic.
  rewrite !andb_true_iff, EdgeType_eqb_eq, !hasNode_In. tauto.
Qed.

(** C2: the node ids of the merged graph are the node ids of the fresh
    graph, in order; its links are the links of the fresh graph followed
    by the previous Semantic links whose source and target are both ids of
    merged nodes, in their previous order; and when the fresh graph comes
    from the builder, every Semantic link of the merged graph has both of
    its ends among the merged nodes. *)
Theorem merge_graph_shape (prevGraph : GraphData) :
  (forall newStructure,
     ids (nodes (mergeGraph prevGraph newStructure)) = ids (nodes newStructure)
     /\
     links (mergeGraph prevGraph newStructure)
       = links newStructure
         ++ filter (survives (nodes (mergeGraph prevGraph newStructure)))
                   (links prevGraph)
     /\
     (forall l,
        In l (filter (survives (nodes (mergeGraph prevGraph newStructure)))
                     (links prevGraph))
        <-> In l (links prevGraph) /\ etype l = SEMANTIC /\
            In (source l) (ids (nodes (mergeGraph prevGraph newStructure))) /\
            In (target l) (ids (nodes (mergeGraph prevGraph newStructure)))))
  /\
  (forall files l,
     In l (links (mergeGraph prevGraph (generateGraphFromFiles files))) ->
     etype l = SEMANTIC ->
     In (source l)
        (ids (nodes (mergeGraph prevGraph (generateGraphFromFiles files)))) /\
     In (target l)
        (ids (nodes (mergeGraph prevGraph (generateGraphFromFiles files))))).
Proof.
  assert (Hshape : forall newStructure,
    links (mergeGraph prevGraph newStructure)
    = links newStructure
      ++ filter (survives (nodes (mergeGraph prevGraph newStructure)))
                (links prevGraph)).
  { intros newStructure. unfold mergeGraph. cbn [links nodes].
    rewrite filter_filter. reflexivity. }
  split.
  - intros newStructure. split; [apply ids_merged|]. split; [apply Hshape|].
    intros l. rewrite filter_In, survives_iff. tauto.
  - intros files l Hin Hsem. rewrite Hshape in Hin.
    apply in_app_iff in Hin as [Hin|Hin].
    + apply BuilderFacts.generate_structural in Hin.
      destruct Hin as [H|H]; rewrite H in Hsem; discriminate Hsem.
    + apply filter_In in Hin as [_ Hin]. apply survives_iff in Hin. tauto.
Qed.

(** C3, as the code has it: [mergeNode] takes every property but
    [embedding] and [isStale] from the fresh node, the position among
    them, whether or not a previous node matches; from a previous node
    with the same id and the same code it takes [embedding] and [isStale],
    and nothing else. *)
Theorem merge_takes_fresh_position (prevNodes : list NodeData) (n : NodeData) :
  x (mergeNode prevNodes n) = x n /\
  y (mergeNode prevNodes n) = y n /\
  id (mergeNode prevNodes n) = id n /\
  type (mergeNode prevNodes n) = type n /\
  label (mergeNode prevNodes n) = label n /\
  language (mergeNode prevNodes n) = language n /\
  code (mergeNode prevNodes n) = code n /\
  metadata (mergeNode prevNodes n) = metadata n /\
  complexity (mergeNode prevNodes n) = complexity n /\
  (forall o,
      find (fun old => String.eqb (id old) (id n)) prevNodes = Some o ->
      code o = code n ->
      mergeNode prevNodes n = withState n (embedding o) (isStale o)).
Proof.
  unfold mergeNode. destruct (find _ prevNodes) as [o|].
  - destruct (code_eqb (code o) (code n)) eqn:E; cbn; repeat split.
    + intros o' Ho' _. now injection Ho' as <-.
    + intros o' Ho' Hc. injection Ho' as <-.
      apply code_eqb_eq in Hc. congruence.
  - cbn. repeat split. discriminate.
Qed.

End WithRuntime.

Lemma merge_graph_shape_witness :
  In Scenario.linkFG
     (links (mergeGraph Scenario.embeddedFG
               (Scenario.generate (Scenario.always 0.5) Scenario.mainFG))) /\
  etype Scenario.linkFG = SEMANTIC /\
  In (source Scenario.linkFG)
     (ids (nodes (mergeGraph Scenario.embeddedFG
                    (Scenario.generate (Scenario.always 0.5) Scenario.mainFG)))) /\
  In (target Scenario.linkFG)
     (ids (nodes (mergeGraph Scenario.embeddedFG
                    (Scenario.generate (Scenario.always 0.5) Scenario.mainFG)))).
Proof.
  assert (Hin : In Scenario.linkFG
     (links (mergeGraph Scenario.embeddedFG
               (Scenario.generate (Scenario.always 0.5) Scenario.mainFG))))
    by (right; right; right; left; vm_compute; reflexivity).
  split; [exact Hin|]. split; [reflexivity|].
  exact (proj2 (merge_graph_shape Scenario.hostCos Scenario.hostSin Scenario.hostFloor
                  (Scenario.always 0.5) Scenario.embeddedFG)
           Scenario.mainFG Scenario.linkFG Hin eq_refl).
Defined.



(** After a first load of [main.py], a rebuild of the same FileMap finds
    [fn-f] with the same code, and the merged node stands at x = 20, the
    seat just drawn, not at x = -20, where the previous node stood. *)
Lemma merge_drops_previous_position :
  exists o,
    find (fun old => String.eqb (id old) (id Scenario.rebuiltF))
         (nodes Scenario.firstLoad) = Some o /\
    In Scenario.rebuiltF
       (nodes (Scenario.generate (Scenario.always 0.75) Scenario.mainOnly)) /\
    code o = code Scenario.rebuiltF /\
    x o = Some (-20)%float /\
    x (mergeNode (nodes Scenario.firstLoad) Scenario.rebuiltF) = Some 20%float.
Proof.
  eexists. split; [reflexivity|].
  split; [right; left; reflexivity|].
  split; [reflexivity|]. split; vm_compute; reflexivity.
Qed.

(** Scenario E: the file of [embeddedFG] is saved without [g]; the rebuild
    has no node [fn-g], no Calls link to it, and the Semantic link that
    touched it is gone. *)
Lemma deletion_prunes_semantic_link :
  In Scenario.linkFG (links Scenario.embeddedFG) /\
  ids (nodes (mergeGraph Scenario.embeddedFG
                (Scenario.generate (Scenario.always 0.5) Scenario.mainOnly)))
    = ["file-main.py"; "fn-f"]%string /\
  links (mergeGraph Scenario.embeddedFG
           (Scenario.generate (Scenario.always 0.5) Scenario.mainOnly))
    = [Builder.importLink "file-main.py" "f"].
Proof.
  split; [right; right; right; left; vm_compute; reflexivity|].
  split; vm_compute; reflexivity.
Qed.

End MergeFacts.

(** ** The semantic pass *)

Module SemanticFacts.

Import Semantic.
Local Open Scope float_scope.

(** *** cosineSimilarity *)

(** The guard of [cosineSimilarity] is on the product of the magnitudes. *)
Lemma cosineSimilarity_guard (vecA vecB : list float) :
  ((magnitude vecA * magnitude vecB =? 0) = true ->
   cosineSimilarity vecA vecB = 0) /\
  ((magnitude vecA * magnitude vecB =? 0) = false ->
   cosineSimilarity vecA vecB
   = dotProduct vecA vecB / (magnitude vecA * magnitude vecB)).
Proof.
  unfold cosineSimilarity.
  destruct (magnitude vecA * magnitude vecB =? 0); split; congruence.
Qed.

(** C8 at the failing input: the zero vector [0] against [2^600].  The
    magnitude of the first is 0, the square of 2^600 overflows, so the
    magnitude of the second is infinite; 0 times infinity is NaN, which is
    not [=== 0], and the quotient returned is NaN. *)
Theorem cosineSimilarity_zero_against_huge :
  magnitude [0] = 0 /\
  magnitude Scenario.huge = infinity /\
  (magnitude [0] * magnitude Scenario.huge =? 0) = false /\
  is_nan (cosineSimilarity [0] Scenario.huge) = true /\
  (cosineSimilarity [0] Scenario.huge =? 0) = false.
Proof. repeat split; vm_compute; reflexivity. Qed.

(** *** What the guard covers

    In binary64 a zero times a finite number is a zero, so the guard
    returns 0 when one magnitude is zero and the other is finite. *)

Lemma eqb_zero_inv (z : float) :
  (z =? 0) = true -> exists s, Prim2SF z = S754_zero s.
Proof.
  rewrite eqb_spec. change (Prim2SF 0) with (S754_zero false).
  destruct (Prim2SF z) as [s| s | |s m e]; cbn; try discriminate.
  - eauto.
  - destruct s; discriminate.
  - destruct s; discriminate.
Qed.

Lemma is_finite_inv (m : float) :
  is_finite m = true ->
  (exists s, Prim2SF m = S754_zero s) \/ (exists s p e, Prim2SF m = S754_finite s p e).
Proof.
  unfold is_finite, is_nan, is_infinity.
  rewrite negb_true_iff, orb_false_iff, negb_false_iff.
  rewrite !eqb_spec, abs_spec. change (Prim2SF infinity) with (S754_infinity false).
  destruct (Prim2SF m) as [s| s | |s p e]; cbn; intros [H1 H2]; try discriminate; eauto 6.
Qed.

Lemma mul_zero_finite (z m : float) :
  (z =? 0) = true -> is_finite m = true ->
  (z * m =? 0) = true /\ (m * z =? 0) = true.
Proof.
  intros Hz Hm. apply eqb_zero_inv in Hz as [sz Hz].
  rewrite !eqb_spec, !mul_spec, Hz. change (Prim2SF 0) with (S754_zero false).
  apply is_finite_inv in Hm as [[s ->]|(s & p & e & ->)]; split; reflexivity.
Qed.

(** The guard returns 0 when one magnitude is zero and the other is
    finite, whichever of the two vectors it is. *)
Lemma cosineSimilarity_zero_magnitude (vecA vecB : list float) :
  ((magnitude vecA =? 0) = true -> is_finite (magnitude vecB) = true ->
   cosineSimilarity vecA vecB = 0) /\
  ((magnitude vecB =? 0) = true -> is_finite (magnitude vecA) = true ->
   cosineSimilarity vecA vecB = 0).
Proof.
  split; intros Hz Hf; apply cosineSimilarity_guard;
    now apply (mul_zero_finite _ _ Hz Hf).
Qed.

(** *** The links of a pass *)

Definition semanticLink (a b : NodeData) : LinkData :=
  {| source := id a; target := id b; etype := SEMANTIC;
     weight := Some (cosineSimilarity (embeddingOf a) (embeddingOf b)) |}.

Definition similar (a b : NodeData) : bool :=
  threshold <? cosineSimilarity (embeddingOf a) (embeddingOf b).

Lemma linksFrom_in (a : NodeData) (rest : list NodeData) (l : LinkData) :
  In l (linksFrom a rest) <->
  exists j b, nth_error rest j = Some b /\ similar a b = true /\ l = semanticLink a b.
Proof.
  induction rest as [|b rest IH]; cbn [linksFrom].
  - split; [intros [] | intros ([|j] & b & H & _); discriminate H].
  - rewrite in_app_iff, IH. fold (similar a b). fold (semanticLink a b). split.
    + intros [H|(j & b' & Hj & Hs & ->)].
      * destruct (similar a b) eqn:E; [|destruct H].
        destruct H as [<-|[]]. exists 0%nat, b. auto.
      * exists (S j), b'. auto.
    + intros ([|j] & b' & Hj & Hs & ->); cbn in Hj.
      * injection Hj as ->. left. rewrite Hs. now left.
      * right. eauto.
Qed.

Lemma semanticLinks_in (funcNodes : list NodeData) (l : LinkData) :
  In l (semanticLinks funcNodes) <->
  exists i j a b,
    (i < j)%nat /\ nth_error funcNodes i = Some a /\ nth_error funcNodes j = Some b /\
    similar a b = true /\ l = semanticLink a b.
Proof.
  induction funcNodes as [|a rest IH]; cbn [semanticLinks].
  - split; [intros [] | intros ([|i] & j & a & b & _ & H & _); discriminate H].
  - rewrite in_app_iff, IH, linksFrom_in. split.
    + intros [(j & b & Hj & Hs & ->)|(i & j & a' & b & Hlt & Hi & Hj & Hs & ->)].
      * exists 0%nat, (S j), a, b. repeat split; auto. lia.
      * exists (S i), (S j), a', b. repeat split; auto. lia.
    + intros (i & j & a' & b & Hlt & Hi & Hj & Hs & ->).
      destruct j as [|j]; [lia|]. destruct i as [|i]; cbn in Hi, Hj.
      * injection Hi as ->. left. eauto.
      * right. exists i, j, a', b. repeat split; auto. lia.
Qed.

Lemma semanticLinks_semantic (funcNodes : list NodeData) :
  filter Merge.isSemantic (semanticLinks funcNodes) = semanticLinks funcNodes /\
  filter (fun l => negb (Merge.isSemantic l)) (semanticLinks funcNodes) = [].
Proof.
  assert (H : Forall (fun l => Merge.isSemantic l = true) (semanticLinks funcNodes)).
  { apply Forall_forall. intros l Hl.
    apply semanticLinks_in in Hl as (i & j & a & b & _ & _ & _ & _ & ->).
    reflexivity. }
  induction H as [|l ls Hl _ [IH1 IH2]]; cbn; [now split|].
  rewrite Hl. cbn. now rewrite IH1, IH2.
Qed.

Lemma filter_idem (f : LinkData -> bool) (ls : list LinkData) :
  filter f (filter f ls) = filter f ls.
Proof.
  induction ls as [|l ls IH]; cbn; [reflexivity|].
  destruct (f l) eqn:E; cbn; [rewrite E, IH; reflexivity | exact IH].
Qed.

Lemma filter_none (f : LinkData -> bool) (ls : list LinkData) :
  filter f (filter (fun l => negb (f l)) ls) = [].
Proof.
  induction ls as [|l ls IH]; cbn; [reflexivity|].
  destruct (f l) eqn:E; cbn; [exact IH | rewrite E; exact IH].
Qed.

(** *** The replies of a pass *)

(** The embedding that request [k] obtains, if it obtains one. *)
Definition obtained (callEmbedding : Embedder) (nodesToUpdate : list NodeData)
    (k : nat) : option (NodeData * list float) :=
  match nth_error nodesToUpdate k with
  | Some node =>
      match callEmbedding k (contentToEmbed node) with
      | Resolved (Some e) => Some (node, e)
      | _ => None
      end
  | None => None
  end.

(** [{ ...n, embedding, isStale: false }] *)
Definition embed (e : list float) (n : NodeData) : NodeData :=
  Merge.withState n (Some e) (Some false).

(** One step of [settleAll]. *)
Definition step (callEmbedding : Embedder) (nodesToUpdate : list NodeData)
    (st : list NodeData * bool) (k : nat) : list NodeData * bool :=
  match nth_error nodesToUpdate k with
  | Some node => settle node (callEmbedding k (contentToEmbed node)) st
  | None => st
  end.

Lemma settleAll_cons (callEmbedding : Embedder) (U : list NodeData) (k : nat)
    (order : list nat) (st : list NodeData * bool) :
  settleAll callEmbedding U (k :: order) st
  = settleAll callEmbedding U order (step callEmbedding U st k).
Proof. reflexivity. Qed.

Lemma step_obtained (callEmbedding : Embedder) (U : list NodeData)
    (st : list NodeData * bool) (k : nat) :
  step callEmbedding U st k =
  match obtained callEmbedding U k with
  | Some (node, e) =>
      match findIndex (fun n => String.eqb (id n) (id node)) (fst st) with
      | Some idx => (updateAt idx (embed e) (fst st), true)
      | None => st
      end
  | None => st
  end.
Proof.
  unfold step, obtained. destruct (nth_error U k) as [node|]; [|reflexivity].
  destruct st as [ns u]. cbn [settle fst].
  destruct (callEmbedding k (contentToEmbed node)) as [[e|]|]; reflexivity.
Qed.

Lemma embed_id (e : list float) (n : NodeData) : id (embed e n) = id n.
Proof. reflexivity. Qed.

Lemma updateAt_ids (idx : nat) (e : list float) (ns : list NodeData) :
  ids (updateAt idx (embed e) ns) = ids ns.
Proof.
  revert idx. induction ns as [|n ns IH]; intros [|idx]; cbn; try reflexivity.
  f_equal. apply IH.
Qed.

Lemma findIndex_some (i : string) (ns : list NodeData) :
  In i (ids ns) ->
  exists idx, findIndex (fun n => String.eqb (id n) i) ns = Some idx.
Proof.
  induction ns as [|n ns IH]; cbn; [intros []|]. intros [<-|Hin].
  - rewrite String.eqb_refl. eauto.
  - destruct (String.eqb (id n) i); [eauto|].
    destruct (IH Hin) as [idx ->]. eauto.
Qed.

Section Pass.

Variable callEmbedding : Embedder.
Variable U : list NodeData.

Local Abbreviation step := (step callEmbedding U).
Local Abbreviation settleAll := (settleAll callEmbedding U).
Local Abbreviation obtained := (obtained callEmbedding U).

Lemma step_ids (st : list NodeData * bool) (k : nat) :
  ids (fst (step st k)) = ids (fst st).
Proof.
  rewrite step_obtained. destruct (obtained k) as [[node e]|]; [|reflexivity].
  destruct (findIndex _ (fst st)); [apply updateAt_ids | reflexivity].
Qed.

Lemma settleAll_ids (order : list nat) :
  forall st, ids (fst (settleAll order st)) = ids (fst st).
Proof.
  induction order as [|k order IH]; intros st; [reflexivity|].
  rewrite settleAll_cons, IH. apply step_ids.
Qed.

Lemma step_updated (st : list NodeData * bool) (k : nat) :
  snd st = true -> snd (step st k) = true.
Proof.
  intros H. rewrite step_obtained. destruct (obtained k) as [[node e]|]; [|exact H].
  destruct (findIndex _ (fst st)); [reflexivity | exact H].
Qed.

Lemma settleAll_stays_updated (order : list nat) :
  forall st, snd st = true -> snd (settleAll order st) = true.
Proof.
  induction order as [|k order IH]; intros st H; [exact H|].
  rewrite settleAll_cons. apply IH, step_updated, H.
Qed.

(** Without a reply that carries an embedding nothing is written. *)
Lemma settleAll_nothing_obtained (order : list nat) :
  (forall k, In k order -> obtained k = None) ->
  forall st, settleAll order st = st.
Proof.
  induction order as [|k order IH]; intros Hnone st; [reflexivity|].
  rewrite settleAll_cons, step_obtained, (Hnone k (or_introl eq_refl)).
  apply IH. intros k' Hk'. apply Hnone. now right.
Qed.

(** A reply that carries an embedding sets [updated]. *)
Lemma settleAll_updated (order : list nat) :
  forall st,
    (forall n, In n U -> In (id n) (ids (fst st))) ->
    (exists k node e, In k order /\ obtained k = Some (node, e)) ->
    snd (settleAll order st) = true.
Proof.
  induction order as [|k order IH]; intros st Hids (k' & node & e & Hin & Hk').
  - destruct Hin.
  - rewrite settleAll_cons.
    destruct (obtained k) as [[node0 e0]|] eqn:Ek.
    + apply settleAll_stays_updated. rewrite step_obtained, Ek.
      assert (Hn0 : In node0 U).
      { unfold SemanticFacts.obtained in Ek.
        destruct (nth_error U k) as [n|] eqn:En; [|discriminate].
        destruct (callEmbedding k (contentToEmbed n)) as [[e1|]|]; try discriminate.
        injection Ek as <- _. eapply nth_error_In, En. }
      destruct (findIndex_some _ _ (Hids _ Hn0)) as [idx ->]. reflexivity.
    + apply IH.
      * intros n Hn. rewrite step_ids. now apply Hids.
      * destruct Hin as [<-|Hin]; [congruence|]. eauto 6.
Qed.

End Pass.

Lemma needsUpdate_iff (n : NodeData) :
  needsUpdate n = true <->
  type n = FUNCTION /\ language n = Some python /\
  (exists c, code n = Some c /\ c <> EmptyString) /\
  (embedding n = None \/ isStale n = Some true).
Proof.
  unfold needsUpdate, hasEmbedding, stale, JS.truthy.
  rewrite !andb_true_iff, orb_true_iff, NodeType_eqb_eq.
  destruct (language n) as [[]|], (code n) as [c|], (embedding n) as [v|],
           (isStale n) as [[]|]; cbn;
    try destruct (String.eqb_spec c EmptyString);
    intuition (try discriminate; try congruence; eauto);
    try (match goal with H : exists _, _ |- _ => destruct H as (? & ? & ?) end;
         congruence).
Qed.

(** The links that a pass stores.  In a pass in which a reply carries an
    embedding, the handler stores a graph whose links are the links of the
    snapshot that are not Semantic, in their order, followed by the
    Semantic links computed anew from the stored nodes. *)
Lemma pass_stores_links (callEmbedding : Embedder) (order : list nat)
    (graphData : GraphData) :
  (exists k node e,
      In k order /\
      nth_error (filter needsUpdate (nodes graphData)) k = Some node /\
      callEmbedding k (contentToEmbed node) = Resolved (Some e)) ->
  exists g',
    handleRecalculateSemanticGraph callEmbedding order graphData = Some g' /\
    links g' = filter (fun l => negb (Merge.isSemantic l)) (links graphData)
               ++ semanticLinks (filter hasEmbedding (nodes g')) /\
    (forall l,
        In l (links g') /\ etype l = SEMANTIC <->
        exists i j a b ea eb,
          (i < j)%nat /\
          nth_error (filter hasEmbedding (nodes g')) i = Some a /\
          nth_error (filter hasEmbedding (nodes g')) j = Some b /\
          embedding a = Some ea /\ embedding b = Some eb /\
          (0.75 <? cosineSimilarity ea eb) = true /\
          l = {| source := id a; target := id b; etype := SEMANTIC;
                 weight := Some (cosineSimilarity ea eb) |}) /\
    filter (fun l => negb (Merge.isSemantic l)) (links g')
      = filter (fun l => negb (Merge.isSemantic l)) (links graphData) /\
    filter Merge.isSemantic (links g')
      = semanticLinks (filter hasEmbedding (nodes g')) /\
    (forall a b,
        cosineSimilarity (embeddingOf a) (embeddingOf b) = 0.75 ->
        semanticLinks [a; b] = []).
Proof.
  intros (k & node & e & Hk & Hnode & Hreply).
  unfold handleRecalculateSemanticGraph.
  set (U := filter needsUpdate (nodes graphData)) in *.
  destruct (Nat.eqb (List.length U) 0) eqn:Elen.
  { apply Nat.eqb_eq in Elen. destruct U; [|discriminate].
    destruct k; discriminate Hnode. }
  assert (Hupd : snd (settleAll callEmbedding U order (nodes graphData, false)) = true).
  { apply settleAll_updated.
    - intros n Hn. cbn [fst]. apply in_map.
      subst U. now apply filter_In in Hn.
    - exists k, node, e. split; [exact Hk|].
      unfold obtained. now rewrite Hnode, Hreply. }
  destruct (settleAll callEmbedding U order (nodes graphData, false))
    as [newNodes updated].
  cbn [snd] in Hupd. subst updated. eexists. split; [reflexivity|].
  cbn [links nodes]. set (F := filter hasEmbedding newNodes).
  destruct (semanticLinks_semantic F) as [Hsem Hnot].
  split; [reflexivity|]. split; [|split; [|split]].
  - intros l. rewrite in_app_iff, semanticLinks_in. split.
    + intros [[Hin|(i & j & a & b & Hlt & Hi & Hj & Hs & ->)] Hty].
      * apply filter_In in Hin as [_ Hin]. unfold Merge.isSemantic in Hin.
        rewrite Hty in Hin. discriminate Hin.
      * assert (Ha : hasEmbedding a = true).
        { apply nth_error_In in Hi. now apply filter_In in Hi. }
        assert (Hb : hasEmbedding b = true).
        { apply nth_error_In in Hj. now apply filter_In in Hj. }
        unfold hasEmbedding in Ha, Hb. unfold similar, semanticLink, embeddingOf in *.
        destruct (embedding a) as [ea|] eqn:Ea; [|discriminate].
        destruct (embedding b) as [eb|] eqn:Eb; [|discriminate].
        exists i, j, a, b, ea, eb. repeat split; auto.
    + intros (i & j & a & b & ea & eb & Hlt & Hi & Hj & Hea & Heb & Hs & ->).
      split; [|reflexivity]. right. exists i, j, a, b.
      unfold similar, semanticLink, embeddingOf. rewrite Hea, Heb.
      repeat split; auto.
  - rewrite filter_app, Hnot, app_nil_r. apply filter_idem.
  - rewrite filter_app, Hsem, filter_none. reflexivity.
  - intros a b Hcos. cbn. rewrite Hcos. reflexivity.
Qed.

(** C10: a node is selected for the pass exactly when it is a function
    node of language python with a non-empty code and no embedding or a
    stale one.  If no node is selected, or if no reply of the pass carries an
    embedding, the handler does not call [setGraphData], and the stored graph
    is the one it was. *)
Theorem pass_leaves_graph_alone (callEmbedding : Embedder) (order : list nat)
    (graphData : GraphData) :
  (forall n,
      needsUpdate n = true <->
      type n = FUNCTION /\ language n = Some python /\
      (exists c, code n = Some c /\ c <> EmptyString) /\
      (embedding n = None \/ isStale n = Some true)) /\
  ((forall n, In n (nodes graphData) -> needsUpdate n = false) ->
   handleRecalculateSemanticGraph callEmbedding order graphData = None /\
   storedAfter callEmbedding order graphData = graphData) /\
  ((forall k node e,
       In k order ->
       nth_error (filter needsUpdate (nodes graphData)) k = Some node ->
       callEmbedding k (contentToEmbed node) <> Resolved (Some e)) ->
   handleRecalculateSemanticGraph callEmbedding order graphData = None /\
   storedAfter callEmbedding order graphData = graphData).
Proof.
  split; [apply needsUpdate_iff|].
  assert (Hstored :
    handleRecalculateSemanticGraph callEmbedding order graphData = None ->
    handleRecalculateSemanticGraph callEmbedding order graphData = None /\
    storedAfter callEmbedding order graphData = graphData).
  { intros H. split; [exact H|]. unfold storedAfter. now rewrite H. }
  split; intros H; apply Hstored; unfold handleRecalculateSemanticGraph.
  - assert (E : filter needsUpdate (nodes graphData) = []).
    { induction (nodes graphData) as [|n ns IH]; [reflexivity|].
      cbn. rewrite (H n (or_introl eq_refl)). apply IH.
      intros m Hm. apply H. now right. }
    rewrite E. reflexivity.
  - destruct (Nat.eqb _ 0); [reflexivity|].
    rewrite settleAll_nothing_obtained; [reflexivity|].
    intros k Hk. unfold obtained.
    destruct (nth_error _ k) as [node|] eqn:En; [|reflexivity].
    specialize (H k node).
    destruct (callEmbedding k (contentToEmbed node)) as [[e|]|]; try reflexivity.
    exfalso. exact (H e Hk En eq_refl).
Qed.

(** *** The nodes after a pass, looked up by id *)

(** [ns.find(n => n.id === i)] *)
Definition lookup (i : string) (ns : list NodeData) : option NodeData :=
  find (fun n => String.eqb (id n) i) ns.

Lemma lookup_updateAt_same (i : string) (e : list float) (ns : list NodeData) :
  forall idx,
    findIndex (fun n => String.eqb (id n) i) ns = Some idx ->
    lookup i (updateAt idx (embed e) ns) = option_map (embed e) (lookup i ns).
Proof.
  unfold lookup. induction ns as [|n ns IH]; intros idx H; cbn in *; [discriminate|].
  destruct (String.eqb (id n) i) eqn:E.
  - injection H as <-. cbn. rewrite E. reflexivity.
  - destruct (findIndex _ ns) as [idx'|]; [|discriminate].
    injection H as <-. cbn. rewrite E. now apply IH.
Qed.

Lemma lookup_updateAt_other (i i' : string) (e : list float) (ns : list NodeData) :
  i <> i' ->
  forall idx,
    findIndex (fun n => String.eqb (id n) i') ns = Some idx ->
    lookup i (updateAt idx (embed e) ns) = lookup i ns.
Proof.
  intros Hne. unfold lookup.
  induction ns as [|n ns IH]; intros idx H; cbn in *; [discriminate|].
  destruct (String.eqb (id n) i') eqn:E.
  - injection H as <-. cbn. apply String.eqb_eq in E.
    destruct (String.eqb_spec (id n) i); [congruence | reflexivity].
  - destruct (findIndex _ ns) as [idx'|]; [|discriminate].
    injection H as <-. cbn.
    destruct (String.eqb (id n) i); [reflexivity | now apply IH].
Qed.

Lemma findIndex_none (i : string) (ns : list NodeData) :
  findIndex (fun n => String.eqb (id n) i) ns = None -> lookup i ns = None.
Proof.
  unfold lookup. induction ns as [|n ns IH]; cbn; [reflexivity|].
  destruct (String.eqb (id n) i); [discriminate|].
  destruct (findIndex _ ns); [discriminate | auto].
Qed.

Lemma embed_embed (e e' : list float) (v : option NodeData) :
  option_map (embed e') (option_map (embed e) v) = option_map (embed e') v.
Proof. destruct v; reflexivity. Qed.

Section Lookup.

Variable callEmbedding : Embedder.
Variable U : list NodeData.
Variable i : string.

Local Abbreviation step := (step callEmbedding U).
Local Abbreviation settleAll := (settleAll callEmbedding U).
Local Abbreviation obtained := (obtained callEmbedding U).

(** The embedding that request [k] writes to the node found under [i]. *)
Definition hit (k : nat) : option (list float) :=
  match obtained k with
  | Some (node, e) => if String.eqb (id node) i then Some e else None
  | None => None
  end.

(** The last embedding written to the node found under [i]. *)
Fixpoint lastHit (order : list nat) : option (list float) :=
  match order with
  | [] => None
  | k :: rest =>
      match lastHit rest with
      | Some e => Some e
      | None => hit k
      end
  end.

Definition written (e : option (list float)) (v : option NodeData) : option NodeData :=
  match e with
  | Some e => option_map (embed e) v
  | None => v
  end.

Lemma lookup_step (st : list NodeData * bool) (k : nat) :
  lookup i (fst (step st k)) = written (hit k) (lookup i (fst st)).
Proof.
  rewrite step_obtained. unfold hit.
  destruct (obtained k) as [[node e]|]; [|reflexivity].
  destruct (String.eqb_spec (id node) i) as [->|Hne].
  - destruct (findIndex _ (fst st)) as [idx|] eqn:E; cbn.
    + now apply lookup_updateAt_same.
    + now rewrite (findIndex_none _ _ E).
  - destruct (findIndex _ (fst st)) as [idx|] eqn:E; cbn; [|reflexivity].
    apply (lookup_updateAt_other i (id node)); [congruence | exact E].
Qed.

Lemma lookup_settleAll (order : list nat) :
  forall st,
    lookup i (fst (settleAll order st)) = written (lastHit order) (lookup i (fst st)).
Proof.
  induction order as [|k order IH]; intros st; [reflexivity|].
  rewrite settleAll_cons, IH, lookup_step. cbn [lastHit].
  destruct (lastHit order) as [e'|]; [|reflexivity].
  destruct (hit k) as [e|]; cbn; [apply embed_embed | reflexivity].
Qed.

Lemma lastHit_none (order : list nat) :
  (forall k, In k order -> hit k = None) -> lastHit order = None.
Proof.
  induction order as [|k order IH]; intros H; [reflexivity|].
  cbn. rewrite IH by (intros k' Hk'; apply H; now right).
  apply H. now left.
Qed.

(** If only request [k] can write under [i], what is written last is what
    [k] writes. *)
Lemma lastHit_only (k : nat) (order : list nat) :
  In k order ->
  (forall k', In k' order -> k' <> k -> hit k' = None) ->
  lastHit order = hit k.
Proof.
  induction order as [|k0 order IH]; intros Hin Hothers; [destruct Hin|].
  cbn [lastHit].
  assert (Hrest : forall k', In k' order -> k' <> k -> hit k' = None)
    by (intros k' Hk'; apply Hothers; now right).
  destruct (in_dec Nat.eq_dec k order) as [Hk|Hk].
  - rewrite (IH Hk Hrest). destruct (hit k) as [e|] eqn:E; [reflexivity|].
    destruct (Nat.eq_dec k0 k) as [->|Hne]; [exact E|].
    apply Hothers; [now left | exact Hne].
  - destruct Hin as [->|Hin]; [|contradiction].
    rewrite lastHit_none; [reflexivity|].
    intros k' Hk'. apply Hrest; [exact Hk'|]. intros ->. contradiction.
Qed.

End Lookup.

(** *** The stored nodes *)

Lemma settleAll_not_updated (callEmbedding : Embedder) (U : list NodeData)
    (order : list nat) :
  forall st,
    snd (settleAll callEmbedding U order st) = false ->
    settleAll callEmbedding U order st = st.
Proof.
  induction order as [|k order IH]; intros st H; [reflexivity|].
  rewrite settleAll_cons in *.
  assert (Hstep : step callEmbedding U st k = st \/
                  snd (step callEmbedding U st k) = true).
  { rewrite step_obtained.
    destruct (obtained callEmbedding U k) as [[node e]|]; [|now left].
    destruct (findIndex _ (fst st)); [now right | now left]. }
  destruct Hstep as [E|E].
  - rewrite E in *. now apply IH.
  - rewrite (settleAll_stays_updated callEmbedding U order _ E) in H.
    discriminate H.
Qed.

(** The stored nodes after the handler are the nodes that the replies
    have left, whether or not [setGraphData] was called. *)
Lemma storedAfter_nodes (callEmbedding : Embedder) (order : list nat)
    (graphData : GraphData) :
  nodes (storedAfter callEmbedding order graphData)
  = fst (settleAll callEmbedding (filter needsUpdate (nodes graphData)) order
           (nodes graphData, false)).
Proof.
  unfold storedAfter, handleRecalculateSemanticGraph.
  set (U := filter needsUpdate (nodes graphData)).
  destruct (Nat.eqb (List.length U) 0) eqn:Elen.
  - apply Nat.eqb_eq in Elen. destruct U; [|discriminate].
    rewrite settleAll_nothing_obtained; [reflexivity|].
    intros k _. unfold obtained. now destruct k.
  - destruct (settleAll callEmbedding U order (nodes graphData, false))
      as [newNodes updated] eqn:E.
    destruct updated; [reflexivity|].
    assert (H := settleAll_not_updated callEmbedding U order (nodes graphData, false)).
    rewrite E in H. specialize (H eq_refl). now injection H as ->.
Qed.

Lemma NoDup_ids_filter (f : NodeData -> bool) (ns : list NodeData) :
  NoDup (ids ns) -> NoDup (ids (filter f ns)).
Proof.
  unfold ids. induction ns as [|n ns IH]; cbn; intros H; [constructor|].
  inversion H as [|? ? Hn Hns]; subst.
  destruct (f n); [|auto]. cbn. constructor; [|auto].
  intros Hin. apply Hn. apply in_map_iff in Hin as (m & Hm & Hin).
  apply filter_In in Hin as [Hin _]. rewrite <- Hm. now apply in_map.
Qed.

(** With unique ids, the node of a request is found under no other id. *)
Lemma same_id_same_request (U : list NodeData) (k k' : nat) (n n' : NodeData) :
  NoDup (ids U) ->
  nth_error U k = Some n -> nth_error U k' = Some n' -> id n' = id n -> k' = k.
Proof.
  intros Hnd Hk Hk' Hid.
  apply (proj1 (NoDup_nth_error (ids U)) Hnd).
  - unfold ids. rewrite length_map. apply nth_error_Some. congruence.
  - unfold ids. rewrite !nth_error_map, Hk, Hk'. cbn. now rewrite Hid.
Qed.

Lemma obtained_inv (callEmbedding : Embedder) (U : list NodeData) (k : nat)
    (node : NodeData) (e : list float) :
  obtained callEmbedding U k = Some (node, e) ->
  nth_error U k = Some node /\
  callEmbedding k (contentToEmbed node) = Resolved (Some e).
Proof.
  unfold obtained. destruct (nth_error U k) as [n|]; [|discriminate].
  destruct (callEmbedding k (contentToEmbed n)) as [[e'|]|] eqn:E; try discriminate.
  intros H. injection H as <- <-. now split.
Qed.

(** The handler asks the embedder about the texts [contentToEmbed] only. *)
Lemma settleAll_ext (embedder1 embedder2 : Embedder) (U : list NodeData)
    (order : list nat) :
  (forall k node, nth_error U k = Some node ->
                  embedder1 k (contentToEmbed node) = embedder2 k (contentToEmbed node)) ->
  forall st, settleAll embedder1 U order st = settleAll embedder2 U order st.
Proof.
  intros Hext. induction order as [|k order IH]; intros st; [reflexivity|].
  rewrite !settleAll_cons, IH. f_equal. unfold step.
  destruct (nth_error U k) as [node|] eqn:E; [|reflexivity].
  now rewrite (Hext k node E).
Qed.

Lemma contentToEmbed_cases (node : NodeData) :
  contentToEmbed node =
  if JS.truthy (cleanCodeForEmbedding (codeOr node EmptyString))
  then cleanCodeForEmbedding (codeOr node EmptyString)
  else match code node with
       | Some c => if JS.truthy c then c else label node
       | None => label node
       end.
Proof.
  unfold contentToEmbed, orElseString, codeOr.
  destruct (code node) as [c|]; reflexivity.
Qed.

(** C9, as the code has it: the text sent for a node is its cleaned code
    if that is not empty, else its code if that is not empty, else its
    label, and the outcome of the handler depends on the embedder through
    its replies to these texts only.  In a graph with unique node ids (a
    reply is written to the first node that carries the id), for the node of
    request [k], whatever the other replies are: if its reply carries an
    embedding, the stored node has this embedding and is not stale; if the
    request is rejected or its reply carries [null], the stored node is the
    node as it was, with its previous embedding and staleness, and it is
    still selected by the next pass. *)
Theorem embedding_failures_are_isolated (callEmbedding : Embedder)
    (order : list nat) (graphData : GraphData) (k : nat) (node : NodeData) :
  NoDup (ids (nodes graphData)) ->
  nth_error (filter needsUpdate (nodes graphData)) k = Some node ->
  In k order ->
  contentToEmbed node
    = (if JS.truthy (cleanCodeForEmbedding (codeOr node EmptyString))
       then cleanCodeForEmbedding (codeOr node EmptyString)
       else match code node with
            | Some c => if JS.truthy c then c else label node
            | None => label node
            end)
  /\
  (forall other : Embedder,
      (forall k' node',
          nth_error (filter needsUpdate (nodes graphData)) k' = Some node' ->
          other k' (contentToEmbed node') = callEmbedding k' (contentToEmbed node')) ->
      storedAfter other order graphData = storedAfter callEmbedding order graphData)
  /\
  (forall e,
      callEmbedding k (contentToEmbed node) = Resolved (Some e) ->
      find (fun n => String.eqb (id n) (id node))
           (nodes (storedAfter callEmbedding order graphData))
      = Some (Merge.withState node (Some e) (Some false)))
  /\
  (callEmbedding k (contentToEmbed node) = Rejected \/
   callEmbedding k (contentToEmbed node) = Resolved None ->
   find (fun n => String.eqb (id n) (id node))
        (nodes (storedAfter callEmbedding order graphData))
   = Some node /\
   needsUpdate node = true)
  /\
  ids (nodes (storedAfter callEmbedding order graphData)) = ids (nodes graphData).
Proof.
  intros Hnd Hk Hin.
  set (U := filter needsUpdate (nodes graphData)) in *.
  assert (HnodeU : In node U) by (eapply nth_error_In; eauto).
  assert (Hnode : In node (nodes graphData) /\ needsUpdate node = true)
    by (apply filter_In; exact HnodeU).
  assert (Hlook : lookup (id node) (nodes graphData) = Some node)
    by (apply MergeFacts.find_unique; tauto).
  assert (Hothers : forall k', In k' order -> k' <> k ->
                               hit callEmbedding U (id node) k' = None).
  { intros k' _ Hne. unfold hit.
    destruct (obtained callEmbedding U k') as [[n' e']|] eqn:E; [|reflexivity].
    apply obtained_inv in E as [Hk' _].
    destruct (String.eqb_spec (id n') (id node)) as [Hid|]; [|reflexivity].
    exfalso. apply Hne.
    exact (same_id_same_request U k k' node n'
             (NoDup_ids_filter needsUpdate _ Hnd) Hk Hk' Hid). }
  assert (Hfinal :
    find (fun n => String.eqb (id n) (id node))
         (nodes (storedAfter callEmbedding order graphData))
    = written (hit callEmbedding U (id node) k) (Some node)).
  { rewrite storedAfter_nodes. fold U.
    change (find (fun n => String.eqb (id n) (id node))) with (lookup (id node)).
    rewrite lookup_settleAll. cbn [fst]. rewrite Hlook.
    now rewrite (lastHit_only callEmbedding U (id node) k order Hin Hothers). }
  split; [apply contentToEmbed_cases|]. split; [|split; [|split]].
  - intros other Hext. unfold storedAfter, handleRecalculateSemanticGraph.
    fold U. now rewrite (settleAll_ext other callEmbedding U order Hext).
  - intros e He. rewrite Hfinal. unfold hit, obtained.
    rewrite Hk, He, String.eqb_refl. reflexivity.
  - intros Hfail. split; [|tauto]. rewrite Hfinal. unfold hit, obtained.
    rewrite Hk. destruct Hfail as [-> | ->]; reflexivity.
  - rewrite storedAfter_nodes. apply settleAll_ids.
Qed.

Lemma embedding_failures_are_isolated_witness :
  NoDup (ids (nodes Scenario.storedFG)) /\
  nth_error (filter needsUpdate (nodes Scenario.storedFG)) 0 = Some Scenario.waitingF /\
  In 0%nat [1; 0]%nat /\
  find (fun n => String.eqb (id n) (id Scenario.waitingF))
       (nodes (storedAfter Scenario.firstRejected [1; 0]%nat Scenario.storedFG))
  = Some Scenario.waitingF /\
  needsUpdate Scenario.waitingF = true.
Proof.
  assert (Hnd : NoDup (ids (nodes Scenario.storedFG))).
  { repeat constructor; cbn; intuition discriminate. }
  assert (Hk : nth_error (filter needsUpdate (nodes Scenario.storedFG)) 0
               = Some Scenario.waitingF) by reflexivity.
  assert (Hin : In 0%nat [1; 0]%nat) by (right; left; reflexivity).
  destruct (embedding_failures_are_isolated Scenario.firstRejected [1; 0]%nat
              Scenario.storedFG 0 Scenario.waitingF Hnd Hk Hin)
    as (_ & _ & _ & Hfail & _).
  split; [exact Hnd|]. split; [exact Hk|]. split; [exact Hin|].
  exact (Hfail (or_introl eq_refl)).
Defined.

(** The threshold at work: a pair with similarity 0.75 gets no link, a
    pair with similarity 4/5 gets one, whose weight is 4/5; and the pass that
    obtains [unitX2] for [f] and [fourThree] for [g] stores the three
    structural links followed by that Semantic link. *)
Lemma threshold_examples :
  cosineSimilarity Scenario.unitX5 Scenario.sixteen5 = 0.75 /\
  semanticLinks [Scenario.embedded "f" Scenario.unitX5;
                 Scenario.embedded "g" Scenario.sixteen5] = [] /\
  semanticLinks [Scenario.embedded "f" Scenario.unitX2;
                 Scenario.embedded "g" Scenario.fourThree]
  = [{| source := "fn-f"; target := "fn-g"; etype := SEMANTIC;
        weight := Some (4 / 5) |}] /\
  option_map links
    (handleRecalculateSemanticGraph Scenario.bothAnswered [1; 0]%nat Scenario.storedFG)
  = Some [Builder.importLink "file-main.py" "f";
          Builder.importLink "file-main.py" "g";
          Builder.callLink "fn-f" "g";
          {| source := "fn-f"; target := "fn-g"; etype := SEMANTIC;
             weight := Some (4 / 5) |}].
Proof. repeat split; vm_compute; reflexivity. Qed.

Lemma pass_leaves_graph_alone_witness :
  (forall k node e,
      In k [1; 0]%nat ->
      nth_error (filter needsUpdate (nodes Scenario.storedFG)) k = Some node ->
      Scenario.noneAnswered k (contentToEmbed node) <> Resolved (Some e)) /\
  handleRecalculateSemanticGraph Scenario.noneAnswered [1; 0]%nat Scenario.storedFG = None /\
  storedAfter Scenario.noneAnswered [1; 0]%nat Scenario.storedFG = Scenario.storedFG.
Proof.
  assert (H : forall k node e,
      In k [1; 0]%nat ->
      nth_error (filter needsUpdate (nodes Scenario.storedFG)) k = Some node ->
      Scenario.noneAnswered k (contentToEmbed node) <> Resolved (Some e)).
  { intros k node e _ _. destruct k; discriminate. }
  split; [exact H|].
  exact (proj2 (proj2 (pass_leaves_graph_alone Scenario.noneAnswered [1; 0]%nat
                         Scenario.storedFG)) H).
Defined.

(** Two nodes with the id [fn-f] wait for an embedding.  The request for
    the first is rejected, the request for the second is answered.  The
    answer is written to the first node that carries the id: the node whose
    request failed ends with the embedding of the other and is no longer
    stale, and the node whose request was answered is left as it was. *)
Lemma reply_lands_on_failed_node_with_same_id :
  filter needsUpdate (nodes Scenario.storedTwoF)
    = [Scenario.waitingFofA; Scenario.waitingFofB] /\
  id Scenario.waitingFofA = id Scenario.waitingFofB /\
  Scenario.firstRejected 0%nat (contentToEmbed Scenario.waitingFofA) = Rejected /\
  Scenario.firstRejected 1%nat (contentToEmbed Scenario.waitingFofB)
    = Resolved (Some Scenario.fourThree) /\
  nodes (storedAfter Scenario.firstRejected [0; 1]%nat Scenario.storedTwoF)
    = [nth 0%nat (nodes Scenario.storedTwoF) Scenario.waitingFofA;
       Merge.withState Scenario.waitingFofA (Some Scenario.fourThree) (Some false);
       nth 2%nat (nodes Scenario.storedTwoF) Scenario.waitingFofA;
       Scenario.waitingFofB] /\
  embedding Scenario.waitingFofA = None /\
  isStale Scenario.waitingFofA = Some true.
Proof. repeat split; vm_compute; reflexivity. Qed.

End SemanticFacts.

(* ================================================================== *)
(** ** The graph that a pass stores                                    *)
(* ================================================================== *)

Module PassFacts.

Import Semantic SemanticFacts.
Local Open Scope float_scope.

(** *** The stored nodes, position by position *)

Lemma updateAt_Forall2 (R : NodeData -> NodeData -> Prop) (i : string)
    (f : NodeData -> NodeData) (ns0 ns : list NodeData) :
  (forall n0 n, R n0 n -> id n = i -> R n0 (f n)) ->
  Forall2 R ns0 ns ->
  forall idx,
    findIndex (fun n => String.eqb (id n) i) ns = Some idx ->
    Forall2 R ns0 (updateAt idx f ns).
Proof.
  intros Hf. induction 1 as [|n0 n ns0 ns Hn Hns IH]; intros idx Hidx;
    cbn in *; [discriminate|].
  destruct (String.eqb (id n) i) eqn:E.
  - injection Hidx as <-. cbn. constructor; [|exact Hns].
    apply Hf; [exact Hn | now apply String.eqb_eq].
  - destruct (findIndex _ ns) as [idx'|]; [|discriminate].
    injection Hidx as <-. cbn. constructor; [exact Hn | now apply IH].
Qed.

Section Pass.

Variable callEmbedding : Embedder.
Variable U : list NodeData.
Variable order : list nat.

(** The stored node [n'] at the position of the node [n] of the snapshot:
    [n] itself, or [n] with the embedding that a handled reply to a request
    for the id of [n] carried, and no longer stale. *)
Definition settledBy (n n' : NodeData) : Prop :=
  n' = n \/
  exists k node e,
    In k order /\ nth_error U k = Some node /\ id node = id n /\
    callEmbedding k (contentToEmbed node) = Resolved (Some e) /\
    n' = Merge.withState n (Some e) (Some false).

Lemma settledBy_id (n n' : NodeData) : settledBy n n' -> id n' = id n.
Proof. intros [->|(k & node & e & _ & _ & _ & _ & ->)]; reflexivity. Qed.

Lemma step_settledBy (ns0 : list NodeData) (st : list NodeData * bool) (k : nat) :
  In k order ->
  Forall2 settledBy ns0 (fst st) ->
  Forall2 settledBy ns0 (fst (step callEmbedding U st k)).
Proof.
  intros Hk H. rewrite step_obtained.
  destruct (obtained callEmbedding U k) as [[node e]|] eqn:E; [|exact H].
  apply obtained_inv in E as [Hnode Hreply].
  destruct (findIndex _ (fst st)) as [idx|] eqn:Ei; [|exact H].
  cbn [fst]. apply (updateAt_Forall2 settledBy (id node)); [|exact H | exact Ei].
  intros n0 n Hn Hid. right. exists k, node, e.
  rewrite <- (settledBy_id _ _ Hn), Hid.
  repeat split; auto.
  destruct Hn as [->|(k' & node' & e' & _ & _ & _ & _ & ->)]; reflexivity.
Qed.

Lemma settleAll_settledBy (ns0 : list NodeData) (handled : list nat) :
  incl handled order ->
  forall st,
    Forall2 settledBy ns0 (fst st) ->
    Forall2 settledBy ns0 (fst (settleAll callEmbedding U handled st)).
Proof.
  induction handled as [|k handled IH]; intros Hincl st H; [exact H|].
  rewrite settleAll_cons. apply IH.
  - intros k' Hk'. apply Hincl. now right.
  - apply step_settledBy; [apply Hincl; now left | exact H].
Qed.

End Pass.

Lemma Forall2_refl_settledBy (callEmbedding : Embedder) (U : list NodeData)
    (order : list nat) (ns : list NodeData) :
  Forall2 (settledBy callEmbedding U order) ns ns.
Proof. induction ns; constructor; [now left | assumption]. Qed.

(** The nodes that the handler stores, when it stores a graph. *)
Lemma stored_nodes (callEmbedding : Embedder) (order : list nat)
    (graphData g' : GraphData) :
  handleRecalculateSemanticGraph callEmbedding order graphData = Some g' ->
  nodes g'
  = fst (settleAll callEmbedding (filter needsUpdate (nodes graphData)) order
           (nodes graphData, false)).
Proof.
  intros H. rewrite <- storedAfter_nodes. unfold storedAfter. now rewrite H.
Qed.

(** With unique ids, the node found under the id of a request after the
    pass is the node of the request, with what its reply has written. *)
Lemma lookup_after_pass (callEmbedding : Embedder) (order : list nat)
    (graphData : GraphData) (k : nat) (node : NodeData) :
  NoDup (ids (nodes graphData)) ->
  nth_error (filter needsUpdate (nodes graphData)) k = Some node ->
  In k order ->
  lookup (id node)
    (fst (settleAll callEmbedding (filter needsUpdate (nodes graphData)) order
            (nodes graphData, false)))
  = written (hit callEmbedding (filter needsUpdate (nodes graphData)) (id node) k)
            (Some node).
Proof.
  intros Hnd Hk Hin.
  set (U := filter needsUpdate (nodes graphData)) in *.
  assert (HnodeU : In node U) by (eapply nth_error_In; eauto).
  assert (Hnode : In node (nodes graphData) /\ needsUpdate node = true)
    by (apply filter_In; exact HnodeU).
  assert (Hlook : lookup (id node) (nodes graphData) = Some node)
    by (apply MergeFacts.find_unique; tauto).
  assert (Hothers : forall k', In k' order -> k' <> k ->
                               hit callEmbedding U (id node) k' = None).
  { intros k' _ Hne. unfold hit.
    destruct (obtained callEmbedding U k') as [[n' e']|] eqn:E; [|reflexivity].
    apply obtained_inv in E as [Hk' _].
    destruct (String.eqb_spec (id n') (id node)) as [Hid|]; [|reflexivity].
    exfalso. apply Hne.
    exact (same_id_same_request U k k' node n'
             (NoDup_ids_filter needsUpdate _ Hnd) Hk Hk' Hid). }
  rewrite lookup_settleAll. cbn [fst]. rewrite Hlook.
  now rewrite (lastHit_only callEmbedding U (id node) k order Hin Hothers).
Qed.

(** What is written last under an id is what one of the handled requests
    for that id has obtained, and something is written as soon as one of
    them has obtained an embedding. *)
Lemma lastHit_origin (callEmbedding : Embedder) (U : list NodeData) (i : string)
    (order : list nat) (e' : list float) :
  lastHit callEmbedding U i order = Some e' ->
  exists k' node',
    In k' order /\ nth_error U k' = Some node' /\ id node' = i /\
    callEmbedding k' (contentToEmbed node') = Resolved (Some e').
Proof.
  induction order as [|k0 order IH]; cbn [lastHit]; [discriminate|].
  destruct (lastHit callEmbedding U i order) as [e0|].
  - intros H. injection H as ->.
    destruct (IH eq_refl) as (k' & node' & Hin & H).
    exists k', node'. split; [now right | exact H].
  - unfold hit. intros H.
    destruct (obtained callEmbedding U k0) as [[node0 e0]|] eqn:E; [|discriminate].
    destruct (String.eqb_spec (id node0) i) as [Hid|]; [|discriminate].
    injection H as ->. apply obtained_inv in E as [Hk0 Hreply].
    exists k0, node0. split; [now left | auto].
Qed.

Lemma lastHit_written (callEmbedding : Embedder) (U : list NodeData) (i : string)
    (k : nat) (order : list nat) (e : list float) :
  In k order -> hit callEmbedding U i k = Some e ->
  exists e', lastHit callEmbedding U i order = Some e'.
Proof.
  induction order as [|k0 order IH]; intros Hin Hhit; [destruct Hin|].
  cbn [lastHit]. destruct (lastHit callEmbedding U i order) as [e'|] eqn:E; [eauto|].
  destruct Hin as [->|Hin]; [eauto|].
  destruct (IH Hin Hhit) as [e' He']. discriminate.
Qed.

(** Whether or not ids are unique: a request whose handled reply carries
    an embedding leaves the first node with its id with an embedding that a
    handled reply to a request for that id carried. *)
Lemma first_node_after_pass (callEmbedding : Embedder) (order : list nat)
    (graphData : GraphData) (k : nat) (node : NodeData) (e : list float) :
  In k order ->
  nth_error (filter needsUpdate (nodes graphData)) k = Some node ->
  callEmbedding k (contentToEmbed node) = Resolved (Some e) ->
  exists first k' node' e',
    lookup (id node) (nodes graphData) = Some first /\
    In k' order /\
    nth_error (filter needsUpdate (nodes graphData)) k' = Some node' /\
    id node' = id node /\
    callEmbedding k' (contentToEmbed node') = Resolved (Some e') /\
    lookup (id node)
      (fst (settleAll callEmbedding (filter needsUpdate (nodes graphData)) order
              (nodes graphData, false)))
    = Some (Merge.withState first (Some e') (Some false)).
Proof.
  intros Hin Hk Hreply.
  set (U := filter needsUpdate (nodes graphData)) in *.
  assert (Hhit : hit callEmbedding U (id node) k = Some e).
  { unfold hit, obtained. now rewrite Hk, Hreply, String.eqb_refl. }
  destruct (lastHit_written _ _ _ _ _ _ Hin Hhit) as [e' He'].
  destruct (lastHit_origin _ _ _ _ _ He') as (k' & node' & Hin' & Hk' & Hid' & Hreply').
  assert (Hpresent : In (id node) (ids (nodes graphData))).
  { apply in_map. apply nth_error_In in Hk. subst U. now apply filter_In in Hk. }
  apply MergeFacts.hasNode_In in Hpresent. unfold Merge.hasNode in Hpresent.
  destruct (find (fun n => String.eqb (id n) (id node)) (nodes graphData))
    as [first|] eqn:Hfirst; [|discriminate].
  exists first, k', node', e'. unfold lookup at 1.
  split; [exact Hfirst|]. repeat split; auto.
  rewrite lookup_settleAll, He'. cbn [fst]. unfold lookup. now rewrite Hfirst.
Qed.

(** C7: in a pass in which a reply carries an embedding, the handler
    stores a graph.  Its nodes are the nodes of the snapshot, position by
    position, each as it was or with the embedding that a handled reply to
    a request for its id carried and no longer stale.  A request whose
    handled reply carries an embedding leaves the first node with its id
    with such an embedding and not stale; with unique ids that node is the
    node of the request and the embedding is the one of its reply.  Its
    links are the links of the snapshot that are not Semantic, in their
    order, followed by the Semantic links computed anew: a link is a
    Semantic link of the stored graph exactly when it joins two nodes at
    positions [i < j] among the stored nodes that carry an embedding, their
    cosine similarity is greater than 0.75, and its weight is that
    similarity; a pair whose similarity is 0.75 gets no link. *)
Theorem semantic_links_recomputed (callEmbedding : Embedder) (order : list nat)
    (graphData : GraphData) :
  (exists k node e,
      In k order /\
      nth_error (filter needsUpdate (nodes graphData)) k = Some node /\
      callEmbedding k (contentToEmbed node) = Resolved (Some e)) ->
  exists g',
    handleRecalculateSemanticGraph callEmbedding order graphData = Some g' /\
    Forall2
      (fun n n' =>
         n' = n \/
         exists k node e,
           In k order /\
           nth_error (filter needsUpdate (nodes graphData)) k = Some node /\
           id node = id n /\
           callEmbedding k (contentToEmbed node) = Resolved (Some e) /\
           n' = Merge.withState n (Some e) (Some false))
      (nodes graphData) (nodes g') /\
    (forall k node e,
       In k order ->
       nth_error (filter needsUpdate (nodes graphData)) k = Some node ->
       callEmbedding k (contentToEmbed node) = Resolved (Some e) ->
       exists first k' node' e',
         find (fun n => String.eqb (id n) (id node)) (nodes graphData) = Some first /\
         In k' order /\
         nth_error (filter needsUpdate (nodes graphData)) k' = Some node' /\
         id node' = id node /\
         callEmbedding k' (contentToEmbed node') = Resolved (Some e') /\
         find (fun n => String.eqb (id n) (id node)) (nodes g')
         = Some (Merge.withState first (Some e') (Some false))) /\
    (NoDup (ids (nodes graphData)) ->
     forall k node e,
       In k order ->
       nth_error (filter needsUpdate (nodes graphData)) k = Some node ->
       callEmbedding k (contentToEmbed node) = Resolved (Some e) ->
       In (Merge.withState node (Some e) (Some false)) (nodes g')) /\
    links g' = filter (fun l => negb (Merge.isSemantic l)) (links graphData)
               ++ semanticLinks (filter hasEmbedding (nodes g')) /\
    (forall l,
        In l (links g') /\ etype l = SEMANTIC <->
        exists i j a b ea eb,
          (i < j)%nat /\
          nth_error (filter hasEmbedding (nodes g')) i = Some a /\
          nth_error (filter hasEmbedding (nodes g')) j = Some b /\
          embedding a = Some ea /\ embedding b = Some eb /\
          (0.75 <? cosineSimilarity ea eb) = true /\
          l = {| source := id a; target := id b; etype := SEMANTIC;
                 weight := Some (cosineSimilarity ea eb) |}) /\
    filter (fun l => negb (Merge.isSemantic l)) (links g')
      = filter (fun l => negb (Merge.isSemantic l)) (links graphData) /\
    filter Merge.isSemantic (links g')
      = semanticLinks (filter hasEmbedding (nodes g')) /\
    (forall a b,
        cosineSimilarity (embeddingOf a) (embeddingOf b) = 0.75 ->
        semanticLinks [a; b] = []).
Proof.
  intros H.
  destruct (pass_stores_links callEmbedding order graphData H)
    as (g' & Hg' & Hlinks & Hiff & Hkept & Hsem & Hexact).
  exists g'. split; [exact Hg'|].
  assert (Hnodes := stored_nodes _ _ _ _ Hg').
  split; [|split; [|split]].
  - rewrite Hnodes.
    apply (settleAll_settledBy callEmbedding
             (filter needsUpdate (nodes graphData)) order (nodes graphData) order
             (incl_refl _) (nodes graphData, false)).
    apply Forall2_refl_settledBy.
  - intros k node e Hin Hk Hreply. rewrite Hnodes.
    exact (first_node_after_pass callEmbedding order graphData k node e
             Hin Hk Hreply).
  - intros Hnd k node e Hin Hk Hreply.
    assert (Hlook := lookup_after_pass callEmbedding order graphData k node
                       Hnd Hk Hin).
    rewrite <- Hnodes in Hlook. unfold hit, obtained in Hlook.
    rewrite Hk, Hreply, String.eqb_refl in Hlook. cbn in Hlook.
    unfold lookup in Hlook. now apply find_some in Hlook as [Hlook _].
  - repeat split; auto; now apply Hiff.
Qed.

(** The pass over [storedFG] in which both requests are answered: the
    node of [f] is stored with the embedding of its reply, and the graph
    holds the Semantic link between [fn-f] and [fn-g], whose weight is the
    similarity 4/5 of the two embeddings. *)
Lemma semantic_links_recomputed_witness :
  (exists k node e,
      In k [0; 1]%nat /\
      nth_error (filter needsUpdate (nodes Scenario.storedFG)) k = Some node /\
      Scenario.bothAnswered k (contentToEmbed node) = Resolved (Some e)) /\
  handleRecalculateSemanticGraph Scenario.bothAnswered [0; 1]%nat Scenario.storedFG
    = Some Scenario.embeddedFG /\
  In (Merge.withState Scenario.waitingF (Some Scenario.unitX2) (Some false))
     (nodes Scenario.embeddedFG) /\
  In Scenario.linkFG (links Scenario.embeddedFG) /\
  etype Scenario.linkFG = SEMANTIC.
Proof.
  assert (H : exists k node e,
      In k [0; 1]%nat /\
      nth_error (filter needsUpdate (nodes Scenario.storedFG)) k = Some node /\
      Scenario.bothAnswered k (contentToEmbed node) = Resolved (Some e)).
  { exists 0%nat, Scenario.waitingF, Scenario.unitX2.
    split; [left; reflexivity|]. split; reflexivity. }
  assert (Hnd : NoDup (ids (nodes Scenario.storedFG))).
  { repeat constructor; cbn; intuition discriminate. }
  split; [exact H|].
  destruct (semantic_links_recomputed Scenario.bothAnswered [0; 1]%nat
              Scenario.storedFG H) as (g' & Hg' & _ & _ & Hreq & _ & Hiff & _).
  assert (Eg : g' = Scenario.embeddedFG).
  { unfold Scenario.embeddedFG, storedAfter. now rewrite Hg'. }
  rewrite Eg in *.
  split; [exact Hg'|]. split.
  - apply (Hreq Hnd 0%nat Scenario.waitingF Scenario.unitX2);
      [left; reflexivity | reflexivity | reflexivity].
  - apply (Hiff Scenario.linkFG).
    exists 0%nat, 1%nat,
      (Merge.withState Scenario.waitingF (Some Scenario.unitX2) (Some false)),
      (nth 1%nat (filter hasEmbedding (nodes Scenario.embeddedFG)) Scenario.waitingF),
      Scenario.unitX2, Scenario.fourThree.
    split; [lia|].
    repeat split; vm_compute; reflexivity.
Defined.

End PassFacts.

(* ================================================================== *)
(** * Further properties                                               *)
(* ================================================================== *)

(** ** Lines *)

Module LineFacts.

Import JS.

(** A text without a line feed. *)
Fixpoint noLF (s : string) : bool :=
  match s with
  | EmptyString => true
  | String c s' => negb (Ascii.eqb c LF) && noLF s'
  end.

Lemma append_assoc (a b c : string) : ((a ++ b) ++ c)%string = (a ++ b ++ c)%string.
Proof. induction a as [|ch a IH]; cbn; [reflexivity | now rewrite IH]. Qed.

Lemma append_nil_r (a : string) : (a ++ EmptyString)%string = a.
Proof. induction a as [|ch a IH]; cbn; [reflexivity | now rewrite IH]. Qed.

Lemma length_append (a b : string) :
  String.length (a ++ b) = String.length a + String.length b.
Proof. induction a as [|ch a IH]; cbn; [reflexivity | now rewrite IH]. Qed.

Lemma split_nl_nonempty (s : string) : split_nl s <> [].
Proof.
  destruct s as [|c s]; cbn; [discriminate|].
  destruct (Ascii.eqb c LF); [discriminate|].
  destruct (split_nl s); discriminate.
Qed.

Lemma split_nl_cons (c : ascii) (s : string) :
  split_nl (String c s) =
  if Ascii.eqb c LF then EmptyString :: split_nl s
  else match split_nl s with
       | l :: ls => String c l :: ls
       | [] => [String c EmptyString]
       end.
Proof. reflexivity. Qed.

Lemma join_nl_cons (l : string) (ls : list string) :
  ls <> [] -> join_nl (l :: ls) = (l ++ nl ++ join_nl ls)%string.
Proof. destruct ls; [congruence | reflexivity]. Qed.

(** [s.split('\n').join('\n')] is [s]. *)
Lemma join_split (s : string) : join_nl (split_nl s) = s.
Proof.
  induction s as [|c s IH]; [reflexivity|].
  rewrite split_nl_cons. destruct (Ascii.eqb c LF) eqn:E.
  - apply Ascii.eqb_eq in E. subst c.
    rewrite join_nl_cons by apply split_nl_nonempty. now rewrite IH.
  - destruct (split_nl s) as [|l ls] eqn:Es; [now apply split_nl_nonempty in Es|].
    destruct ls as [|l' ls].
    + cbn in *. now rewrite IH.
    + rewrite join_nl_cons by discriminate.
      rewrite join_nl_cons in IH by discriminate.
      cbn. now rewrite <- IH.
Qed.

Lemma split_nl_noLF (s : string) : Forall (fun l => noLF l = true) (split_nl s).
Proof.
  induction s as [|c s IH]; [repeat constructor|].
  rewrite split_nl_cons. destruct (Ascii.eqb c LF) eqn:E.
  - constructor; [reflexivity | exact IH].
  - destruct (split_nl s) as [|l ls]; [repeat constructor; cbn; now rewrite E|].
    inversion IH; subst. constructor; [cbn; now rewrite E | assumption].
Qed.

Lemma split_nl_line (l : string) : noLF l = true -> split_nl l = [l].
Proof.
  induction l as [|c l IH]; [reflexivity|]. cbn [noLF].
  intros H. apply andb_true_iff in H as [Hc Hl].
  rewrite split_nl_cons. apply negb_true_iff in Hc. rewrite Hc, (IH Hl).
  reflexivity.
Qed.

Lemma split_nl_app (l s : string) :
  noLF l = true -> split_nl (l ++ nl ++ s) = l :: split_nl s.
Proof.
  induction l as [|c l IH]; intros H.
  - cbn [append nl]. rewrite split_nl_cons. now rewrite Ascii.eqb_refl.
  - cbn [noLF] in H. apply andb_true_iff in H as [Hc Hl].
    apply negb_true_iff in Hc.
    change (String c l ++ nl ++ s)%string with (String c (l ++ nl ++ s)).
    rewrite split_nl_cons, Hc, (IH Hl). reflexivity.
Qed.

(** Joining lines and splitting again gives the lines, each split. *)
Lemma split_join (ls : list string) :
  ls <> [] -> split_nl (join_nl ls) = flat_map split_nl ls.
Proof.
  induction ls as [|l ls IH]; [congruence|]. intros _.
  destruct ls as [|l' ls].
  - cbn. now rewrite app_nil_r.
  - rewrite join_nl_cons by discriminate.
    change (flat_map split_nl (l :: l' :: ls))
      with (split_nl l ++ flat_map split_nl (l' :: ls)).
    rewrite <- IH by discriminate.
    generalize (join_nl (l' :: ls)). clear IH. intros rest.
    induction l as [|c l IHl].
    + change (EmptyString ++ nl ++ rest)%string with (String LF rest).
      rewrite split_nl_cons, Ascii.eqb_refl. reflexivity.
    + change (String c l ++ nl ++ rest)%string with (String c (l ++ nl ++ rest)).
      rewrite !split_nl_cons. destruct (Ascii.eqb c LF); [now rewrite IHl|].
      rewrite IHl. destruct (split_nl l) as [|a b] eqn:El;
        [now apply split_nl_nonempty in El | reflexivity].
Qed.

Lemma flat_map_lines (ls : list string) :
  Forall (fun l => noLF l = true) ls -> flat_map split_nl ls = ls.
Proof.
  induction 1 as [|l ls Hl _ IH]; [reflexivity|].
  cbn. now rewrite (split_nl_line l Hl), IH.
Qed.

End LineFacts.

(** ** replaceFunctionInCode *)

Module ReplaceFacts.

Import Editing LineFacts.

Lemma takeBody_endsBlock (line : string) (rest : list string) :
  Builder.takeBody (line :: rest) =
  if endsBlock line then [] else line :: Builder.takeBody rest.
Proof.
  cbn [Builder.takeBody]. unfold endsBlock.
  destruct (String.eqb (JS.trim line) EmptyString); [reflexivity|].
  cbn [negb andb].
  destruct (negb (JS.startsWith " " line)
            && negb (JS.startsWith (String JS.TAB EmptyString) line)
            && negb (JS.startsWith "#" line)
            && negb (JS.startsWith "@" line)); reflexivity.
Qed.

(** The loop of [replaceFunctionInCode] stops where the body that the
    builder extracts stops. *)
Lemma scanEnd_takeBody (rest : list string) :
  forall j,
    scanEnd rest j = j + List.length (Builder.takeBody rest) /\
    rest = Builder.takeBody rest
           ++ skipn (List.length (Builder.takeBody rest)) rest.
Proof.
  induction rest as [|line rest IH]; intros j.
  - cbn. split; [lia | reflexivity].
  - rewrite takeBody_endsBlock. cbn [scanEnd].
    destruct (endsBlock line).
    + cbn. split; [lia | reflexivity].
    + destruct (IH (S j)) as [-> Hrest]. cbn [List.length skipn app].
      split; [lia | now rewrite <- Hrest].
Qed.

(** What [findBlock] has found: the lines before the header, none of which
    the pattern matches, the header line, and the lines that follow it. *)
Lemma findBlock_some (funcName : string) (lines : list string) :
  forall i startLine endLine,
    findBlock funcName lines i = Some (startLine, endLine) ->
    exists before line rest,
      lines = before ++ line :: rest /\
      startLine = i + List.length before /\
      endLine = S startLine + List.length (Builder.takeBody rest) /\
      RegExp.test (headerOf funcName) line = true /\
      Forall (fun l => RegExp.test (headerOf funcName) l = false) before.
Proof.
  induction lines as [|l lines IH]; intros i a b H; [discriminate|].
  cbn [findBlock] in H. destruct (RegExp.test (headerOf funcName) l) eqn:E.
  - injection H as <- <-. exists [], l, lines. cbn.
    destruct (scanEnd_takeBody lines (S i)) as [-> _].
    repeat split; auto with arith.
  - destruct (IH _ _ _ H) as (before & line & rest & -> & -> & -> & Ht & Hb).
    exists (l :: before), line, rest. cbn. repeat split; auto; lia.
Qed.

Lemma findBlock_none (funcName : string) (lines : list string) :
  forall i,
    findBlock funcName lines i = None <->
    Forall (fun l => RegExp.test (headerOf funcName) l = false) lines.
Proof.
  induction lines as [|l lines IH]; intros i; cbn [findBlock].
  - split; [constructor | reflexivity].
  - destruct (RegExp.test (headerOf funcName) l) eqn:E.
    + split; [discriminate|]. intros H. inversion H; subst. congruence.
    + rewrite IH. split; [now constructor | intros H; now inversion H].
Qed.

Lemma join_nl_app_block (b c : list string) :
  b <> [] -> JS.join_nl (JS.join_nl b :: c) = JS.join_nl (b ++ c).
Proof.
  induction b as [|l b IH]; [congruence|]. intros _.
  destruct b as [|l' b]; [reflexivity|].
  rewrite (join_nl_cons l (l' :: b)) by discriminate.
  change ((l :: l' :: b) ++ c) with (l :: ((l' :: b) ++ c)).
  rewrite (join_nl_cons l ((l' :: b) ++ c)) by discriminate.
  rewrite <- IH by discriminate.
  destruct c as [|l'' c].
  - reflexivity.
  - rewrite !join_nl_cons by discriminate.
    now rewrite !append_assoc.
Qed.

Lemma join_nl_app_head (a rest rest' : list string) :
  JS.join_nl rest = JS.join_nl rest' -> rest <> [] -> rest' <> [] ->
  JS.join_nl (a ++ rest) = JS.join_nl (a ++ rest').
Proof.
  intros H Hr Hr'. induction a as [|l a IH]; [exact H|].
  cbn [app]. rewrite !join_nl_cons, IH; [reflexivity | |];
    destruct a; cbn; try discriminate; assumption.
Qed.

Lemma firstn_takeBody (rest : list string) :
  firstn (List.length (Builder.takeBody rest)) rest = Builder.takeBody rest.
Proof.
  induction rest as [|line rest IH]; [reflexivity|].
  rewrite takeBody_endsBlock. destruct (endsBlock line); [reflexivity|].
  cbn [List.length firstn]. now rewrite IH.
Qed.

Lemma firstn_skipn_block (before rest : list string) (line : string) (n : nat) :
  firstn (List.length before) (before ++ line :: rest) = before /\
  skipn (List.length before) (before ++ line :: rest) = line :: rest /\
  skipn (S (List.length before + n)) (before ++ line :: rest) = skipn n rest.
Proof.
  induction before as [|l before IH]; cbn; [repeat split; reflexivity|].
  destruct IH as (H1 & H2 & H3). cbn in H3. now rewrite H1, H2, H3.
Qed.

(** The lines of a file in which [findBlock] has found a block. *)
Lemma block_found (fileContent funcName : string) (startLine endLine : nat) :
  findBlock funcName (JS.split_nl fileContent) 0 = Some (startLine, endLine) ->
  exists before line rest,
    JS.split_nl fileContent = before ++ line :: rest /\
    startLine = List.length before /\
    endLine = S (List.length before + List.length (Builder.takeBody rest)) /\
    RegExp.test (headerOf funcName) line = true /\
    firstn startLine (JS.split_nl fileContent) = before /\
    skipn startLine (JS.split_nl fileContent) = line :: rest /\
    firstn (endLine - startLine) (skipn startLine (JS.split_nl fileContent))
      = line :: Builder.takeBody rest /\
    skipn endLine (JS.split_nl fileContent)
      = skipn (List.length (Builder.takeBody rest)) rest.
Proof.
  intros Hfound.
  destruct (findBlock_some _ _ _ _ _ Hfound)
    as (before & line & rest & Hlines & -> & -> & Htest & _).
  exists before, line, rest. rewrite Hlines. cbn [Nat.add].
  destruct (firstn_skipn_block before rest line
              (List.length (Builder.takeBody rest))) as (H1 & H2 & H3).
  rewrite H1, H2, H3. repeat split; auto.
  match goal with
  | |- context [firstn ?n (line :: rest)] =>
      replace n with (S (List.length (Builder.takeBody rest))) by lia
  end.
  cbn [firstn]. f_equal. apply firstn_takeBody.
Qed.

Lemma replace_lines (fileContent funcName newCode : string)
    (startLine endLine : nat) :
  findBlock funcName (JS.split_nl fileContent) 0 = Some (startLine, endLine) ->
  JS.split_nl (replaceFunctionInCode fileContent funcName newCode)
  = firstn startLine (JS.split_nl fileContent)
    ++ JS.split_nl newCode
    ++ skipn endLine (JS.split_nl fileContent).
Proof.
  intros Hfound. unfold replaceFunctionInCode. rewrite Hfound.
  assert (Hlf := split_nl_noLF fileContent).
  destruct (block_found _ _ _ _ Hfound)
    as (before & line & rest & Hlines & _ & _ & _ & H1 & _ & _ & H3).
  rewrite H1, H3. rewrite Hlines in Hlf. clear H1 H3 Hlines.
  destruct (scanEnd_takeBody rest 0) as [_ Hrest].
  rewrite split_join by (destruct before; discriminate).
  rewrite flat_map_app. cbn [flat_map app].
  apply Forall_app in Hlf as [Hb Hr]. inversion Hr as [|? ? _ Hr']; subst.
  rewrite (flat_map_lines before Hb). do 2 f_equal. apply flat_map_lines.
  rewrite Hrest in Hr'. now apply Forall_app in Hr' as [_ ?].
Qed.

(** X1: for a plain name, when a header of [funcName] is found, the block
    that is replaced is the first line that the pattern matches followed by
    the lines that the builder takes as its body; the lines of the result
    are the lines before that block, the lines of [newCode] and the lines
    after the block, all as they were. *)
Theorem replace_keeps_surroundings (fileContent funcName : string)
    (startLine endLine : nat) :
  isPlainName funcName = true ->
  findBlock funcName (JS.split_nl fileContent) 0 = Some (startLine, endLine) ->
  startLine < endLine <= List.length (JS.split_nl fileContent) /\
  (exists line rest,
      skipn startLine (JS.split_nl fileContent) = line :: rest /\
      RegExp.test (headerOf funcName) line = true /\
      Forall (fun l => RegExp.test (headerOf funcName) l = false)
             (firstn startLine (JS.split_nl fileContent)) /\
      firstn (endLine - startLine) (skipn startLine (JS.split_nl fileContent))
        = line :: Builder.takeBody rest) /\
  forall newCode,
    JS.split_nl (replaceFunctionInCode fileContent funcName newCode)
    = firstn startLine (JS.split_nl fileContent)
      ++ JS.split_nl newCode
      ++ skipn endLine (JS.split_nl fileContent).
Proof.
  intros _ Hfound. split; [|split].
  - destruct (block_found _ _ _ _ Hfound)
      as (before & line & rest & Hlines & -> & -> & _).
    rewrite Hlines, length_app. cbn [List.length].
    destruct (scanEnd_takeBody rest 0) as [_ Hrest].
    assert (List.length (Builder.takeBody rest) <= List.length rest).
    { rewrite Hrest at 2. rewrite length_app. lia. }
    lia.
  - destruct (findBlock_some _ _ _ _ _ Hfound)
      as (before' & line' & rest' & Hlines' & Hs & _ & _ & Hnone).
    destruct (block_found _ _ _ _ Hfound)
      as (before & line & rest & Hlines & Hs' & _ & Htest & H1 & H2 & H3 & _).
    exists line, rest. repeat split; auto.
    rewrite Hlines'. cbn [Nat.add] in Hs. subst startLine.
    rewrite firstn_app, Nat.sub_diag, firstn_all. cbn [firstn].
    now rewrite app_nil_r.
  - intros newCode. now apply replace_lines.
Qed.

(** X2: for a plain name, when a header of [funcName] is found, the file
    comes back as it was exactly when the new code is the text of the block
    itself, the header and the body as the builder extracts them. *)
Theorem replace_own_block (fileContent funcName newCode : string)
    (startLine endLine : nat) :
  isPlainName funcName = true ->
  findBlock funcName (JS.split_nl fileContent) 0 = Some (startLine, endLine) ->
  (replaceFunctionInCode fileContent funcName newCode = fileContent <->
   newCode = JS.join_nl (firstn (endLine - startLine)
                                (skipn startLine (JS.split_nl fileContent)))).
Proof.
  intros _ Hfound.
  assert (Hl := replace_lines fileContent funcName newCode _ _ Hfound).
  destruct (block_found _ _ _ _ Hfound)
    as (before & line & rest & Hlines & _ & _ & _ & H1 & _ & H2 & H3).
  destruct (scanEnd_takeBody rest 0) as [_ Hrest].
  rewrite H1, H3 in Hl. rewrite H2.
  assert (Hsplit : JS.split_nl fileContent
                   = before ++ (line :: Builder.takeBody rest)
                     ++ skipn (List.length (Builder.takeBody rest)) rest).
  { rewrite Hlines. cbn [app]. now rewrite <- Hrest. }
  split.
  - intros Heq. rewrite Heq, Hsplit in Hl.
    apply app_inv_head, app_inv_tail in Hl.
    now rewrite Hl, join_split.
  - intros ->. rewrite <- (join_split (replaceFunctionInCode _ _ _)), Hl.
    rewrite split_join by discriminate.
    rewrite flat_map_lines, <- Hsplit; [apply join_split|].
    assert (Hlf := split_nl_noLF fileContent). rewrite Hsplit in Hlf.
    apply Forall_app in Hlf as [_ Hlf]. now apply Forall_app in Hlf as [? _].
Qed.

(** X3: for a plain name, when no line of the file is matched by the
    pattern, the file is returned as it is, whatever the new code. *)
Theorem replace_without_header (fileContent funcName newCode : string) :
  isPlainName funcName = true ->
  Forall (fun l => RegExp.test (headerOf funcName) l = false)
         (JS.split_nl fileContent) ->
  replaceFunctionInCode fileContent funcName newCode = fileContent.
Proof.
  intros _ Hnone. unfold replaceFunctionInCode.
  now rewrite (proj2 (findBlock_none funcName _ 0) Hnone).
Qed.

End ReplaceFacts.

(* ================================================================== *)
(** ** What a match consumes                                           *)
(* ================================================================== *)

Module RegExpFacts.

Import RegExp LineFacts.
Local Open Scope string_scope.

(** The character before the position reached after [w]. *)
Fixpoint lastOf (prev : option ascii) (w : string) : option ascii :=
  match w with
  | EmptyString => prev
  | String c w' => lastOf (Some c) w'
  end.

(** [r] accepts [w] at a position whose previous character is [prev] and
    whose remaining text is [w ++ s']; [caps'] are the captures that the
    groups of [r] add. *)
Inductive Accepts : regex -> option ascii -> string -> string -> list string -> Prop :=
| A_Eps prev s : Accepts Eps prev EmptyString s []
| A_Cls (p : ascii -> bool) prev c s :
    p c = true -> Accepts (Cls p) prev (String c EmptyString) s []
| A_Seq r1 r2 prev w1 w2 s caps1 caps2 :
    Accepts r1 prev w1 (w2 ++ s) caps1 ->
    Accepts r2 (lastOf prev w1) w2 s caps2 ->
    Accepts (Seq r1 r2) prev (w1 ++ w2) s (caps1 ++ caps2)%list
| A_Alt_l r1 r2 prev w s caps :
    Accepts r1 prev w s caps -> Accepts (Alt r1 r2) prev w s caps
| A_Alt_r r1 r2 prev w s caps :
    Accepts r2 prev w s caps -> Accepts (Alt r1 r2) prev w s caps
| A_Star_stop r prev s : Accepts (Star r) prev EmptyString s []
| A_Star_more r prev w1 w2 s caps1 caps2 :
    Accepts r prev w1 (w2 ++ s) caps1 ->
    Accepts (Star r) (lastOf prev w1) w2 s caps2 ->
    Accepts (Star r) prev (w1 ++ w2) s (caps1 ++ caps2)%list
| A_Lazy_stop r prev s : Accepts (LazyStar r) prev EmptyString s []
| A_Lazy_more r prev w1 w2 s caps1 caps2 :
    Accepts r prev w1 (w2 ++ s) caps1 ->
    Accepts (LazyStar r) (lastOf prev w1) w2 s caps2 ->
    Accepts (LazyStar r) prev (w1 ++ w2) s (caps1 ++ caps2)%list
| A_Bol m prev s : atBol m prev = true -> Accepts (Bol m) prev EmptyString s []
| A_Eol m prev s : atEol m s = true -> Accepts (Eol m) prev EmptyString s []
| A_WordBoundary prev s :
    xorb (isWordOpt prev) (isWordOpt (next s)) = true ->
    Accepts WordBoundary prev EmptyString s []
| A_Group r prev w s caps :
    Accepts r prev w s caps -> Accepts (Group r) prev w s (caps ++ [w])%list.

Lemma lastOf_app (prev : option ascii) (a b : string) :
  lastOf prev (a ++ b) = lastOf (lastOf prev a) b.
Proof. revert prev. induction a; intros prev; cbn; auto. Qed.

Lemma substring_prefix (w s : string) :
  substring 0 (String.length w) (w ++ s) = w.
Proof.
  induction w as [|c w IH]; cbn.
  - destruct s; reflexivity.
  - now rewrite IH.
Qed.

Lemma consumed_app (w s : string) : consumed (w ++ s) s = w.
Proof.
  unfold consumed. rewrite length_append.
  replace (String.length w + String.length s - String.length s)
    with (String.length w) by lia.
  apply substring_prefix.
Qed.

(** The iteration of [Star] and of [LazyStar], as [rmatch] runs it. *)
Definition starLoop (r1 : regex)
    (k : option ascii -> string -> list string -> option result) :=
  fix loop (n : nat) (prev : option ascii) (s : string)
      (caps : list string) {struct n} : option result :=
    match n with
    | 0 => k prev s caps
    | S n' =>
        orElse
          (rmatch r1 prev s caps (fun prev' s' caps' =>
             if Nat.ltb (String.length s') (String.length s)
             then loop n' prev' s' caps' else None))
          (k prev s caps)
    end.

Definition lazyLoop (r1 : regex)
    (k : option ascii -> string -> list string -> option result) :=
  fix loop (n : nat) (prev : option ascii) (s : string)
      (caps : list string) {struct n} : option result :=
    match n with
    | 0 => k prev s caps
    | S n' =>
        orElse
          (k prev s caps)
          (rmatch r1 prev s caps (fun prev' s' caps' =>
             if Nat.ltb (String.length s') (String.length s)
             then loop n' prev' s' caps' else None))
    end.

Lemma rmatch_Star (r1 : regex) prev s caps k :
  rmatch (Star r1) prev s caps k = starLoop r1 k (String.length s) prev s caps.
Proof. reflexivity. Qed.

Lemma rmatch_LazyStar (r1 : regex) prev s caps k :
  rmatch (LazyStar r1) prev s caps k = lazyLoop r1 k (String.length s) prev s caps.
Proof. reflexivity. Qed.

(** What [rmatch] hands to its continuation. *)
Definition Sound (r : regex) : Prop :=
  forall prev s caps k res,
    rmatch r prev s caps k = Some res ->
    exists w s' caps',
      s = w ++ s' /\ Accepts r prev w s' caps' /\
      k (lastOf prev w) s' (caps ++ caps')%list = Some res.

Lemma orElse_some (a b : option result) (res : result) :
  orElse a b = Some res -> a = Some res \/ b = Some res.
Proof. destruct a; cbn; auto. Qed.

Lemma starLoop_sound (r1 : regex) (IH : Sound r1) k (n : nat) :
  forall prev s caps res,
    starLoop r1 k n prev s caps = Some res ->
    exists w s' caps',
      s = w ++ s' /\ Accepts (Star r1) prev w s' caps' /\
      k (lastOf prev w) s' (caps ++ caps')%list = Some res.
Proof.
  induction n as [|n IHn]; intros prev s caps res H; cbn [starLoop] in H.
  - exists EmptyString, s, []. rewrite app_nil_r. repeat split; [constructor | exact H].
  - apply orElse_some in H as [H|H].
    + apply IH in H as (w1 & s1 & caps1 & -> & Hacc & H).
      destruct (Nat.ltb _ _); [|discriminate].
      apply IHn in H as (w2 & s2 & caps2 & -> & Hacc2 & H).
      exists (w1 ++ w2), s2, (caps1 ++ caps2)%list.
      rewrite append_assoc, lastOf_app, app_assoc.
      repeat split; [|exact H]. now constructor.
    + exists EmptyString, s, []. rewrite app_nil_r.
      repeat split; [constructor | exact H].
Qed.

Lemma lazyLoop_sound (r1 : regex) (IH : Sound r1) k (n : nat) :
  forall prev s caps res,
    lazyLoop r1 k n prev s caps = Some res ->
    exists w s' caps',
      s = w ++ s' /\ Accepts (LazyStar r1) prev w s' caps' /\
      k (lastOf prev w) s' (caps ++ caps')%list = Some res.
Proof.
  induction n as [|n IHn]; intros prev s caps res H; cbn [lazyLoop] in H.
  - exists EmptyString, s, []. rewrite app_nil_r. repeat split; [constructor | exact H].
  - apply orElse_some in H as [H|H].
    + exists EmptyString, s, []. rewrite app_nil_r.
      repeat split; [constructor | exact H].
    + apply IH in H as (w1 & s1 & caps1 & -> & Hacc & H).
      destruct (Nat.ltb _ _); [|discriminate].
      apply IHn in H as (w2 & s2 & caps2 & -> & Hacc2 & H).
      exists (w1 ++ w2), s2, (caps1 ++ caps2)%list.
      rewrite append_assoc, lastOf_app, app_assoc.
      repeat split; [|exact H]. now constructor.
Qed.

Lemma rmatch_sound (r : regex) : Sound r.
Proof.
  induction r as [|p|r1 IH1 r2 IH2|r1 IH1 r2 IH2|r1 IH1|r1 IH1|m|m| |r1 IH1];
    intros prev s caps k res H.
  - exists EmptyString, s, []. rewrite app_nil_r.
    repeat split; [constructor | exact H].
  - cbn in H. destruct s as [|c s']; [discriminate|].
    destruct (p c) eqn:E; [|discriminate].
    exists (String c EmptyString), s', []. rewrite app_nil_r.
    repeat split; [now constructor | exact H].
  - cbn [rmatch] in H.
    apply IH1 in H as (w1 & s1 & caps1 & -> & Hacc1 & H).
    apply IH2 in H as (w2 & s2 & caps2 & -> & Hacc2 & H).
    exists (w1 ++ w2), s2, (caps1 ++ caps2)%list.
    rewrite append_assoc, lastOf_app, app_assoc.
    repeat split; [|exact H]. now constructor.
  - cbn [rmatch] in H. apply orElse_some in H as [H|H].
    + apply IH1 in H as (w & s' & caps' & -> & Hacc & H).
      exists w, s', caps'. repeat split; [|exact H]. now apply A_Alt_l.
    + apply IH2 in H as (w & s' & caps' & -> & Hacc & H).
      exists w, s', caps'. repeat split; [|exact H]. now apply A_Alt_r.
  - rewrite rmatch_Star in H. now apply (starLoop_sound r1 IH1) in H.
  - rewrite rmatch_LazyStar in H. now apply (lazyLoop_sound r1 IH1) in H.
  - cbn in H. destruct (atBol m prev) eqn:E; [|discriminate].
    exists EmptyString, s, []. rewrite app_nil_r.
    repeat split; [now constructor | exact H].
  - cbn in H. destruct (atEol m s) eqn:E; [|discriminate].
    exists EmptyString, s, []. rewrite app_nil_r.
    repeat split; [now constructor | exact H].
  - cbn in H. destruct (xorb _ _) eqn:E; [|discriminate].
    exists EmptyString, s, []. rewrite app_nil_r.
    repeat split; [now constructor | exact H].
  - cbn [rmatch] in H.
    apply IH1 in H as (w & s' & caps' & -> & Hacc & H).
    exists w, s', (caps' ++ [w])%list. rewrite consumed_app, <- app_assoc in H.
    repeat split; [|exact H]. now constructor.
Qed.

(** A successful [matchAt]: the text is the accepted part followed by
    what is left. *)
Lemma matchAt_sound (r : regex) prev s prev' s' caps :
  matchAt r prev s = Some (prev', s', caps) ->
  exists w, s = w ++ s' /\ Accepts r prev w s' caps /\ prev' = lastOf prev w.
Proof.
  unfold matchAt. intros H.
  apply rmatch_sound in H as (w & s1 & caps1 & -> & Hacc & H).
  injection H as <- <- <-. exists w. repeat split. exact Hacc.
Qed.

End RegExpFacts.

(* ================================================================== *)
(** ** Function headers                                              *)
(* ================================================================== *)

Module HeaderFacts.

Import RegExp LineFacts RegExpFacts Builder Editing.
Local Open Scope string_scope.

(** Every character of [s] is in the class [p]. *)
Fixpoint allOf (p : ascii -> bool) (s : string) : bool :=
  match s with
  | EmptyString => true
  | String c s' => p c && allOf p s'
  end.

(** The first character of [s], if there is one, is in the class [p]. *)
Definition headIn (p : ascii -> bool) (s : string) : bool :=
  match s with
  | EmptyString => false
  | String c _ => p c
  end.

Lemma isPlainName_allOf (s : string) : isPlainName s = allOf JS.isWord s.
Proof. induction s; cbn; congruence. Qed.

Lemma allOf_app (p : ascii -> bool) (a b : string) :
  allOf p (a ++ b) = allOf p a && allOf p b.
Proof. induction a; cbn; [reflexivity|]. now rewrite IHa, andb_assoc. Qed.

(** *** What the pieces of the patterns accept *)

Lemma Accepts_Lit (w0 : string) :
  forall prev w s caps, Accepts (Lit w0) prev w s caps -> w = w0 /\ caps = [].
Proof.
  induction w0 as [|c w0 IH]; intros prev w s caps H; cbn [Lit] in H.
  - inversion H; subst. auto.
  - inversion H as [| |? ? ? w1 w2 ? caps1 caps2 H1 H2| | | | | | | | | |]; subst.
    inversion H1; subst.
    apply IH in H2 as [-> ->].
    match goal with E : Ascii.eqb _ _ = true |- _ => apply Ascii.eqb_eq in E; subst end.
    auto.
Qed.

Lemma Accepts_Star_Cls (p : ascii -> bool) prev w s caps :
  Accepts (Star (Cls p)) prev w s caps -> allOf p w = true /\ caps = [].
Proof.
  remember (Star (Cls p)) as r eqn:Er. intros H.
  induction H; try discriminate.
  - auto.
  - injection Er as ->. inversion H; subst.
    destruct (IHAccepts2 eq_refl) as [Hw ->]. cbn.
    match goal with E : p _ = true |- _ => rewrite E end. auto.
Qed.

(** *** Running the pieces on a text of the right shape *)

Lemma rmatch_Lit (w : string) :
  forall prev s caps k,
    rmatch (Lit w) prev (w ++ s) caps k = k (lastOf prev w) s caps.
Proof.
  induction w as [|c w IH]; intros prev s caps k; cbn [Lit]; [reflexivity|].
  cbn [rmatch Chr append]. rewrite Ascii.eqb_refl. apply IH.
Qed.

Lemma length_lt_append (c : ascii) (w s : string) :
  Nat.ltb (String.length (w ++ s)) (String.length (String c (w ++ s))) = true.
Proof. apply Nat.ltb_lt. cbn. lia. Qed.

(** A greedy star over a class runs to the end of the run of characters
    of the class, and goes on from there if the rest of the pattern can. *)
Lemma starLoop_greedy (p : ascii -> bool) k (w : string) :
  forall n prev s caps res,
    String.length w <= n -> allOf p w = true -> headIn p s = false ->
    k (lastOf prev w) s caps = Some res ->
    starLoop (Cls p) k n prev (w ++ s) caps = Some res.
Proof.
  induction w as [|c w IH]; intros n prev s caps res Hn Hw Hs Hk.
  - cbn [append lastOf] in *. destruct n as [|n]; cbn [starLoop]; [exact Hk|].
    destruct s as [|c s]; cbn [rmatch]; [exact Hk|].
    cbn in Hs. rewrite Hs. exact Hk.
  - destruct n as [|n]; [cbn in Hn; lia|].
    cbn in Hw. apply andb_prop in Hw as [Hc Hw].
    cbn [starLoop append rmatch]. rewrite Hc.
    rewrite length_lt_append.
    rewrite (IH n (Some c) s caps res); [reflexivity | cbn in Hn; lia | auto ..].
Qed.

Lemma rmatch_Star_greedy (p : ascii -> bool) k (w : string) prev s caps res :
  allOf p w = true -> headIn p s = false ->
  k (lastOf prev w) s caps = Some res ->
  rmatch (Star (Cls p)) prev (w ++ s) caps k = Some res.
Proof.
  intros Hw Hs Hk. rewrite rmatch_Star.
  apply starLoop_greedy; auto. rewrite length_append. lia.
Qed.

(** *** Anchored patterns *)

Lemma exec_anchored_later (r : regex) (s : string) :
  forall c, exec (Seq (Bol false) r) (Some c) s = None.
Proof.
  induction s as [|c' s IH]; intros c; cbn; [reflexivity | apply IH].
Qed.

Lemma exec_anchored (r : regex) (s : string) :
  exec (Seq (Bol false) r) None s = matchAt (Seq (Bol false) r) None s.
Proof.
  destruct s as [|c s]; cbn [exec].
  - now destruct (matchAt _ _ _).
  - rewrite exec_anchored_later. now destruct (matchAt _ _ _).
Qed.

(** *** Inversion of [Accepts] *)

Lemma Accepts_Seq_inv (r1 r2 : regex) prev w s caps :
  Accepts (Seq r1 r2) prev w s caps ->
  exists w1 w2 caps1 caps2,
    w = w1 ++ w2 /\ caps = (caps1 ++ caps2)%list /\
    Accepts r1 prev w1 (w2 ++ s) caps1 /\
    Accepts r2 (lastOf prev w1) w2 s caps2.
Proof. intros H. inversion H; subst. eauto 10. Qed.

Lemma Accepts_Cls_inv (p : ascii -> bool) prev w s caps :
  Accepts (Cls p) prev w s caps ->
  exists c, w = String c EmptyString /\ p c = true /\ caps = [].
Proof. intros H. inversion H; subst. eauto. Qed.

Lemma Accepts_Group_inv (r : regex) prev w s caps :
  Accepts (Group r) prev w s caps ->
  exists caps1, caps = (caps1 ++ [w])%list /\ Accepts r prev w s caps1.
Proof. intros H. inversion H; subst. eauto. Qed.

Lemma Accepts_Bol_inv (m : bool) prev w s caps :
  Accepts (Bol m) prev w s caps ->
  w = EmptyString /\ caps = [] /\ atBol m prev = true.
Proof. intros H. inversion H; subst. auto. Qed.

Lemma Accepts_Plus_Cls (p : ascii -> bool) prev w s caps :
  Accepts (Plus (Cls p)) prev w s caps ->
  w <> EmptyString /\ allOf p w = true /\ caps = [].
Proof.
  unfold Plus. intros H.
  apply Accepts_Seq_inv in H as (w1 & w2 & caps1 & caps2 & -> & -> & H1 & H2).
  apply Accepts_Cls_inv in H1 as (c & -> & Hc & ->).
  apply Accepts_Star_Cls in H2 as [Hw ->].
  cbn. rewrite Hc, Hw. repeat split. discriminate.
Qed.

(** *** Function headers *)

(** An identifier: a letter or an underscore, then word characters. *)
Definition isName (s : string) : bool :=
  match s with
  | EmptyString => false
  | String c s' => JS.isIdentStart c && allOf JS.isWord s'
  end.

Definition notClosing (c : ascii) : bool := negb (Ascii.eqb c ")").

(** [def], white space, the name, white space, the parameters between
    parentheses, a colon, and whatever follows. *)
Definition headerLine (ws funcName ws' params tail : string) : string :=
  "def" ++ ws ++ funcName ++ ws' ++ "(" ++ params ++ "):" ++ tail.

Lemma matchHeader_shape (line funcName : string) :
  matchHeader line = Some funcName ->
  exists ws ws' params tail,
    line = headerLine ws funcName ws' params tail /\
    ws <> EmptyString /\ allOf JS.isSpace ws = true /\
    isName funcName = true /\
    allOf JS.isSpace ws' = true /\
    allOf notClosing params = true.
Proof.
  unfold matchHeader, captures, functionRegex. rewrite exec_anchored.
  destruct (matchAt _ None line) as [[[prev' s'] caps]|] eqn:E; [|discriminate].
  intros Hname. injection Hname as Hname.
  apply matchAt_sound in E as (w & -> & H & _).
  apply Accepts_Seq_inv in H as (w0 & w1 & c0 & c1 & -> & -> & H0 & H).
  apply Accepts_Bol_inv in H0 as (-> & -> & _).
  apply Accepts_Seq_inv in H as (w0 & w2 & c0 & c2 & -> & -> & H0 & H).
  apply Accepts_Lit in H0 as (-> & ->).
  apply Accepts_Seq_inv in H as (ws & w3 & c0 & c3 & -> & -> & H0 & H).
  apply Accepts_Plus_Cls in H0 as (Hws & Hws' & ->).
  apply Accepts_Seq_inv in H as (name & w4 & c0 & c4 & -> & -> & H0 & H).
  apply Accepts_Group_inv in H0 as (c5 & -> & H0).
  apply Accepts_Seq_inv in H0 as (n1 & n2 & c6 & c7 & -> & -> & H1 & H2).
  apply Accepts_Cls_inv in H1 as (c & -> & Hc & ->).
  apply Accepts_Star_Cls in H2 as [Hn2 ->].
  apply Accepts_Seq_inv in H as (ws' & w5 & c0 & c5 & -> & -> & H0 & H).
  apply Accepts_Star_Cls in H0 as [Hws2 ->].
  apply Accepts_Seq_inv in H as (w6 & w7 & c0 & c6 & -> & -> & H0 & H).
  apply Accepts_Cls_inv in H0 as (c' & -> & Hc' & ->).
  apply Ascii.eqb_eq in Hc'. subst c'.
  apply Accepts_Seq_inv in H as (params & w8 & c0 & c7 & -> & -> & H0 & H).
  apply Accepts_Group_inv in H0 as (c8 & -> & H0).
  apply Accepts_Star_Cls in H0 as [Hparams ->].
  apply Accepts_Lit in H as (-> & ->).
  cbn in Hname. subst funcName.
  exists ws, ws', params, s'. unfold headerLine.
  repeat split; auto.
  - cbn [append]. repeat (rewrite append_assoc; cbn [append]). reflexivity.
  - cbn [append isName]. now rewrite Hc.
Qed.

Lemma identStart_not_space (c : ascii) :
  JS.isIdentStart c = true -> JS.isSpace c = false.
Proof. destruct c as [[] [] [] [] [] [] [] []]; vm_compute; congruence. Qed.

Lemma space_not_word (c : ascii) : JS.isSpace c = true -> JS.isWord c = false.
Proof. destruct c as [[] [] [] [] [] [] [] []]; vm_compute; congruence. Qed.

Lemma identStart_word (c : ascii) : JS.isIdentStart c = true -> JS.isWord c = true.
Proof. unfold JS.isWord. now intros ->. Qed.

Lemma headIn_spaces (p : ascii -> bool) (ws rest : string) :
  allOf JS.isSpace ws = true ->
  (forall c, JS.isSpace c = true -> p c = false) ->
  headIn p rest = false ->
  headIn p (ws ++ rest) = false.
Proof.
  intros Hws Hp Hrest. destruct ws as [|c ws]; [exact Hrest|].
  cbn in *. apply andb_prop in Hws as [Hc _]. now apply Hp.
Qed.

Lemma rmatch_Seq (r1 r2 : regex) prev s caps k :
  rmatch (Seq r1 r2) prev s caps k
  = rmatch r1 prev s caps (fun prev' s' caps' => rmatch r2 prev' s' caps' k).
Proof. reflexivity. Qed.

Lemma rmatch_Group (r1 : regex) prev s caps k :
  rmatch (Group r1) prev s caps k
  = rmatch r1 prev s caps
      (fun prev' s' caps' => k prev' s' (caps' ++ [consumed s s'])%list).
Proof. reflexivity. Qed.

Lemma rmatch_Cls (p : ascii -> bool) prev c s caps k :
  p c = true -> rmatch (Cls p) prev (String c s) caps k = k (Some c) s caps.
Proof. intros H. cbn. now rewrite H. Qed.

Lemma rmatch_Bol_start (m : bool) s caps k :
  rmatch (Bol m) None s caps k = k None s caps.
Proof. reflexivity. Qed.

Lemma matchAt_headerLine (ws funcName ws' params tail : string) :
  ws <> EmptyString -> allOf JS.isSpace ws = true ->
  isName funcName = true ->
  allOf JS.isSpace ws' = true ->
  allOf notClosing params = true ->
  exists prev',
    matchAt functionRegex None (headerLine ws funcName ws' params tail)
    = Some (prev', tail, [funcName; params]).
Proof.
  intros Hne Hws Hname Hws' Hparams. eexists.
  unfold matchAt, functionRegex, headerLine, Plus, Space.
  destruct ws as [|c ws]; [congruence|]. clear Hne.
  destruct funcName as [|c' n']; [discriminate|].
  cbn [allOf isName] in Hws, Hname.
  apply andb_prop in Hws as [Hc Hws]. apply andb_prop in Hname as [Hc' Hn'].
  rewrite rmatch_Seq, rmatch_Bol_start, rmatch_Seq, rmatch_Lit.
  rewrite !rmatch_Seq. cbn [append].
  rewrite (rmatch_Cls _ _ _ _ _ _ Hc).
  apply rmatch_Star_greedy; [exact Hws | cbn; now apply identStart_not_space |].
  rewrite rmatch_Seq, rmatch_Group, rmatch_Seq.
  rewrite (rmatch_Cls _ _ _ _ _ _ Hc').
  apply rmatch_Star_greedy; [exact Hn' | |].
  { apply headIn_spaces; [exact Hws' | apply space_not_word | reflexivity]. }
  match goal with
  | |- context [consumed (String c' (n' ++ ?rest)) ?rest] =>
      change (String c' (n' ++ rest)) with (String c' n' ++ rest);
      rewrite (consumed_app (String c' n') rest)
  end.
  rewrite rmatch_Seq.
  apply rmatch_Star_greedy; [exact Hws' | reflexivity |].
  rewrite rmatch_Seq. unfold Chr. cbn [append].
  rewrite rmatch_Cls by reflexivity.
  rewrite rmatch_Seq, rmatch_Group.
  apply rmatch_Star_greedy; [exact Hparams | reflexivity |].
  rewrite consumed_app.
  change (String ")" (String ":" tail)) with ("):" ++ tail).
  rewrite rmatch_Lit. reflexivity.
Qed.

(** X4: the headers that the builder recognises, and the name it takes
    from each: a line is a header of [funcName] exactly when it is [def],
    white space, the identifier [funcName], white space or none, the
    parameters (any text without a closing parenthesis) between
    parentheses, a colon, and whatever follows. *)
Theorem matchHeader_iff (line funcName : string) :
  matchHeader line = Some funcName <->
  exists ws ws' params tail,
    line = headerLine ws funcName ws' params tail /\
    ws <> EmptyString /\ allOf JS.isSpace ws = true /\
    isName funcName = true /\
    allOf JS.isSpace ws' = true /\
    allOf notClosing params = true.
Proof.
  split; [apply matchHeader_shape|].
  intros (ws & ws' & params & tail & -> & Hne & Hws & Hname & Hws' & Hparams).
  destruct (matchAt_headerLine ws funcName ws' params tail Hne Hws Hname Hws' Hparams)
    as [prev' H].
  unfold matchHeader, captures. unfold functionRegex at 1.
  rewrite exec_anchored. fold functionRegex. now rewrite H.
Qed.

Lemma word_not_space (c : ascii) : JS.isWord c = true -> JS.isSpace c = false.
Proof. destruct c as [[] [] [] [] [] [] [] []]; vm_compute; congruence. Qed.

Lemma isName_plain (funcName : string) :
  isName funcName = true ->
  isPlainName funcName = true /\ funcName <> EmptyString.
Proof.
  destruct funcName as [|c n]; [discriminate|]. cbn [isName isPlainName].
  intros H. apply andb_prop in H as [Hc Hn].
  rewrite (identStart_word c Hc), isPlainName_allOf, Hn. split; [reflexivity | discriminate].
Qed.

(** A line that the pattern of [replaceFunctionInCode] matches. *)
Lemma headerOf_shape (funcName line : string) :
  test (headerOf funcName) line = true ->
  exists ws ws' tail,
    line = "def" ++ ws ++ funcName ++ ws' ++ "(" ++ tail /\
    ws <> EmptyString /\ allOf JS.isSpace ws = true /\
    allOf JS.isSpace ws' = true.
Proof.
  unfold test, headerOf. rewrite exec_anchored.
  destruct (matchAt _ None line) as [[[prev' s'] caps]|] eqn:E; [|discriminate].
  intros _. apply matchAt_sound in E as (w & -> & H & _).
  apply Accepts_Seq_inv in H as (w0 & w1 & c0 & c1 & -> & -> & H0 & H).
  apply Accepts_Bol_inv in H0 as (-> & -> & _).
  apply Accepts_Seq_inv in H as (w0 & w2 & c0 & c2 & -> & -> & H0 & H).
  apply Accepts_Lit in H0 as (-> & ->).
  apply Accepts_Seq_inv in H as (ws & w3 & c0 & c3 & -> & -> & H0 & H).
  apply Accepts_Plus_Cls in H0 as (Hws & Hws' & ->).
  apply Accepts_Seq_inv in H as (name & w4 & c0 & c4 & -> & -> & H0 & H).
  apply Accepts_Lit in H0 as (-> & ->).
  apply Accepts_Seq_inv in H as (ws' & w5 & c0 & c5 & -> & -> & H0 & H).
  apply Accepts_Star_Cls in H0 as [Hws2 ->].
  apply Accepts_Cls_inv in H as (c' & -> & Hc' & ->).
  apply Ascii.eqb_eq in Hc'. subst c'.
  exists ws, ws', s'. repeat split; auto.
  cbn [append]. repeat (rewrite append_assoc; cbn [append]). reflexivity.
Qed.

(** A line that starts like a header of a plain name is matched. *)
Lemma headerOf_matches (funcName ws ws' tail : string) :
  isPlainName funcName = true -> funcName <> EmptyString ->
  ws <> EmptyString -> allOf JS.isSpace ws = true -> allOf JS.isSpace ws' = true ->
  test (headerOf funcName) ("def" ++ ws ++ funcName ++ ws' ++ "(" ++ tail) = true.
Proof.
  intros Hplain Hne Hws0 Hws Hws'. unfold test, headerOf. rewrite exec_anchored.
  destruct ws as [|c ws]; [congruence|]. clear Hws0.
  destruct funcName as [|c' n']; [congruence|].
  cbn [allOf isPlainName] in Hws, Hplain.
  apply andb_prop in Hws as [Hc Hws]. apply andb_prop in Hplain as [Hc' _].
  unfold matchAt, Plus, Space.
  rewrite rmatch_Seq, rmatch_Bol_start, rmatch_Seq, rmatch_Lit.
  rewrite !rmatch_Seq. cbn [append].
  rewrite (rmatch_Cls _ _ _ _ _ _ Hc).
  erewrite rmatch_Star_greedy;
    [reflexivity | exact Hws | cbn; now apply word_not_space |].
  rewrite rmatch_Seq.
  change (String c' (n' ++ ws' ++ String "(" tail))
    with (String c' n' ++ (ws' ++ String "(" tail)).
  rewrite rmatch_Lit, rmatch_Seq.
  apply rmatch_Star_greedy; [exact Hws' | reflexivity |].
  unfold Chr. rewrite rmatch_Cls by reflexivity. reflexivity.
Qed.

(** X5: the lines that the pattern of [replaceFunctionInCode] matches, for
    a plain name that is not empty: [def], white space, the name, white
    space or none, an opening parenthesis, and whatever follows; it does
    not ask for the closing parenthesis and the colon that the builder
    asks for. *)
Theorem headerOf_iff (funcName line : string) :
  isPlainName funcName = true -> funcName <> EmptyString ->
  (test (headerOf funcName) line = true <->
   exists ws ws' tail,
     line = "def" ++ ws ++ funcName ++ ws' ++ "(" ++ tail /\
     ws <> EmptyString /\ allOf JS.isSpace ws = true /\
     allOf JS.isSpace ws' = true).
Proof.
  intros Hplain Hne. split; [apply headerOf_shape|].
  intros (ws & ws' & tail & -> & Hws0 & Hws & Hws').
  now apply headerOf_matches.
Qed.

(** The pattern that the editor makes from a name of the builder matches
    the header that the name was taken from. *)
Lemma matchHeader_headerOf (line funcName : string) :
  matchHeader line = Some funcName ->
  isPlainName funcName = true /\ test (headerOf funcName) line = true.
Proof.
  intros H.
  apply matchHeader_shape in H
    as (ws & ws' & params & tail & -> & Hne & Hws & Hname & Hws' & _).
  destruct (isName_plain _ Hname) as [Hplain Hne'].
  split; [exact Hplain|].
  now apply (headerOf_matches funcName ws ws' (params ++ "):" ++ tail)).
Qed.

End HeaderFacts.

(* ================================================================== *)
(** ** Calls                                                           *)
(* ================================================================== *)

Module CallFacts.

Import RegExp LineFacts RegExpFacts HeaderFacts Builder BuilderFacts.
Local Open Scope list_scope.
Local Open Scope string_scope.

(** [text] holds a call of [name]: the name, followed by an opening
    parenthesis, at a place that is the start of the text or comes after a
    character that is no letter, digit or underscore. *)
Definition calledIn (name text : string) : Prop :=
  exists before after,
    text = (before ++ name ++ "(" ++ after)%string /\
    isWordOpt (lastOf None before) = false.

(** The text in which the second pass looks for a call of [t] from the
    function node [s] of code [c]: [bodyOnly] for the name of [s] itself. *)
Definition searched (s : NodeData) (c t : string) : string :=
  if String.eqb (label s) t then JS.join_nl (tl (JS.split_nl c)) else c.

(** *** The search of [exec] *)

Lemma exec_some (r : regex) (s : string) :
  forall prev res,
    exec r prev s = Some res ->
    exists before rest,
      s = (before ++ rest)%string /\ matchAt r (lastOf prev before) rest = Some res.
Proof.
  induction s as [|c s IH]; intros prev res H; cbn [exec] in H.
  - destruct (matchAt r prev EmptyString) as [m|] eqn:E; [|discriminate].
    injection H as <-. exists EmptyString, EmptyString. auto.
  - destruct (matchAt r prev (String c s)) as [m|] eqn:E.
    + injection H as <-. exists EmptyString, (String c s). auto.
    + apply IH in H as (before & rest & -> & H).
      exists (String c before), rest. auto.
Qed.

Lemma exec_found (r : regex) (before rest : string) :
  forall prev res,
    matchAt r (lastOf prev before) rest = Some res ->
    exists res', exec r prev (before ++ rest) = Some res'.
Proof.
  induction before as [|c before IH]; intros prev res H; cbn [append lastOf] in *.
  - destruct rest as [|c rest]; cbn [exec]; rewrite H; eauto.
  - cbn [exec]. destruct (matchAt r prev _) as [m|]; [eauto|].
    now apply (IH (Some c) res).
Qed.

(** *** The pattern of a call *)

Lemma isName_head (name : string) :
  isName name = true -> forall s, isWordOpt (next (name ++ s)) = true.
Proof.
  destruct name as [|c name]; [discriminate|]. cbn. intros H s.
  apply andb_prop in H as [H _]. now apply identStart_word.
Qed.

Lemma matchAt_call (name after : string) (prev : option ascii) :
  isName name = true -> isWordOpt prev = false ->
  matchAt (callRegex name) prev (name ++ "(" ++ after)
  = Some (Some "("%char, after, []).
Proof.
  intros Hname Hprev. unfold matchAt, callRegex.
  rewrite rmatch_Seq.
  change (rmatch WordBoundary prev (name ++ "(" ++ after) [] ?k)
    with (if xorb (isWordOpt prev) (isWordOpt (next (name ++ "(" ++ after)))
          then k prev (name ++ "(" ++ after) [] else None).
  rewrite Hprev, (isName_head _ Hname). cbn [xorb].
  rewrite rmatch_Seq, rmatch_Lit. unfold Chr.
  cbn [append]. now rewrite rmatch_Cls by reflexivity.
Qed.

Lemma Accepts_call (name : string) prev w s caps :
  isName name = true ->
  Accepts (callRegex name) prev w s caps ->
  w = (name ++ "(")%string /\ isWordOpt prev = false.
Proof.
  intros Hname H. unfold callRegex in H.
  apply Accepts_Seq_inv in H as (w1 & w2 & caps1 & caps2 & -> & -> & H1 & H2).
  apply Accepts_Seq_inv in H2 as (w3 & w4 & caps3 & caps4 & -> & -> & H3 & H4).
  apply Accepts_Lit in H3 as [-> ->].
  apply Accepts_Cls_inv in H4 as (c & -> & Hc & ->).
  apply Ascii.eqb_eq in Hc. subst c.
  inversion H1 as [| | | | | | | | | | |? ? Hx|]; subst.
  cbn [append]. split; [reflexivity|].
  rewrite append_assoc, (isName_head _ Hname) in Hx.
  now destruct (isWordOpt prev).
Qed.

(** The pattern made for an identifier finds exactly the calls of it. *)
Lemma test_callRegex (name text : string) :
  isName name = true ->
  (test (callRegex name) text = true <-> calledIn name text).
Proof.
  intros Hname. unfold test, calledIn. split.
  - destruct (exec (callRegex name) None text) as [[[prev' s'] caps]|] eqn:E;
      [intros _ | discriminate].
    apply exec_some in E as (before & rest & -> & E).
    apply matchAt_sound in E as (w & -> & Hacc & _).
    apply (Accepts_call name) in Hacc as [-> Hprev]; [|exact Hname].
    exists before, s'. split; [|exact Hprev].
    now rewrite append_assoc.
  - intros (before & after & -> & Hprev).
    destruct (exec_found (callRegex name) before (name ++ "(" ++ after) None _
                (matchAt_call name after _ Hname Hprev)) as [res ->].
    reflexivity.
Qed.

(** *** The names that the builder knows *)

Lemma headerNames_in (lines : list string) (t : string) :
  In t (headerNames lines) -> exists line, In line lines /\ matchHeader line = Some t.
Proof.
  induction lines as [|line lines IH]; cbn [headerNames]; [intros []|].
  destruct (matchHeader line) as [f|] eqn:E.
  - intros [->|H]; [exists line; split; [now left | exact E]|].
    destruct (IH H) as (l & Hl & Hm). exists l. split; [now right | exact Hm].
  - intros H. destruct (IH H) as (l & Hl & Hm). exists l. split; [now right | exact Hm].
Qed.

Lemma names_are_identifiers (files : FileMap) (t : string) :
  In t (allNames files) -> isName t = true.
Proof.
  unfold allNames, namesIn. rewrite in_flat_map. intros (e & _ & H).
  apply headerNames_in in H as (line & _ & H).
  apply matchHeader_shape in H as (ws & ws' & params & tail & _ & _ & _ & H & _).
  exact H.
Qed.

Section WithRuntime.

Variables Math_cos Math_sin Math_floor : float -> float.
Variable Math_random : nat -> float.

Local Abbreviation generateGraphFromFiles :=
  (Builder.generateGraphFromFiles Math_cos Math_sin Math_floor Math_random).
Local Abbreviation firstPass :=
  (Builder.firstPass Math_cos Math_sin Math_floor Math_random).

(** C6: the known function names are the labels of the function nodes,
    and each is an identifier.  For a function node [s] and a known
    function name [t], the Calls link from [s] to [fn-t] is pushed for [s]
    exactly when the text searched holds [t] followed by an opening
    parenthesis at the start of the text or after a character that is no
    letter, digit or underscore; the text searched is the code of [s]
    without its first line if [t] is the name of [s], and the whole code of
    [s] otherwise.  So a Calls link from [src] to [fn-t] is in the graph
    exactly when a function node with id [src] holds such a call.  Scenario
    C yields the self-loop, scenarios A and B do not; a call of [xg] is no
    call of [g], and neither is [g] without a parenthesis. *)
Theorem calls_edges (files : FileMap) :
  links (generateGraphFromFiles files)
    = (fileLinks files
       ++ flat_map (callsFrom (definedFunctions (firstPass files)))
                   (filter isFunction (nodes (generateGraphFromFiles files))))%list
  /\
  map label (filter isFunction (nodes (generateGraphFromFiles files)))
    = allNames files
  /\
  (forall t, In t (allNames files) -> isName t = true)
  /\
  (forall s t,
      In s (nodes (generateGraphFromFiles files)) -> isFunction s = true ->
      In t (allNames files) ->
      exists c, code s = Some c /\
        (In (callLink (id s) t) (callsFrom (definedFunctions (firstPass files)) s)
         <-> calledIn t (searched s c t)))
  /\
  (forall src t,
      In (callLink src t) (links (generateGraphFromFiles files)) <->
      exists s c,
        In s (nodes (generateGraphFromFiles files)) /\ isFunction s = true /\
        id s = src /\ code s = Some c /\ In t (allNames files) /\
        calledIn t (searched s c t))
  /\
  links (generateGraphFromFiles Scenario.scenarioC)
    = [importLink "file-a.py" "f"; callLink "fn-f" "f"]
  /\
  links (generateGraphFromFiles Scenario.scenarioA)
    = [importLink "file-a.py" "f"]
  /\
  links (generateGraphFromFiles Scenario.scenarioB)
    = [importLink "file-a.py" "f"; importLink "file-a.py" "g"; callLink "fn-f" "g"]
  /\
  links (generateGraphFromFiles Scenario.callsLongerName)
    = [importLink "file-a.py" "f"; importLink "file-a.py" "g"]
  /\
  links (generateGraphFromFiles Scenario.namesWithoutCall)
    = [importLink "file-a.py" "f"; importLink "file-a.py" "g"].
Proof.
  destruct (calls_by_pattern Math_cos Math_sin Math_floor Math_random files)
    as (Hlinks & Hlabels & Hper & Hall & HC & HA & HB).
  split; [exact Hlinks|]. split; [exact Hlabels|].
  split; [apply names_are_identifiers|]. split; [|split].
  - intros s t Hs Hf Ht. destruct (Hper s t Hs Hf Ht) as (c & Hc & Hiff).
    exists c. split; [exact Hc|]. rewrite Hiff. unfold searched.
    apply test_callRegex. now apply (names_are_identifiers files).
  - intros src t. rewrite Hall. split.
    + intros (s & c & Hs & Hf & Hid & Hc & Ht & Htest). exists s, c.
      repeat split; auto.
      apply test_callRegex; [now apply (names_are_identifiers files) | exact Htest].
    + intros (s & c & Hs & Hf & Hid & Hc & Ht & Hcall). exists s, c.
      repeat split; auto.
      apply test_callRegex; [now apply (names_are_identifiers files) | exact Hcall].
  - split; [exact HC|]. split; [exact HA|]. split; [exact HB|].
    split; unfold Builder.generateGraphFromFiles; cbn [links];
      rewrite firstPass_view; vm_compute; reflexivity.
Qed.

End WithRuntime.

(** Scenario B through the theorem: the code of [f] holds a call of [g]
    after a space, so the graph holds the Calls link from [fn-f] to
    [fn-g]. *)
Lemma calls_edges_witness :
  calledIn "g" (Scenario.line "def f():" ++ Scenario.line "    return g()") /\
  In (callLink "fn-f" "g")
     (links (Scenario.generate (Scenario.always 0.5) Scenario.scenarioB)).
Proof.
  assert (Hcall : calledIn "g" (Scenario.line "def f():"
                                ++ Scenario.line "    return g()")).
  { exists ("def f():" ++ JS.nl ++ "    return "), (")" ++ JS.nl).
    split; reflexivity. }
  split; [exact Hcall|].
  apply (proj1 (proj2 (proj2 (proj2 (proj2
           (calls_edges Scenario.hostCos Scenario.hostSin Scenario.hostFloor
              (Scenario.always 0.5) Scenario.scenarioB))))) "fn-f" "g").
  exists (Builder.functionNode Scenario.hostFloor (Scenario.always 0.5) "f"
            (Scenario.line "def f():" ++ Scenario.line "    return g()")
            (Scenario.hostCos 0 * Builder.ORBIT_RADIUS)
            (Scenario.hostSin 0 * Builder.ORBIT_RADIUS) 0),
         (Scenario.line "def f():" ++ Scenario.line "    return g()").
  split; [right; left; vm_compute; reflexivity|].
  split; [reflexivity|]. split; [reflexivity|]. split; [reflexivity|].
  split; [right; left; reflexivity|].
  exact Hcall.
Defined.

End CallFacts.

(* ================================================================== *)
(** ** Blocks of lines                                               *)
(* ================================================================== *)

Module BlockFacts.

Import RegExp RegExpFacts HeaderFacts Builder Editing LineFacts ReplaceFacts.
Local Open Scope string_scope.
Local Open Scope list_scope.

(** *** [trim] *)

Lemma trimStart_empty (s : string) :
  JS.trimStart s = EmptyString <-> allOf JS.isSpace s = true.
Proof.
  induction s as [|c s IH]; cbn [JS.trimStart allOf]; [tauto|].
  destruct (JS.isSpace c); cbn [andb]; [exact IH|]. split; discriminate.
Qed.

Lemma rev_string_empty (s : string) :
  forall acc, JS.rev_string acc s = EmptyString <-> acc = EmptyString /\ s = EmptyString.
Proof.
  induction s as [|c s IH]; intros acc; cbn.
  - tauto.
  - rewrite IH. split; [intros [? _] | intros [_ ?]]; discriminate.
Qed.

Lemma allOf_rev_string (p : ascii -> bool) (s : string) :
  forall acc, allOf p (JS.rev_string acc s) = allOf p acc && allOf p s.
Proof.
  induction s as [|c s IH]; intros acc; cbn [JS.rev_string allOf].
  - now rewrite andb_true_r.
  - rewrite IH. cbn [allOf]. destruct (p c), (allOf p acc), (allOf p s); reflexivity.
Qed.

Lemma allOf_trimStart (s : string) :
  allOf JS.isSpace (JS.trimStart s) = allOf JS.isSpace s.
Proof.
  induction s as [|c s IH]; cbn [JS.trimStart allOf]; [reflexivity|].
  destruct (JS.isSpace c) eqn:E; cbn [allOf andb]; [exact IH | now rewrite E].
Qed.

(** A text trims to nothing exactly when it is white space only. *)
Lemma trim_empty (s : string) :
  JS.trim s = EmptyString <-> allOf JS.isSpace s = true.
Proof.
  unfold JS.trim. rewrite rev_string_empty, trimStart_empty, allOf_rev_string.
  cbn [allOf andb]. rewrite allOf_trimStart. tauto.
Qed.

(** A line that starts with [d] ends a block. *)
Lemma def_ends_block (rest : string) : endsBlock (String "d" rest) = true.
Proof.
  unfold endsBlock.
  destruct (String.eqb (JS.trim (String "d" rest)) EmptyString) eqn:E.
  - apply String.eqb_eq, trim_empty in E. discriminate.
  - reflexivity.
Qed.

Lemma header_ends_block (line funcName : string) :
  matchHeader line = Some funcName -> endsBlock line = true.
Proof.
  intros H. apply matchHeader_shape in H as (ws & ws' & params & tail & -> & _).
  apply def_ends_block.
Qed.

(** A line of a body is no header: it is blank or starts with a space, a
    tab, [#] or [@]. *)
Lemma body_line_no_header (line : string) :
  endsBlock line = false -> matchHeader line = None.
Proof.
  intros H. destruct (matchHeader line) as [funcName|] eqn:E; [|reflexivity].
  apply header_ends_block in E. congruence.
Qed.

(** *** Bodies and what follows them *)

Lemma takeBody_body (rest : list string) :
  Forall (fun l => endsBlock l = false) (takeBody rest).
Proof.
  induction rest as [|line rest IH]; [constructor|].
  rewrite takeBody_endsBlock. destruct (endsBlock line) eqn:E; now constructor.
Qed.

(** The lines after a body: none, or a first line that ends the block. *)
Definition startsBlock (after : list string) : Prop :=
  match after with
  | [] => True
  | line :: _ => endsBlock line = true
  end.

Lemma after_body (rest : list string) :
  startsBlock (skipn (List.length (takeBody rest)) rest).
Proof.
  induction rest as [|line rest IH]; [exact I|].
  rewrite takeBody_endsBlock. destruct (endsBlock line) eqn:E; [exact E | exact IH].
Qed.

Lemma takeBody_after (after : list string) :
  startsBlock after -> takeBody after = [].
Proof.
  destruct after as [|line after]; [reflexivity|]. cbn [startsBlock].
  intros E. now rewrite takeBody_endsBlock, E.
Qed.

Lemma takeBody_app (body after : list string) :
  Forall (fun l => endsBlock l = false) body ->
  takeBody (body ++ after) = body ++ takeBody after.
Proof.
  induction 1 as [|line body E _ IH]; [reflexivity|].
  cbn [app]. now rewrite takeBody_endsBlock, E, IH.
Qed.

(** A body stops at the next line that ends a block, whatever that line
    and the lines after it are. *)
Lemma takeBody_upto (x : list string) (h h' : string) (y y' : list string) :
  endsBlock h = true -> endsBlock h' = true ->
  takeBody (x ++ h :: y) = takeBody (x ++ h' :: y').
Proof.
  intros E E'. induction x as [|line x IH]; cbn [app].
  - now rewrite !takeBody_endsBlock, E, E'.
  - rewrite !takeBody_endsBlock. now rewrite IH.
Qed.

Lemma headerNames_app (a b : list string) :
  headerNames (a ++ b) = (headerNames a ++ headerNames b)%list.
Proof.
  induction a as [|line a IH]; [reflexivity|]. cbn [app headerNames].
  destruct (matchHeader line); [cbn [app]|]; now rewrite IH.
Qed.

Lemma headerNames_body (body : list string) :
  Forall (fun l => endsBlock l = false) body -> headerNames body = [].
Proof.
  induction 1 as [|line body E _ IH]; [reflexivity|].
  cbn [headerNames]. now rewrite (body_line_no_header line E).
Qed.

Section FunctionNodes.

Variable Math_floor : float -> float.
Variable Math_random : nat -> float.
Variables initialX initialY : float.

Local Abbreviation functionNodes :=
  (Builder.functionNodes Math_floor Math_random initialX initialY).

Lemma functionNodes_body (body after : list string) (d : nat) :
  Forall (fun l => endsBlock l = false) body ->
  functionNodes (body ++ after) d = functionNodes after d.
Proof.
  induction 1 as [|line body E _ IH]; [reflexivity|].
  cbn [app Builder.functionNodes]. now rewrite (body_line_no_header line E).
Qed.

(** The nodes of the functions before a line that ends a block do not
    depend on that line nor on what follows it. *)
Lemma functionNodes_before (before : list string) :
  forall d, exists pre,
    forall h y, endsBlock h = true ->
      functionNodes (before ++ h :: y) d
      = (pre ++ functionNodes (h :: y)
                 (d + 3 * List.length (headerNames before)))%list.
Proof.
  induction before as [|line before IH]; intros d.
  - exists []. intros h y _. cbn. now rewrite Nat.add_0_r.
  - cbn [app Builder.functionNodes headerNames].
    destruct (matchHeader line) as [funcName|] eqn:E.
    + destruct (IH (d + 3)) as [pre Hpre].
      exists (functionNode Math_floor Math_random funcName
                (JS.join_nl (line :: takeBody (before ++ ["d"])))
                initialX initialY d :: pre).
      intros h y Hh. rewrite (Hpre h y Hh). cbn [app List.length].
      rewrite (takeBody_upto before h "d" y [] Hh (def_ends_block EmptyString)).
      replace (d + 3 * S (List.length (headerNames before)))
        with (d + 3 + 3 * List.length (headerNames before)) by lia.
      reflexivity.
    + destruct (IH d) as [pre Hpre]. exists pre. exact Hpre.
Qed.

(** The function nodes of a file before and after the block of one
    function is replaced by another block for the same name: one node
    differs, and only in its code. *)
Lemma functionNodes_replaced (before rest body' : list string)
    (h h' funcName : string) (d : nat) :
  matchHeader h = Some funcName ->
  matchHeader h' = Some funcName ->
  Forall (fun l => endsBlock l = false) body' ->
  exists pre post k,
    functionNodes (before ++ h :: rest) d
    = (pre ++ functionNode Math_floor Math_random funcName
                (JS.join_nl (h :: takeBody rest)) initialX initialY k
           :: post)%list /\
    functionNodes
      (before ++ (h' :: body') ++ skipn (List.length (takeBody rest)) rest) d
    = (pre ++ functionNode Math_floor Math_random funcName
                (JS.join_nl (h' :: body')) initialX initialY k
           :: post)%list.
Proof.
  intros Hh Hh' Hbody.
  destruct (functionNodes_before before d) as [pre Hpre].
  destruct (scanEnd_takeBody rest 0) as [_ Hrest].
  set (after := skipn (List.length (takeBody rest)) rest) in *.
  exists pre, (functionNodes after (d + 3 * List.length (headerNames before) + 3)),
         (d + 3 * List.length (headerNames before)).
  rewrite (Hpre h rest (header_ends_block _ _ Hh)).
  cbn [app]. rewrite (Hpre h' (body' ++ after) (header_ends_block _ _ Hh')).
  cbn [Builder.functionNodes]. rewrite Hh, Hh'.
  rewrite (takeBody_app body' after Hbody).
  rewrite (takeBody_after after (after_body rest)), app_nil_r.
  rewrite (functionNodes_body body' after _ Hbody).
  split; [|reflexivity].
  do 2 f_equal. rewrite Hrest at 1.
  apply functionNodes_body, takeBody_body.
Qed.

End FunctionNodes.

Lemma findBlock_upto (funcName h : string) (before rest : list string) :
  RegExp.test (headerOf funcName) h = true ->
  forall i, exists startLine endLine,
    findBlock funcName (before ++ h :: rest) i = Some (startLine, endLine) /\
    i <= startLine <= i + List.length before.
Proof.
  intros Hh. induction before as [|line before IH]; intros i; cbn [app findBlock].
  - rewrite Hh. eexists _, _. split; [reflexivity | cbn; lia].
  - destruct (RegExp.test (headerOf funcName) line).
    + eexists _, _. split; [reflexivity | cbn; lia].
    + destruct (IH (S i)) as (s & e & -> & Hs). exists s, e.
      split; [reflexivity | cbn; lia].
Qed.

Lemma findBlock_first (funcName h : string) (before rest : list string) :
  RegExp.test (headerOf funcName) h = true ->
  Forall (fun l => RegExp.test (headerOf funcName) l = false) before ->
  forall i,
    findBlock funcName (before ++ h :: rest) i
    = Some (i + List.length before,
            S (i + List.length before + List.length (takeBody rest))).
Proof.
  intros Hh Hb. induction Hb as [|line before Hl _ IH]; intros i; cbn [app findBlock].
  - rewrite Hh. destruct (scanEnd_takeBody rest (S i)) as [-> _].
    cbn [List.length]. rewrite Nat.add_0_r. reflexivity.
  - rewrite Hl, IH. cbn [List.length]. do 2 f_equal; lia.
Qed.

(** X6: the editor finds every function that the builder has made a node
    for.  In a file in which [h] is a header that the builder recognises
    for [funcName], the name is plain and [replaceFunctionInCode] finds a
    block for it, at that header or before it; if no line before the header
    is matched by the editor's pattern, the block is the header and the
    body that the builder has taken for the node. *)
Theorem builder_function_is_found (before rest : list string) (h funcName : string) :
  matchHeader h = Some funcName ->
  isPlainName funcName = true /\
  (exists startLine endLine,
      findBlock funcName (before ++ h :: rest) 0 = Some (startLine, endLine) /\
      startLine <= List.length before) /\
  (Forall (fun l => RegExp.test (headerOf funcName) l = false) before ->
   findBlock funcName (before ++ h :: rest) 0
   = Some (List.length before,
           S (List.length before + List.length (takeBody rest)))).
Proof.
  intros Hh. destruct (matchHeader_headerOf h funcName Hh) as [Hplain Htest].
  split; [exact Hplain|]. split.
  - destruct (findBlock_upto funcName h before rest Htest 0) as (s & e & H & Hs).
    exists s, e. split; [exact H | lia].
  - intros Hb. exact (findBlock_first funcName h before rest Htest Hb 0).
Qed.

End BlockFacts.

(* ================================================================== *)
(** ** Invariants of the stored graph                                  *)
(* ================================================================== *)

Module StoredFacts.

Import Builder Merge Semantic Editing App.
Import HeaderFacts BuilderFacts MergeFacts SemanticFacts.

(** Both ends of every link are ids of nodes. *)
Definition closed (g : GraphData) : Prop :=
  forall l, In l (links g) ->
    In (source l) (ids (nodes g)) /\ In (target l) (ids (nodes g)).

(** What holds of every stored node: a function node is a Python node
    whose label is an identifier and whose id is made from the label; a
    module or file node has the id made from its label; every node has a
    code. *)
Definition nodeShape (n : NodeData) : Prop :=
  code n <> None /\
  match type n with
  | FUNCTION =>
      id n = ("fn-" ++ label n)%string /\ isName (label n) = true /\
      language n = Some python
  | MODULE | FILE => id n = ("file-" ++ label n)%string
  | NOTE => False
  end.

(** What holds of every stored link: an Imports link goes from a function
    id to a file id and a Calls link from a function id to a function id,
    both without weight; a Semantic link has a weight above the
    threshold; there is no other link. *)
Definition linkShape (l : LinkData) : Prop :=
  match etype l with
  | IMPORTS =>
      (exists f, source l = ("fn-" ++ f)%string) /\
      (exists file, target l = ("file-" ++ file)%string) /\
      weight l = None
  | CALLS =>
      (exists f, source l = ("fn-" ++ f)%string) /\
      (exists t, target l = ("fn-" ++ t)%string) /\
      weight l = None
  | SEMANTIC => exists w, weight l = Some w /\ (threshold <? w)%float = true
  | READS_WRITES | TESTED_BY => False
  end.

(** *** The builder *)

Section Generated.

Variables Math_cos Math_sin Math_floor : float -> float.
Variable Math_random : nat -> float.

Local Abbreviation generateGraphFromFiles :=
  (generateGraphFromFiles Math_cos Math_sin Math_floor Math_random).

Lemma functionNodes_nodeShape (ix iy : float) (lines : list string) :
  forall d, Forall nodeShape (functionNodes Math_floor Math_random ix iy lines d).
Proof.
  induction lines as [|line rest IH]; intros d; cbn [functionNodes]; [constructor|].
  destruct (matchHeader line) as [funcName|] eqn:E; [|apply IH].
  constructor; [|apply IH].
  apply matchHeader_shape in E as (ws & ws' & params & tail & _ & _ & _ & Hname & _).
  split; [discriminate|]. cbn. auto.
Qed.

Lemma fileNodes_nodeShape (totalFiles : nat) (entries : FileMap) :
  forall fileIndex d,
    Forall nodeShape
      (fileNodes Math_cos Math_sin Math_floor Math_random totalFiles fileIndex entries d).
Proof.
  induction entries as [|e rest IH]; intros fileIndex d; cbn [fileNodes];
    [constructor|].
  constructor; [|apply Forall_app; split; [apply functionNodes_nodeShape | apply IH]].
  split; [discriminate|]. cbn. now destruct (JS.endsWith ".py" (fst e)).
Qed.

Lemma generate_nodeShape (files : FileMap) :
  Forall nodeShape (nodes (generateGraphFromFiles files)).
Proof.
  unfold Builder.generateGraphFromFiles. cbn [nodes].
  rewrite firstPass_view. apply fileNodes_nodeShape.
Qed.

Lemma fn_id_in (files : FileMap) (t : string) :
  In t (allNames files) ->
  In ("fn-" ++ t)%string (ids (nodes (generateGraphFromFiles files))).
Proof.
  rewrite ids_generate. unfold allNames. rewrite !in_flat_map.
  intros (e & He & Ht). exists e. split; [exact He|].
  right. now apply in_map.
Qed.

(** The links of a fresh graph: each Imports link with the function and
    the file it joins, each Calls link with its two functions. *)
Lemma generate_links (files : FileMap) (l : LinkData) :
  In l (links (generateGraphFromFiles files)) ->
  (exists e f, In e files /\ In f (namesIn e) /\
               l = importLink ("file-" ++ fst e) f) \/
  (exists s t, In s (nodes (generateGraphFromFiles files)) /\ isFunction s = true /\
               In t (allNames files) /\ l = callLink (id s) t).
Proof.
  unfold Builder.generateGraphFromFiles at 1. cbn [links].
  rewrite in_app_iff, in_flat_map. intros [H|(s & Hs & H)].
  - left. rewrite firstPass_view in H. cbn [st_links] in H.
    unfold fileLinks in H. apply in_flat_map in H as (e & He & H).
    apply in_map_iff in H as (f & <- & Hf). eauto.
  - right. apply filter_In in Hs as [Hs Hfun].
    destruct (function_shape Math_cos Math_sin Math_floor Math_random files s Hs Hfun)
      as (_ & (c & Hc & Htr) & _).
    destruct (proj1 (callsFrom_in _ _ _ _ Hc Htr) H) as (t & tid & Hin & _ & ->).
    apply definedFunctions_in in Hin as [Ht ->].
    exists s, t. repeat split; auto.
Qed.

Lemma generate_closed (files : FileMap) : closed (generateGraphFromFiles files).
Proof.
  intros l Hl. apply generate_links in Hl
    as [(e & f & He & Hf & ->)|(s & t & Hs & _ & Ht & ->)]; cbn [source target importLink callLink].
  - rewrite ids_generate, !in_flat_map. split; exists e; (split; [exact He|]).
    + right. now apply in_map.
    + now left.
  - split; [now apply in_map | now apply fn_id_in].
Qed.

Lemma generate_linkShape (files : FileMap) :
  Forall linkShape (links (generateGraphFromFiles files)).
Proof.
  apply Forall_forall. intros l Hl. apply generate_links in Hl
    as [(e & f & He & Hf & ->)|(s & t & Hs & Hfun & Ht & ->)];
    unfold linkShape; cbn [etype importLink callLink source target weight].
  - split; [now exists f | split; [now exists (fst e) | reflexivity]].
  - destruct (function_shape Math_cos Math_sin Math_floor Math_random files s Hs Hfun)
      as (_ & _ & Hid).
    split; [now exists (label s) | split; [now exists t | reflexivity]].
Qed.

End Generated.

(** *** The three writers *)

Lemma withState_nodeShape (n : NodeData) (e : option (list float)) (st : option bool) :
  nodeShape n -> nodeShape (withState n e st).
Proof. exact (fun H => H). Qed.

Lemma mergeNode_nodeShape (prevNodes : list NodeData) (n : NodeData) :
  nodeShape n -> nodeShape (mergeNode prevNodes n).
Proof.
  intros H. unfold mergeNode. destruct (find _ prevNodes) as [o|]; [|exact H].
  destruct (code_eqb (code o) (code n)); exact H.
Qed.

Lemma merge_closed (prevGraph newStructure : GraphData) :
  closed newStructure -> closed (mergeGraph prevGraph newStructure).
Proof.
  intros Hnew l Hl. unfold mergeGraph in *. cbn [nodes links] in *.
  rewrite ids_merged. apply in_app_iff in Hl as [Hl|Hl]; [now apply Hnew|].
  apply filter_In in Hl as [_ Hl]. apply andb_prop in Hl as [Hs Ht].
  apply hasNode_In in Hs, Ht. rewrite ids_merged in Hs, Ht. now split.
Qed.

Lemma merge_nodeShape (prevGraph newStructure : GraphData) :
  Forall nodeShape (nodes newStructure) ->
  Forall nodeShape (nodes (mergeGraph prevGraph newStructure)).
Proof.
  intros H. unfold mergeGraph. cbn [nodes]. apply Forall_map.
  eapply Forall_impl; [|exact H]. intros n. apply mergeNode_nodeShape.
Qed.

Lemma merge_linkShape (prevGraph newStructure : GraphData) :
  Forall linkShape (links prevGraph) -> Forall linkShape (links newStructure) ->
  Forall linkShape (links (mergeGraph prevGraph newStructure)).
Proof.
  intros Hprev Hnew. unfold mergeGraph. cbn [links].
  apply Forall_app. split; [exact Hnew|].
  apply Forall_forall. intros l Hl.
  apply filter_In in Hl as [Hl _]. apply filter_In in Hl as [Hl _].
  exact (proj1 (Forall_forall _ _) Hprev l Hl).
Qed.

(** The graph that a pass stores, when it stores one. *)
Lemma pass_some (callEmbedding : Embedder) (order : list nat)
    (graphData newGraph : GraphData) :
  handleRecalculateSemanticGraph callEmbedding order graphData = Some newGraph ->
  nodes newGraph
    = fst (settleAll callEmbedding (filter needsUpdate (nodes graphData)) order
             (nodes graphData, false)) /\
  links newGraph
    = filter (fun l => negb (isSemantic l)) (links graphData)
      ++ semanticLinks (filter hasEmbedding (nodes newGraph)).
Proof.
  unfold handleRecalculateSemanticGraph.
  destruct (Nat.eqb _ 0); [discriminate|].
  destruct (settleAll _ _ _ _) as [newNodes updated].
  destruct updated; [|discriminate].
  intros H. injection H as <-. now split.
Qed.

Lemma updateAt_Forall (P : NodeData -> Prop) (f : NodeData -> NodeData)
    (ns : list NodeData) :
  (forall n, P n -> P (f n)) -> Forall P ns ->
  forall idx, Forall P (updateAt idx f ns).
Proof.
  intros Hf H. induction H as [|n ns Hn Hns IH]; intros [|idx]; cbn;
    constructor; auto.
Qed.

Lemma settleAll_Forall (P : NodeData -> Prop) (callEmbedding : Embedder)
    (U : list NodeData) (order : list nat) :
  (forall e n, P n -> P (embed e n)) ->
  forall st, Forall P (fst st) -> Forall P (fst (settleAll callEmbedding U order st)).
Proof.
  intros Hf. induction order as [|k order IH]; intros st H; [exact H|].
  rewrite settleAll_cons. apply IH. rewrite step_obtained.
  destruct (obtained callEmbedding U k) as [[node e]|]; [|exact H].
  destruct (findIndex _ (fst st)) as [idx|]; [|exact H].
  cbn [fst]. apply updateAt_Forall; auto.
Qed.

Lemma pass_closed (callEmbedding : Embedder) (order : list nat)
    (graphData newGraph : GraphData) :
  handleRecalculateSemanticGraph callEmbedding order graphData = Some newGraph ->
  closed graphData -> closed newGraph.
Proof.
  intros Hpass Hclosed l Hl.
  destruct (pass_some _ _ _ _ Hpass) as [Hnodes Hlinks].
  assert (Hids : ids (nodes newGraph) = ids (nodes graphData)).
  { rewrite Hnodes. apply settleAll_ids. }
  rewrite Hlinks in Hl. apply in_app_iff in Hl as [Hl|Hl].
  - apply filter_In in Hl as [Hl _]. rewrite Hids. now apply Hclosed.
  - apply semanticLinks_in in Hl as (i & j & a & b & _ & Hi & Hj & _ & ->).
    apply nth_error_In in Hi, Hj. apply filter_In in Hi as [Hi _], Hj as [Hj _].
    cbn [source target semanticLink]. unfold ids. split; now apply in_map.
Qed.

Lemma pass_nodeShape (callEmbedding : Embedder) (order : list nat)
    (graphData newGraph : GraphData) :
  handleRecalculateSemanticGraph callEmbedding order graphData = Some newGraph ->
  Forall nodeShape (nodes graphData) -> Forall nodeShape (nodes newGraph).
Proof.
  intros Hpass H. destruct (pass_some _ _ _ _ Hpass) as [-> _].
  apply settleAll_Forall; [|exact H]. intros e n Hn. exact Hn.
Qed.

Lemma pass_linkShape (callEmbedding : Embedder) (order : list nat)
    (graphData newGraph : GraphData) :
  handleRecalculateSemanticGraph callEmbedding order graphData = Some newGraph ->
  Forall linkShape (links graphData) -> Forall linkShape (links newGraph).
Proof.
  intros Hpass H. destruct (pass_some _ _ _ _ Hpass) as [_ ->].
  apply Forall_app. split.
  - apply Forall_forall. intros l Hl. apply filter_In in Hl as [Hl _].
    exact (proj1 (Forall_forall _ _) H l Hl).
  - apply Forall_forall. intros l Hl.
    apply semanticLinks_in in Hl as (i & j & a & b & _ & _ & _ & Hs & ->).
    unfold linkShape. cbn. eexists. split; [reflexivity | exact Hs].
Qed.

Lemma ids_markEdited (selected newCode : string) (g : GraphData) :
  ids (nodes (markEdited selected newCode g)) = ids (nodes g).
Proof.
  unfold markEdited, ids. cbn [nodes]. rewrite map_map. apply map_ext.
  intros n. now destruct (String.eqb (id n) selected).
Qed.

Lemma edit_nodeShape (selected newCode : string) (g : GraphData) :
  Forall nodeShape (nodes g) ->
  Forall nodeShape (nodes (markEdited selected newCode g)).
Proof.
  intros H. unfold markEdited. cbn [nodes]. apply Forall_map.
  eapply Forall_impl; [|exact H]. intros n [Hc Hn].
  destruct (String.eqb (id n) selected); [|now split].
  split; [discriminate | exact Hn].
Qed.

(** *** The invariants *)

Section Invariants.

Variables Math_cos Math_sin Math_floor : float -> float.

Local Abbreviation Stored := (Stored Math_cos Math_sin Math_floor).

Lemma Stored_closed (g : GraphData) : Stored g -> closed g.
Proof.
  induction 1 as [|r files|prev r files _ IH _|g g' e order _ IH Hpass|prev sel c _ IH _].
  - intros l [].
  - apply generate_closed.
  - apply merge_closed, generate_closed.
  - exact (pass_closed _ _ _ _ Hpass IH).
  - intros l Hl. rewrite ids_markEdited. now apply IH.
Qed.

Lemma Stored_nodeShape (g : GraphData) : Stored g -> Forall nodeShape (nodes g).
Proof.
  induction 1 as [|r files|prev r files _ IH _|g g' e order _ IH Hpass|prev sel c _ IH _].
  - constructor.
  - apply generate_nodeShape.
  - apply merge_nodeShape, generate_nodeShape.
  - exact (pass_nodeShape _ _ _ _ Hpass IH).
  - now apply edit_nodeShape.
Qed.

Lemma Stored_linkShape (g : GraphData) : Stored g -> Forall linkShape (links g).
Proof.
  induction 1 as [|r files|prev r files _ IH _|g g' e order _ IH Hpass|prev sel c _ IH _].
  - constructor.
  - apply generate_linkShape.
  - apply merge_linkShape; [exact IH | apply generate_linkShape].
  - exact (pass_linkShape _ _ _ _ Hpass IH).
  - exact IH.
Qed.

(** X7: in every graph that the app stores, both ends of every link
    are ids of nodes of the graph. *)
Theorem stored_links_closed (g : GraphData) (l : LinkData) :
  Stored g -> In l (links g) ->
  In (source l) (ids (nodes g)) /\ In (target l) (ids (nodes g)).
Proof. intros Hs Hl. exact (Stored_closed g Hs l Hl). Qed.

(** X8: in every graph that the app stores, every node has a code; a
    function node is a Python node whose label is an identifier and whose
    id is [fn-] followed by the label; any other node is a module or file
    node whose id is [file-] followed by its label. *)
Theorem stored_node_shape (g : GraphData) (n : NodeData) :
  Stored g -> In n (nodes g) ->
  code n <> None /\
  match type n with
  | FUNCTION =>
      id n = ("fn-" ++ label n)%string /\ isName (label n) = true /\
      language n = Some python
  | MODULE | FILE => id n = ("file-" ++ label n)%string
  | NOTE => False
  end.
Proof. intros Hs Hn. exact (proj1 (Forall_forall _ _) (Stored_nodeShape g Hs) n Hn). Qed.

(** X9: in every graph that the app stores, a link is an Imports link
    from a function id to a file id, a Calls link from a function id to a
    function id, both without weight, or a Semantic link whose weight is
    above the threshold of 0.75. *)
Theorem stored_link_shape (g : GraphData) (l : LinkData) :
  Stored g -> In l (links g) ->
  match etype l with
  | IMPORTS =>
      (exists f, source l = ("fn-" ++ f)%string) /\
      (exists file, target l = ("file-" ++ file)%string) /\
      weight l = None
  | CALLS =>
      (exists f, source l = ("fn-" ++ f)%string) /\
      (exists t, target l = ("fn-" ++ t)%string) /\
      weight l = None
  | SEMANTIC => exists w, weight l = Some w /\ (threshold <? w)%float = true
  | READS_WRITES | TESTED_BY => False
  end.
Proof. intros Hs Hl. exact (proj1 (Forall_forall _ _) (Stored_linkShape g Hs) l Hl). Qed.

End Invariants.

End StoredFacts.

(* ================================================================== *)
(** ** Edits                                                           *)
(* ================================================================== *)

Module EditFacts.

Import Builder Merge Semantic Editing App.
Import HeaderFacts BuilderFacts MergeFacts SemanticFacts StoredFacts.

Lemma hasKey_ownValue (k : string) (m : FileMap) :
  hasKey k m = true <-> exists v, ownValue k m = Some v.
Proof.
  induction m as [|[k' v'] m IH]; cbn [hasKey ownValue].
  - split; [discriminate | intros [v H]; discriminate H].
  - destruct (String.eqb k' k); cbn [orb]; [|exact IH].
    split; [eauto | reflexivity].
Qed.

(** The node that a lookup by id finds in a list whose nodes have been
    changed without changing their ids. *)
Lemma find_map_id (f : NodeData -> NodeData) (i : string) (ns : list NodeData) :
  (forall n, id (f n) = id n) ->
  find (fun n => String.eqb (id n) i) (map f ns)
  = option_map f (find (fun n => String.eqb (id n) i) ns).
Proof.
  intros Hf. induction ns as [|n ns IH]; cbn; [reflexivity|].
  rewrite Hf. destruct (String.eqb (id n) i); [reflexivity | exact IH].
Qed.

Definition editNode (selected newCode : string) (n : NodeData) : NodeData :=
  if String.eqb (id n) selected then withCode n newCode else n.

Lemma editNode_id (selected newCode : string) (n : NodeData) :
  id (editNode selected newCode n) = id n.
Proof. unfold editNode. now destruct (String.eqb (id n) selected). Qed.

(** [{ ...m, isStale: true }] *)
Definition markStale (m : NodeData) : NodeData :=
  withState m (embedding m) (Some true).

Lemma mergeNode_edited (g : GraphData) (selected newCode : string) (n : NodeData) :
  mergeNode (nodes (markEdited selected newCode g)) n
  = if String.eqb (id n) selected
    then markStale (mergeNode (nodes g) n)
    else mergeNode (nodes g) n.
Proof.
  unfold markEdited. cbn [nodes]. fold (editNode selected newCode).
  unfold mergeNode at 1.
  rewrite (find_map_id _ _ _ (editNode_id selected newCode)).
  unfold mergeNode.
  destruct (find (fun old => String.eqb (id old) (id n)) (nodes g)) as [o|] eqn:E;
    cbn [option_map].
  - apply find_some in E as [_ E]. apply String.eqb_eq in E.
    unfold editNode. rewrite E.
    destruct (String.eqb (id n) selected).
    + cbn [withCode code embedding isStale].
      destruct (code_eqb (Some newCode) (code n)), (code_eqb (code o) (code n));
        reflexivity.
    + reflexivity.
  - now destruct (String.eqb (id n) selected).
Qed.

Lemma hasNode_ids (ns ns' : list NodeData) (i : string) :
  ids ns = ids ns' -> hasNode ns i = hasNode ns' i.
Proof.
  intros H. destruct (hasNode ns i) eqn:E.
  - apply hasNode_In in E. rewrite H in E. symmetry. now apply hasNode_In.
  - destruct (hasNode ns' i) eqn:E'; [|reflexivity].
    apply hasNode_In in E'. rewrite <- H in E'. apply hasNode_In in E'. congruence.
Qed.

(** X10: an edit followed by a rebuild is the rebuild followed by marking
    the nodes with the selected id stale: the merge takes the code, like
    every property but [embedding] and [isStale], from the fresh graph, so
    of the edit it keeps the stale flag only, and the embedding is the one
    that the merge without the edit carries over. *)
Theorem edit_then_rebuild (g newStructure : GraphData) (selected newCode : string) :
  mergeGraph (markEdited selected newCode g) newStructure
  = {| nodes := map (fun m => if String.eqb (id m) selected then markStale m else m)
                    (nodes (mergeGraph g newStructure));
       links := links (mergeGraph g newStructure) |}.
Proof.
  unfold mergeGraph. cbn [nodes links]. rewrite map_map.
  assert (Hnodes :
    map (mergeNode (nodes (markEdited selected newCode g))) (nodes newStructure)
    = map (fun n => if String.eqb (id (mergeNode (nodes g) n)) selected
                    then markStale (mergeNode (nodes g) n)
                    else mergeNode (nodes g) n) (nodes newStructure)).
  { apply map_ext. intros n. rewrite mergeNode_edited, mergeNode_id. reflexivity. }
  rewrite Hnodes. f_equal. f_equal.
  apply filter_ext. intros l.
  rewrite <- Hnodes.
  rewrite !(hasNode_ids
              (map (mergeNode (nodes (markEdited selected newCode g))) (nodes newStructure))
              (map (mergeNode (nodes g)) (nodes newStructure)));
    [reflexivity | now rewrite !ids_merged ..].
Qed.

Section Returns.

Variables Math_cos Math_sin Math_floor : float -> float.

(** X11: in a stored graph, the handler does not throw as long as every
    file of the graph is still in the file map: the parent that it finds
    for a function node is a module or file node, whose label is then a key
    of the file map. *)
Theorem handleCodeChange_returns (g : GraphData) (files : FileMap)
    (selected : option string) (newCode : string) :
  Stored Math_cos Math_sin Math_floor g ->
  (forall n, In n (nodes g) -> type n <> FUNCTION -> hasKey (label n) files = true) ->
  snd (handleCodeChange newCode
         {| graphData := g; fileMap := files; selectedNodeId := selected |})
  = Returned.
Proof.
  intros Hs Hfiles. unfold handleCodeChange. cbn [selectedNodeId graphData fileMap].
  destruct selected as [sel|]; [|reflexivity].
  destruct (negb (JS.truthy sel)); [reflexivity|].
  destruct (find _ (nodes g)) as [node|] eqn:En; [|reflexivity].
  destruct (syncFile newCode g files node) as [files' completion] eqn:Es.
  cbn [snd]. unfold syncFile in Es.
  destruct (type node); try (injection Es as _ <-; reflexivity).
  destruct (find _ (links g)) as [l|] eqn:El; [|injection Es as _ <-; reflexivity].
  destruct (find _ (nodes g)) as [parent|] eqn:Ep in Es;
    [|injection Es as _ <-; reflexivity].
  apply find_some in El as [Hl El]. apply andb_prop in El as [El _].
  apply EdgeType_eqb_eq in El.
  apply find_some in Ep as [Hp Ep]. apply String.eqb_eq in Ep.
  assert (Hshape := proj1 (Forall_forall _ _) (Stored_linkShape _ _ _ g Hs) l Hl).
  unfold linkShape in Hshape. rewrite El in Hshape.
  destruct Hshape as (_ & (file & Htarget) & _).
  assert (Hparent := proj1 (Forall_forall _ _) (Stored_nodeShape _ _ _ g Hs) parent Hp).
  destruct Hparent as [_ Hparent].
  assert (Hkey : hasKey (label parent) files = true).
  { apply Hfiles; [exact Hp|]. intros Hfun. rewrite Hfun in Hparent.
    destruct Hparent as (Hid & _). rewrite Ep, Htarget in Hid.
    exact (file_id_not_fn_id _ _ Hid). }
  apply hasKey_ownValue in Hkey as [v Hv]. rewrite Hv in Es.
  destruct (String.eqb _ v); injection Es as _ <-; reflexivity.
Qed.

End Returns.

End EditFacts.

(* ================================================================== *)
(** ** Pending updates                                                 *)
(* ================================================================== *)

Module PendingFacts.

Import Builder Merge Semantic Editing App.
Import BuilderFacts MergeFacts SemanticFacts StoredFacts.

(** [n.code] as a condition. *)
Definition hasCode (n : NodeData) : bool :=
  match code n with Some c => JS.truthy c | None => false end.

Lemma needsUpdate_isPending (n : NodeData) :
  needsUpdate n = isPending n && hasCode n.
Proof.
  unfold needsUpdate, isPending, hasCode.
  destruct (NodeType_eqb (type n) FUNCTION),
           (match language n with Some l => Language_eqb l python | None => false end),
           (match code n with Some c => JS.truthy c | None => false end),
           (negb (hasEmbedding n) || stale n); reflexivity.
Qed.

Lemma filter_and (f g : NodeData -> bool) (ns : list NodeData) :
  filter (fun n => f n && g n) ns = filter g (filter f ns).
Proof.
  induction ns as [|n ns IH]; cbn; [reflexivity|].
  destruct (f n); cbn; [destruct (g n); now rewrite IH | exact IH].
Qed.

Lemma filter_length_le (f : NodeData -> bool) (ns : list NodeData) :
  List.length (filter f ns) <= List.length ns.
Proof.
  induction ns as [|n ns IH]; cbn; [lia|]. destruct (f n); cbn; lia.
Qed.

(** X12: the nodes that a pass requests are the pending nodes that have a
    code; so the count of pending updates is at least the number of
    requests, and a pass leaves the stored graph alone when nothing is
    pending. *)
Theorem pending_covers_requests (callEmbedding : Embedder) (order : list nat)
    (g : GraphData) :
  filter needsUpdate (nodes g) = filter hasCode (filter isPending (nodes g)) /\
  List.length (filter needsUpdate (nodes g)) <= pendingUpdates g /\
  (handleRecalculateSemanticGraph callEmbedding order g = None \/
   0 < pendingUpdates g).
Proof.
  assert (H : filter needsUpdate (nodes g)
              = filter hasCode (filter isPending (nodes g))).
  { rewrite <- filter_and. apply filter_ext. apply needsUpdate_isPending. }
  split; [exact H|]. unfold pendingUpdates. split.
  - rewrite H. apply filter_length_le.
  - unfold handleRecalculateSemanticGraph. rewrite H.
    destruct (filter isPending (nodes g)) as [|n ns]; [now left | right; cbn; lia].
Qed.

Lemma embed_not_pending (e : list float) (n : NodeData) :
  isPending (embed e n) = false.
Proof.
  unfold isPending, embed, hasEmbedding, stale. cbn.
  now rewrite !andb_false_r.
Qed.

(** Each node after the replies: as it was, or with an embedding and not
    stale. *)
Definition settled (n n' : NodeData) : Prop :=
  n' = n \/ exists e, n' = embed e n.

Lemma settled_refl (ns : list NodeData) : Forall2 settled ns ns.
Proof. induction ns; constructor; [now left | assumption]. Qed.

Lemma embed_twice (e e' : list float) (n : NodeData) :
  embed e' (embed e n) = embed e' n.
Proof. reflexivity. Qed.

Lemma updateAt_settled (e : list float) (ns ns' : list NodeData) :
  Forall2 settled ns ns' ->
  forall idx, Forall2 settled ns (updateAt idx (embed e) ns').
Proof.
  induction 1 as [|n n' ns ns' Hn Hns IH]; intros [|idx]; cbn [updateAt].
  - constructor.
  - constructor.
  - constructor; [|exact Hns]. right. exists e.
    destruct Hn as [->|[e0 ->]]; reflexivity.
  - constructor; [exact Hn | apply IH].
Qed.

Lemma settleAll_settled (callEmbedding : Embedder) (U : list NodeData)
    (order : list nat) (ns : list NodeData) :
  forall st, Forall2 settled ns (fst st) ->
             Forall2 settled ns (fst (settleAll callEmbedding U order st)).
Proof.
  induction order as [|k order IH]; intros st H; [exact H|].
  rewrite settleAll_cons. apply IH. rewrite step_obtained.
  destruct (obtained callEmbedding U k) as [[node e]|]; [|exact H].
  destruct (findIndex _ (fst st)) as [idx|]; [|exact H].
  cbn [fst]. now apply updateAt_settled.
Qed.

Lemma storedAfter_settled (callEmbedding : Embedder) (order : list nat)
    (g : GraphData) :
  Forall2 settled (nodes g) (nodes (storedAfter callEmbedding order g)).
Proof.
  rewrite storedAfter_nodes. apply settleAll_settled. apply settled_refl.
Qed.

Lemma settled_pending_le (ns ns' : list NodeData) :
  Forall2 settled ns ns' ->
  List.length (filter isPending ns') <= List.length (filter isPending ns).
Proof.
  induction 1 as [|n n' ns ns' Hn _ IH]; cbn [filter]; [lia|].
  destruct Hn as [->|[e ->]].
  - destruct (isPending n); cbn; lia.
  - rewrite embed_not_pending. destruct (isPending n); cbn; lia.
Qed.

(** X13: a pass never raises the count of pending updates, whatever the
    replies and their order. *)
Theorem pass_lowers_pending (callEmbedding : Embedder) (order : list nat)
    (g : GraphData) :
  pendingUpdates (storedAfter callEmbedding order g) <= pendingUpdates g.
Proof.
  unfold pendingUpdates. apply settled_pending_le, storedAfter_settled.
Qed.

Lemma embed_no_update (e : list float) (n : NodeData) :
  needsUpdate (embed e n) = false.
Proof. now rewrite needsUpdate_isPending, embed_not_pending. Qed.

Lemma same_id_same_node (ns : list NodeData) (a b : NodeData) :
  NoDup (ids ns) -> In a ns -> In b ns -> id a = id b -> a = b.
Proof.
  intros Hnd Ha Hb Hid.
  assert (H1 := find_unique ns a (id a) Hnd Ha eq_refl).
  assert (H2 := find_unique ns b (id a) Hnd Hb (eq_sym Hid)).
  congruence.
Qed.

Lemma lastHit_some (callEmbedding : Embedder) (U : list NodeData) (i : string)
    (k : nat) (order : list nat) (v : list float) :
  In k order -> hit callEmbedding U i k = Some v ->
  exists v', lastHit callEmbedding U i order = Some v'.
Proof.
  induction order as [|k0 order IH]; intros Hin Hhit; [destruct Hin|].
  cbn [lastHit]. destruct (lastHit callEmbedding U i order) as [v'|] eqn:E; [eauto|].
  destruct Hin as [->|Hin]; [eauto|].
  destruct (IH Hin Hhit) as [v' Hv']. discriminate.
Qed.

Lemma filter_nil (f : NodeData -> bool) (ns : list NodeData) :
  Forall (fun n => f n = false) ns -> filter f ns = [].
Proof. induction 1 as [|n ns Hn _ IH]; cbn; [reflexivity | now rewrite Hn]. Qed.

(** X14: in a graph whose node ids are unique, after a pass in which every
    request is answered with an embedding and handled, no node is left to
    request, so a further pass returns at once. *)
Theorem answered_pass_settles (callEmbedding : Embedder) (order : list nat)
    (g : GraphData) :
  NoDup (ids (nodes g)) ->
  (forall k node,
      nth_error (filter needsUpdate (nodes g)) k = Some node ->
      In k order /\
      exists v, callEmbedding k (contentToEmbed node) = Resolved (Some v)) ->
  filter needsUpdate (nodes (storedAfter callEmbedding order g)) = [] /\
  forall (callEmbedding' : Embedder) (order' : list nat),
    handleRecalculateSemanticGraph callEmbedding' order'
      (storedAfter callEmbedding order g) = None.
Proof.
  intros Hnd Hall.
  set (U := filter needsUpdate (nodes g)) in *.
  assert (Hnone : filter needsUpdate (nodes (storedAfter callEmbedding order g)) = []).
  { apply filter_nil, Forall_forall. intros n' Hn'.
    assert (Hids : ids (nodes (storedAfter callEmbedding order g)) = ids (nodes g)).
    { rewrite storedAfter_nodes. apply settleAll_ids. }
    assert (Hlook' : lookup (id n') (nodes (storedAfter callEmbedding order g)) = Some n').
    { apply find_unique; [now rewrite Hids | exact Hn' | reflexivity]. }
    assert (Hin : In (id n') (ids (nodes g))).
    { rewrite <- Hids. now apply in_map. }
    apply in_map_iff in Hin as (n & Hid & Hn).
    assert (Hlook : lookup (id n') (nodes g) = Some n).
    { apply find_unique; assumption. }
    rewrite storedAfter_nodes in Hlook'. fold U in Hlook'.
    rewrite lookup_settleAll in Hlook'. cbn [fst] in Hlook'. rewrite Hlook in Hlook'.
    destruct (needsUpdate n) eqn:En.
    - assert (HnU : In n U) by (apply filter_In; now split).
      apply In_nth_error in HnU as [k Hk].
      destruct (Hall k n Hk) as [Hko [v Hv]].
      assert (Hhit : hit callEmbedding U (id n') k = Some v).
      { unfold hit, obtained. rewrite Hk, Hv, Hid. now rewrite String.eqb_refl. }
      destruct (lastHit_some _ _ _ _ _ _ Hko Hhit) as [v' Hv'].
      rewrite Hv' in Hlook'. cbn in Hlook'. injection Hlook' as <-.
      apply embed_no_update.
    - rewrite lastHit_none in Hlook'.
      + cbn in Hlook'. now injection Hlook' as <-.
      + intros k _. unfold hit.
        destruct (obtained callEmbedding U k) as [[node v]|] eqn:E; [|reflexivity].
        destruct (String.eqb_spec (id node) (id n')) as [Heq|]; [|reflexivity].
        apply obtained_inv in E as [Hk _]. apply nth_error_In in Hk.
        apply filter_In in Hk as [Hnode Hup].
        assert (node = n) by (apply (same_id_same_node (nodes g)); congruence).
        congruence. }
  split; [exact Hnone|]. intros e' order'.
  unfold handleRecalculateSemanticGraph. now rewrite Hnone.
Qed.

Section Built.

Variables Math_cos Math_sin Math_floor : float -> float.
Variable Math_random : nat -> float.

(** X15: after a rebuild the count of pending updates is the number of
    nodes that the next pass requests: the builder gives every function
    node a code that is not empty. *)
Theorem pending_after_rebuild (prevGraph : GraphData) (files : FileMap) :
  let g := mergeGraph prevGraph
             (generateGraphFromFiles Math_cos Math_sin Math_floor Math_random files) in
  pendingUpdates g = List.length (filter needsUpdate (nodes g)).
Proof.
  intros g. unfold pendingUpdates. f_equal.
  apply filter_ext_in. intros m Hm. rewrite needsUpdate_isPending.
  destruct (isPending m) eqn:Ep; [|reflexivity]. cbn [andb]. symmetry.
  unfold g, mergeGraph in Hm. cbn [nodes] in Hm.
  apply in_map_iff in Hm as (n & <- & Hn).
  assert (Hfun : isFunction n = true).
  { unfold isPending in Ep. apply andb_prop in Ep as [Ep _].
    apply andb_prop in Ep as [Ep _].
    unfold mergeNode in Ep. unfold isFunction.
    destruct (find _ (nodes prevGraph)) as [o|]; [|exact Ep].
    destruct (code_eqb (code o) (code n)); exact Ep. }
  destruct (function_shape _ _ _ _ files n Hn Hfun) as (_ & (c & Hc & Htr) & _).
  unfold hasCode, mergeNode.
  destruct (find _ (nodes prevGraph)) as [o|];
    [destruct (code_eqb (code o) (code n))|]; cbn [withState code];
    now rewrite Hc.
Qed.

End Built.

End PendingFacts.

(* ================================================================== *)
(** ** An edit seen by the builder                                     *)
(* ================================================================== *)

Module RoundTripFacts.

Import Builder Merge Semantic Editing.
Import LineFacts ReplaceFacts HeaderFacts BlockFacts BuilderFacts.

(** *** The entry of a file in the file map *)

Lemma ownValue_split (k v : string) (m : FileMap) :
  ownValue k m = Some v ->
  exists m1 m2,
    m = m1 ++ (k, v) :: m2 /\ hasKey k m1 = false /\
    forall v', objectSet k v' m = m1 ++ (k, v') :: m2.
Proof.
  unfold objectSet. induction m as [|[k0 v0] m IH]; cbn [ownValue]; [discriminate|].
  destruct (String.eqb k0 k) eqn:E.
  - intros H. injection H as ->. apply String.eqb_eq in E. subst k0.
    exists [], m. repeat split. intros v'. cbn. now rewrite String.eqb_refl.
  - intros H. destruct (IH H) as (m1 & m2 & -> & Hm1 & Hset).
    exists ((k0, v0) :: m1), m2. cbn [app hasKey]. rewrite E, Hm1. repeat split.
    intros v'. specialize (Hset v'). cbn [hasKey replaceValue]. rewrite E. cbn [orb].
    destruct (hasKey k (m1 ++ (k, v) :: m2)) eqn:Ek.
    + now rewrite Hset.
    + exfalso. revert Ek. clear. induction m1 as [|[a b] m1 IH]; cbn.
      * now rewrite String.eqb_refl.
      * destruct (String.eqb a k); [discriminate | exact IH].
Qed.

Section WithRuntime.

Variables Math_cos Math_sin Math_floor : float -> float.
Variable Math_random : nat -> float.

Local Abbreviation functionNodes := (functionNodes Math_floor Math_random).
Local Abbreviation fileNodes := (fileNodes Math_cos Math_sin Math_floor Math_random).
Local Abbreviation generateGraphFromFiles :=
  (generateGraphFromFiles Math_cos Math_sin Math_floor Math_random).

Lemma length_functionNodes (ix iy : float) (lines : list string) :
  forall d, List.length (functionNodes ix iy lines d) = List.length (headerNames lines).
Proof.
  induction lines as [|line rest IH]; intros d; cbn; [reflexivity|].
  destruct (matchHeader line); cbn; now rewrite IH.
Qed.

Lemma fileNodes_app (totalFiles : nat) (fs1 : FileMap) (e : string * string)
    (fs2 : FileMap) :
  forall fileIndex d,
    fileNodes totalFiles fileIndex (fs1 ++ e :: fs2) d
    = fileNodes totalFiles fileIndex fs1 d
      ++ fileNode Math_cos Math_sin (fst e) (snd e)
           (fileIndex + List.length fs1) totalFiles
      :: functionNodes
           (initialX Math_cos (fst e) (fileIndex + List.length fs1) totalFiles)
           (initialY Math_sin (fst e) (fileIndex + List.length fs1) totalFiles)
           (linesOf e) (d + 3 * List.length (allNames fs1))
      ++ fileNodes totalFiles (S (fileIndex + List.length fs1)) fs2
           (d + 3 * List.length (allNames fs1) + 3 * List.length (namesIn e)).
Proof.
  induction fs1 as [|e1 fs1 IH]; intros fileIndex d.
  - cbn [app List.length allNames flat_map Builder.fileNodes].
    replace (d + 3 * 0) with d by lia. now rewrite !Nat.add_0_r.
  - cbn [app Builder.fileNodes]. rewrite IH. cbn [List.length].
    unfold allNames. cbn [flat_map]. rewrite length_app.
    rewrite <- !app_assoc. cbn [app].
    replace (S fileIndex + List.length fs1) with (fileIndex + S (List.length fs1)) by lia.
    replace (d + 3 * List.length (namesIn e1) + 3 * List.length (flat_map namesIn fs1))
      with (d + 3 * (List.length (namesIn e1) + List.length (flat_map namesIn fs1))) by lia.
    reflexivity.
Qed.

(** The nodes that the builder makes before and after the block of a
    function is replaced by another block for the same name. *)
Lemma generate_after_edit (files : FileMap)
    (filename content funcName newCode h' : string) (body' : list string)
    (startLine endLine : nat) :
  ownValue filename files = Some content ->
  JS.endsWith ".py" filename = true ->
  findBlock funcName (JS.split_nl content) 0 = Some (startLine, endLine) ->
  matchHeader (nth startLine (JS.split_nl content) EmptyString) = Some funcName ->
  JS.split_nl newCode = h' :: body' ->
  matchHeader h' = Some funcName ->
  Forall (fun l => endsBlock l = false) body' ->
  exists pre mid post fileIndex x y d,
    nodes (generateGraphFromFiles files)
    = pre
      ++ fileNode Math_cos Math_sin filename content fileIndex (List.length files)
      :: mid
      ++ functionNode Math_floor Math_random funcName
           (JS.join_nl (firstn (endLine - startLine)
                               (skipn startLine (JS.split_nl content))))
           x y d
      :: post
    /\
    nodes (generateGraphFromFiles
             (objectSet filename
                (replaceFunctionInCode content funcName newCode) files))
    = pre
      ++ fileNode Math_cos Math_sin filename
           (replaceFunctionInCode content funcName newCode)
           fileIndex (List.length files)
      :: mid
      ++ functionNode Math_floor Math_random funcName newCode x y d
      :: post.
Proof.
  intros Hown Hpy Hfound Hheader Hnew Hh' Hbody.
  destruct (ownValue_split _ _ _ Hown) as (fs1 & fs2 & Hfiles & _ & Hset).
  rewrite (Hset (replaceFunctionInCode content funcName newCode)).
  assert (Hlines' := replace_lines content funcName newCode _ _ Hfound).
  destruct (block_found _ _ _ _ Hfound)
    as (before & h & rest & Hlines & Hstart & _ & _ & H1 & _ & H2 & H3).
  rewrite H1, H3, Hnew in Hlines'. rewrite H2.
  assert (Hh : matchHeader h = Some funcName).
  { rewrite Hlines, Hstart, nth_middle in Hheader. exact Hheader. }
  set (content' := replaceFunctionInCode content funcName newCode) in *.
  set (total := List.length files).
  set (ix := initialX Math_cos filename (0 + List.length fs1) total).
  set (iy := initialY Math_sin filename (0 + List.length fs1) total).
  set (d0 := 0 + 3 * List.length (allNames fs1)).
  destruct (functionNodes_replaced Math_floor Math_random ix iy
              before rest body' h h' funcName d0 Hh Hh' Hbody)
    as (mid & post & d & Hold & Hnew').
  assert (Htotal : List.length (fs1 ++ (filename, content') :: fs2) = total).
  { unfold total. rewrite Hfiles, !length_app. reflexivity. }
  assert (Hnames : List.length (namesIn (filename, content'))
                   = List.length (namesIn (filename, content))).
  { unfold namesIn, linesOf. cbn [fst snd]. rewrite Hpy, Hlines, Hlines'.
    rewrite <- !(length_functionNodes ix iy _ d0), Hold, Hnew'.
    rewrite !length_app. reflexivity. }
  exists (fileNodes total 0 fs1 0), mid,
         (post ++ fileNodes total (S (0 + List.length fs1)) fs2
                    (d0 + 3 * List.length (namesIn (filename, content)))),
         (0 + List.length fs1), ix, iy, d.
  unfold Builder.generateGraphFromFiles. cbn [nodes].
  rewrite !firstPass_view. cbn [st_nodes]. rewrite Htotal. fold total.
  rewrite Hfiles, !fileNodes_app. cbn [fst snd]. rewrite Hnames.
  unfold linesOf. cbn [fst snd]. rewrite Hpy, Hlines, Hlines'.
  fold ix iy d0. rewrite Hold, Hnew'.
  rewrite <- (join_split newCode), Hnew.
  rewrite <- !app_assoc. cbn [app]. split; reflexivity.
Qed.


End WithRuntime.

End RoundTripFacts.

(* ================================================================== *)
(** ** The file map                                                    *)
(* ================================================================== *)

Module FileMapFacts.

Import Editing.

Definition keys (m : FileMap) : list string := map fst m.

Lemma hasKey_In (k : string) (m : FileMap) : hasKey k m = true <-> In k (keys m).
Proof.
  induction m as [|[k' v'] m IH]; cbn; [split; [discriminate | tauto]|].
  rewrite orb_true_iff, IH, String.eqb_eq. tauto.
Qed.

Lemma hasKey_false (k : string) (m : FileMap) : hasKey k m = false <-> ~ In k (keys m).
Proof. rewrite <- hasKey_In. destruct (hasKey k m); split; congruence. Qed.

Lemma ownValue_none (k : string) (m : FileMap) :
  hasKey k m = false -> ownValue k m = None.
Proof.
  induction m as [|[k' v'] m IH]; cbn; [reflexivity|].
  destruct (String.eqb k' k); [discriminate | exact IH].
Qed.

Lemma keys_replaceValue (k v : string) (m : FileMap) :
  keys (replaceValue k v m) = keys m.
Proof.
  unfold keys. induction m as [|[k' v'] m IH]; cbn; [reflexivity|].
  destruct (String.eqb k' k); cbn; [reflexivity | now rewrite IH].
Qed.

Lemma ownValue_replaceValue (k v k' : string) (m : FileMap) :
  hasKey k m = true ->
  ownValue k' (replaceValue k v m) = if String.eqb k k' then Some v else ownValue k' m.
Proof.
  induction m as [|[k0 v0] m IH]; cbn [hasKey replaceValue ownValue]; [discriminate|].
  destruct (String.eqb_spec k0 k) as [->|Hne]; cbn [orb ownValue].
  - intros _. now destruct (String.eqb k k').
  - intros H. destruct (String.eqb_spec k0 k') as [->|Hne'].
    + destruct (String.eqb_spec k k'); [congruence | reflexivity].
    + now apply IH.
Qed.

Lemma keys_insertIndex (n : N) (k v : string) (m : FileMap) :
  Permutation (keys (insertIndex n k v m)) (k :: keys m).
Proof.
  unfold keys. induction m as [|[k' v'] m IH]; cbn [insertIndex]; [reflexivity|].
  destruct (arrayIndex k') as [n'|]; [|reflexivity].
  destruct (N.ltb n n'); [reflexivity|].
  cbn [map fst]. rewrite IH. apply perm_swap.
Qed.

Lemma ownValue_insertIndex (n : N) (k v k' : string) (m : FileMap) :
  hasKey k m = false ->
  ownValue k' (insertIndex n k v m) = if String.eqb k k' then Some v else ownValue k' m.
Proof.
  induction m as [|[k0 v0] m IH]; cbn [hasKey insertIndex ownValue]; [reflexivity|].
  intros H. apply orb_false_elim in H as [H0 H].
  destruct (arrayIndex k0) as [n0|]; [|reflexivity].
  destruct (N.ltb n n0); [reflexivity|].
  cbn [ownValue]. rewrite (IH H).
  destruct (String.eqb_spec k0 k') as [->|]; [|reflexivity].
  destruct (String.eqb_spec k k'); [|reflexivity].
  subst. now rewrite String.eqb_refl in H0.
Qed.

Lemma ownValue_app_last (k v k' : string) (m : FileMap) :
  hasKey k m = false ->
  ownValue k' (m ++ [(k, v)]) = if String.eqb k k' then Some v else ownValue k' m.
Proof.
  induction m as [|[k0 v0] m IH]; cbn [hasKey app ownValue]; [reflexivity|].
  intros H. apply orb_false_elim in H as [H0 H]. rewrite (IH H).
  destruct (String.eqb_spec k0 k') as [->|]; [|reflexivity].
  destruct (String.eqb_spec k k'); [|reflexivity].
  subst. now rewrite String.eqb_refl in H0.
Qed.

(** [{ ...m, [k]: v }] read back. *)
Lemma ownValue_objectSet (k v k' : string) (m : FileMap) :
  ownValue k' (objectSet k v m) = if String.eqb k k' then Some v else ownValue k' m.
Proof.
  unfold objectSet. destruct (hasKey k m) eqn:E.
  - now apply ownValue_replaceValue.
  - destruct (arrayIndex k); [now apply ownValue_insertIndex | now apply ownValue_app_last].
Qed.

Lemma keys_objectSet (k v : string) (m : FileMap) :
  NoDup (keys m) -> NoDup (keys (objectSet k v m)).
Proof.
  intros H. unfold objectSet. destruct (hasKey k m) eqn:E.
  - now rewrite keys_replaceValue.
  - apply hasKey_false in E. destruct (arrayIndex k) as [n|].
    + apply (Permutation_NoDup (Permutation_sym (keys_insertIndex n k v m))).
      now constructor.
    + unfold keys. rewrite map_app. cbn.
      apply (Permutation_NoDup (Permutation_cons_append _ _)). now constructor.
Qed.

Lemma keys_objectAssign (k v : string) (m : FileMap) :
  NoDup (keys m) -> NoDup (keys (objectAssign k v m)).
Proof.
  intros H. unfold objectAssign.
  destruct (String.eqb k "__proto__" && negb (hasKey k m));
    [exact H | now apply keys_objectSet].
Qed.

(** *** The name under which a changed file is stored *)

Fixpoint noSlash (s : string) : bool :=
  match s with
  | EmptyString => true
  | String c s' => negb (Ascii.eqb c "/") && noSlash s'
  end.

Lemma lastSegment_noSlash (name : string) :
  noSlash name = true ->
  forall acc, lastSegment acc name = (acc ++ name)%string.
Proof.
  induction name as [|c name IH]; cbn [noSlash lastSegment]; intros H acc.
  - now rewrite LineFacts.append_nil_r.
  - apply andb_prop in H as [Hc H]. apply negb_true_iff in Hc. rewrite Hc.
    rewrite (IH H), LineFacts.append_assoc. reflexivity.
Qed.

Lemma lastSegment_after (dir rest : string) :
  forall acc,
    lastSegment acc (dir ++ String "/" rest) = lastSegment EmptyString rest.
Proof.
  induction dir as [|c dir IH]; intros acc; cbn [append lastSegment].
  - reflexivity.
  - destruct (Ascii.eqb c "/"); apply IH.
Qed.

Lemma baseName_path (dir name : string) :
  noSlash name = true -> name <> EmptyString ->
  baseName (dir ++ String "/" name) = name.
Proof.
  intros Hname Hne. unfold baseName.
  rewrite lastSegment_after, (lastSegment_noSlash name Hname). cbn [append].
  unfold Semantic.orElseString, JS.truthy.
  destruct (String.eqb_spec name EmptyString); [contradiction | reflexivity].
Qed.

Lemma baseName_plain (name : string) :
  noSlash name = true -> baseName name = name.
Proof.
  intros Hname. unfold baseName.
  rewrite (lastSegment_noSlash name Hname). cbn [append].
  unfold Semantic.orElseString. now destruct (JS.truthy name).
Qed.

(** X17: the listener for file changes stores the content under the last
    segment of the path, whatever the directory, and leaves the other
    files of the map as they are. *)
Theorem onFileChanged_lookup (dir name content k : string) (files : FileMap) :
  noSlash name = true -> name <> EmptyString ->
  ownValue k (onFileChanged (dir ++ String "/" name) content files)
  = if String.eqb name k then Some content else ownValue k files.
Proof.
  intros Hname Hne. unfold onFileChanged.
  rewrite (baseName_path dir name Hname Hne). apply ownValue_objectSet.
Qed.

(** *** Uploads *)

Lemma ownValue_objectAssign (k v k' : string) (m : FileMap) :
  ownValue k' (objectAssign k v m)
  = if String.eqb k k' && (negb (String.eqb k "__proto__") || hasKey k m)
    then Some v else ownValue k' m.
Proof.
  unfold objectAssign.
  destruct (String.eqb k "__proto__"), (hasKey k m); cbn [negb andb orb];
    rewrite ?andb_true_r, ?andb_false_r; try apply ownValue_objectSet; reflexivity.
Qed.

Lemma hasKey_objectSet (k v k' : string) (m : FileMap) :
  hasKey k' (objectSet k v m) = String.eqb k k' || hasKey k' m.
Proof.
  destruct (hasKey k' (objectSet k v m)) eqn:E.
  - apply EditFacts.hasKey_ownValue in E as [x E]. rewrite ownValue_objectSet in E.
    destruct (String.eqb k k'); [reflexivity|]. cbn [orb]. symmetry.
    apply EditFacts.hasKey_ownValue. eauto.
  - destruct (String.eqb k k') eqn:Ek; cbn [orb].
    + assert (H : hasKey k' (objectSet k v m) = true).
      { apply EditFacts.hasKey_ownValue. rewrite ownValue_objectSet, Ek. eauto. }
      congruence.
    + destruct (hasKey k' m) eqn:E'; [|reflexivity].
      apply EditFacts.hasKey_ownValue in E' as [x E'].
      assert (H : hasKey k' (objectSet k v m) = true).
      { apply EditFacts.hasKey_ownValue. rewrite ownValue_objectSet, Ek. eauto. }
      congruence.
Qed.

Lemma hasKey_objectAssign_proto (k v : string) (m : FileMap) :
  hasKey "__proto__" (objectAssign k v m) = hasKey "__proto__" m.
Proof.
  unfold objectAssign. destruct (String.eqb_spec k "__proto__") as [->|Hne].
  - destruct (hasKey "__proto__" m) eqn:E; cbn [negb andb]; [|exact E].
    rewrite hasKey_objectSet, String.eqb_refl. reflexivity.
  - cbn [andb]. rewrite hasKey_objectSet.
    destruct (String.eqb_spec k "__proto__"); [contradiction | reflexivity].
Qed.

Lemma hasKey_uploadFiles_proto (uploaded : list (string * string)) (files : FileMap) :
  hasKey "__proto__" (uploadFiles uploaded files) = hasKey "__proto__" files.
Proof.
  unfold uploadFiles. revert files.
  induction uploaded as [|f uploaded IH]; intros files; [reflexivity|].
  cbn [fold_left]. now rewrite IH, hasKey_objectAssign_proto.
Qed.

Lemma find_last (f : string * string -> bool) (l : list (string * string))
    (a : string * string) :
  find f (l ++ [a]) = match find f l with Some b => Some b | None => if f a then Some a else None end.
Proof.
  induction l as [|b l IH]; cbn; [reflexivity|].
  destruct (f b); [reflexivity | exact IH].
Qed.

(** X18: after an upload, a name holds the text of the last uploaded file
    of that name; a name that was not uploaded holds what it held.  The
    name [__proto__] is the exception: unless the map has a property of
    that name already, an assignment to it adds nothing. *)
Theorem uploadFiles_lookup (uploaded : list (string * string)) (files : FileMap)
    (k : string) :
  ownValue k (uploadFiles uploaded files)
  = match find (fun f => String.eqb (fst f) k) (rev uploaded) with
    | Some f =>
        if String.eqb k "__proto__" && negb (hasKey k files)
        then None else Some (snd f)
    | None => ownValue k files
    end.
Proof.
  unfold uploadFiles. revert files.
  induction uploaded as [|[name text] uploaded IH]; intros files; [reflexivity|].
  cbn [fold_left rev fst snd]. rewrite IH, find_last. cbn [fst snd].
  destruct (find _ (rev uploaded)) as [f|].
  - destruct (String.eqb k "__proto__") eqn:Ek; cbn [andb]; [|reflexivity].
    apply String.eqb_eq in Ek. rewrite Ek.
    now rewrite hasKey_objectAssign_proto.
  - rewrite ownValue_objectAssign.
    destruct (String.eqb_spec name k) as [Hname|Hname]; cbn [andb]; [|reflexivity].
    rewrite <- Hname.
    destruct (String.eqb name "__proto__"); cbn [negb andb orb]; [|reflexivity].
    destruct (hasKey name files) eqn:E; cbn [negb]; [reflexivity|].
    now apply ownValue_none.
Qed.

Lemma keys_uploadFiles (uploaded : list (string * string)) (files : FileMap) :
  NoDup (keys files) -> NoDup (keys (uploadFiles uploaded files)).
Proof.
  unfold uploadFiles. revert files.
  induction uploaded as [|f uploaded IH]; intros files H; [exact H|].
  cbn [fold_left]. apply IH. now apply keys_objectAssign.
Qed.

Lemma keys_syncFile (newCode : string) (g : GraphData) (files : FileMap)
    (node : NodeData) :
  NoDup (keys files) -> NoDup (keys (fst (syncFile newCode g files node))).
Proof.
  intros H. unfold syncFile.
  destruct (type node); cbn [fst]; try exact H; try now apply keys_objectSet.
  destruct (find _ (links g)) as [l|]; [|exact H].
  destruct (find _ (nodes g)) as [p|]; [|exact H].
  destruct (ownValue (label p) files) as [c|]; [|exact H].
  destruct (String.eqb _ c); cbn [fst]; [exact H | now apply keys_objectSet].
Qed.

(** X19: the three writers of the file map keep its keys unique. *)
Theorem file_map_keys_unique (files : FileMap) (path content newCode : string)
    (uploaded : list (string * string)) (g : GraphData) (selected : option string) :
  NoDup (keys files) ->
  NoDup (keys (onFileChanged path content files)) /\
  NoDup (keys (uploadFiles uploaded files)) /\
  NoDup (keys (fileMap (fst (handleCodeChange newCode
           {| graphData := g; fileMap := files; selectedNodeId := selected |})))).
Proof.
  intros H. split; [now apply keys_objectSet|]. split; [now apply keys_uploadFiles|].
  unfold handleCodeChange. cbn [selectedNodeId graphData fileMap].
  destruct selected as [sel|]; [|exact H].
  destruct (negb (JS.truthy sel)); [exact H|].
  destruct (find _ (nodes g)) as [node|]; [|exact H].
  assert (Hs := keys_syncFile newCode g files node H).
  destruct (syncFile newCode g files node) as [files' completion]. exact Hs.
Qed.

End FileMapFacts.

(* ================================================================== *)
(** ** Cleaning code for the embedder                                  *)
(* ================================================================== *)

Module CleanFacts.

Import RegExp Semantic.
Import LineFacts RegExpFacts HeaderFacts BlockFacts.
Local Open Scope string_scope.








(** *** [trim] *)






(** *** [replace] with the empty string *)



(** *** Comments *)














End CleanFacts.

(* ================================================================== *)
(** ** Rebuilds                                                        *)
(* ================================================================== *)

Module RebuildFacts.

Import Builder Merge Semantic Editing.
Import BuilderFacts MergeFacts SemanticFacts StoredFacts EditFacts.

(** What [mergeNode] does with the one previous node that has the id. *)
Lemma mergeNode_unique (prevNodes : list NodeData) (o n : NodeData) :
  NoDup (ids prevNodes) -> In o prevNodes -> id o = id n ->
  mergeNode prevNodes n
  = if code_eqb (code o) (code n)
    then withState n (embedding o) (isStale o)
    else withState n (embedding o) (Some true).
Proof.
  intros Hnd Hin Hid. unfold mergeNode.
  now rewrite (find_unique prevNodes o (id n) Hnd Hin Hid).
Qed.

(** The stored graph and the fresh graph go node by node, with the same
    ids and the same codes. *)
Definition inStep (g fresh : GraphData) : Prop :=
  Forall2 (fun o n => id o = id n /\ code o = code n) (nodes g) (nodes fresh).

(** The properties of a stored node that a rebuild can keep. *)
Definition kept (o m : NodeData) : Prop :=
  id m = id o /\ code m = code o /\
  embedding m = embedding o /\ isStale m = isStale o.

Lemma merge_kept (prevNodes ns ms : list NodeData) :
  NoDup (ids prevNodes) -> incl ns prevNodes ->
  Forall2 (fun o n => id o = id n /\ code o = code n) ns ms ->
  Forall2 kept ns (map (mergeNode prevNodes) ms).
Proof.
  intros Hnd Hincl H. induction H as [|o n ns ms [Hid Hcode] _ IH]; cbn [map];
    constructor.
  - rewrite (mergeNode_unique prevNodes o n Hnd (Hincl o (or_introl eq_refl)) Hid).
    rewrite (proj2 (code_eqb_eq _ _) Hcode). unfold kept. cbn. auto.
  - apply IH. intros a Ha. apply Hincl. now right.
Qed.

Lemma inStep_ids (g fresh : GraphData) :
  inStep g fresh -> ids (nodes fresh) = ids (nodes g).
Proof.
  unfold inStep, ids. induction 1 as [|o n ns ms [Hid _] _ IH]; cbn; congruence.
Qed.

Lemma filter_all (f : LinkData -> bool) (ls : list LinkData) :
  (forall l, In l ls -> f l = true) -> filter f ls = ls.
Proof.
  induction ls as [|l ls IH]; intros H; cbn; [reflexivity|].
  rewrite (H l (or_introl eq_refl)), IH; [reflexivity|].
  intros l' Hl'. apply H. now right.
Qed.

(** A merge with a fresh graph that has, node by node, the ids and the
    codes of the stored one, when the stored ids are unique and the stored
    links are closed: the merged nodes keep the stored embeddings and stale
    flags, and every stored Semantic link is kept. *)
Lemma merge_in_step (g fresh : GraphData) :
  NoDup (ids (nodes g)) -> closed g -> inStep g fresh ->
  Forall2 kept (nodes g) (nodes (mergeGraph g fresh)) /\
  links (mergeGraph g fresh) = links fresh ++ filter isSemantic (links g).
Proof.
  intros Hnd Hclosed Hstep. unfold mergeGraph. cbn [nodes links]. split.
  - apply merge_kept; [exact Hnd | apply incl_refl | exact Hstep].
  - f_equal. apply filter_all. intros l Hl. apply filter_In in Hl as [Hl _].
    destruct (Hclosed l Hl) as [Hs Ht].
    rewrite <- (inStep_ids g fresh Hstep) in Hs, Ht.
    rewrite <- (ids_merged (nodes g)) in Hs, Ht.
    apply hasNode_In in Hs, Ht. now rewrite Hs, Ht.
Qed.

Lemma Forall2_trans_step (R1 R2 R3 : NodeData -> NodeData -> Prop)
    (l1 l2 l3 : list NodeData) :
  (forall a b c, R1 a b -> R2 b c -> R3 a c) ->
  Forall2 R1 l1 l2 -> Forall2 R2 l2 l3 -> Forall2 R3 l1 l3.
Proof.
  intros Htrans H12. revert l3.
  induction H12 as [|a b l1 l2 Hab _ IH]; intros l3 H23; inversion H23; subst;
    constructor; eauto.
Qed.

Lemma Forall2_map_r (R : NodeData -> NodeData -> Prop) (f : NodeData -> NodeData)
    (l : list NodeData) :
  (forall a, R (f a) a) -> Forall2 R (map f l) l.
Proof. intros H. induction l; cbn; constructor; auto. Qed.

Lemma filter_structural (ls : list LinkData) :
  (forall l, In l ls -> etype l <> SEMANTIC) ->
  filter isSemantic ls = [] /\ filter (fun l => negb (isSemantic l)) ls = ls.
Proof.
  intros H. induction ls as [|l ls IH]; cbn; [now split|].
  assert (E : isSemantic l = false).
  { unfold isSemantic. destruct (etype l) eqn:El; try reflexivity.
    exfalso. exact (H l (or_introl eq_refl) El). }
  rewrite E. cbn. destruct IH as [-> ->]; [|now split].
  intros l' Hl'. apply H. now right.
Qed.

Lemma filter_semantic_none (ls : list LinkData) :
  filter (fun l => negb (isSemantic l)) (filter isSemantic ls) = [].
Proof.
  induction ls as [|l ls IH]; cbn; [reflexivity|].
  destruct (isSemantic l) eqn:E; cbn; [rewrite E; exact IH | exact IH].
Qed.

Section SameFiles.

Variables Math_cos Math_sin Math_floor : float -> float.
Variables random1 random2 : nat -> float.

Local Abbreviation generate1 :=
  (generateGraphFromFiles Math_cos Math_sin Math_floor random1).
Local Abbreviation generate2 :=
  (generateGraphFromFiles Math_cos Math_sin Math_floor random2).

Lemma generate_inStep (files : FileMap) :
  Forall2 (fun o n => id o = id n /\ code o = code n)
          (nodes (generate1 files)) (nodes (generate2 files)).
Proof.
  unfold generateGraphFromFiles. cbn [nodes]. rewrite !firstPass_view. cbn [st_nodes].
  eapply Forall2_impl;
    [|apply (Determinism.fileNodes_sameButDraws Math_cos Math_sin Math_floor
               random1 random2 (List.length files) files 0 0 0)].
  intros a b (Hid & _ & _ & _ & Hcode & _). now split.
Qed.

Lemma generate_links_same (files : FileMap) :
  links (generate1 files) = links (generate2 files).
Proof.
  unfold generateGraphFromFiles. cbn [links].
  rewrite !firstPass_view. cbn [st_nodes st_links definedFunctions].
  f_equal. apply Determinism.calls_sameButDraws.
  apply Determinism.fileNodes_sameButDraws.
Qed.

Lemma generate_no_semantic (files : FileMap) :
  filter isSemantic (links (generate1 files)) = [] /\
  filter (fun l => negb (isSemantic l)) (links (generate1 files))
  = links (generate1 files).
Proof.
  apply filter_structural.
  intros l Hl. apply generate_structural in Hl. destruct Hl as [-> | ->]; discriminate.
Qed.

(** X21: a rebuild from files that have not changed changes nothing that a
    pass has computed.  Let the stored graph be the result of a rebuild
    from [files], followed or not by a semantic pass, and let the ids be
    unique.  Then a second rebuild from the same [files], with other values
    from [Math.random], gives nodes with the stored ids, codes, embeddings
    and stale flags, and the stored links. *)
Theorem rebuild_changes_nothing (prevGraph : GraphData) (files : FileMap)
    (callEmbedding : Embedder) (order : list nat) :
  NoDup (ids (nodes (generate1 files))) ->
  let stored := storedAfter callEmbedding order
                  (mergeGraph prevGraph (generate1 files)) in
  Forall2 kept (nodes stored) (nodes (mergeGraph stored (generate2 files))) /\
  links (mergeGraph stored (generate2 files)) = links stored.
Proof.
  intros Hnd stored.
  set (merged := mergeGraph prevGraph (generate1 files)) in *.
  assert (Hids : ids (nodes stored) = ids (nodes (generate1 files))).
  { unfold stored. rewrite storedAfter_nodes, settleAll_ids. cbn [fst].
    unfold merged, mergeGraph. cbn [nodes]. apply ids_merged. }
  assert (Hmerged : closed merged) by apply merge_closed, generate_closed.
  assert (Hclosed : closed stored).
  { unfold stored, storedAfter.
    destruct (handleRecalculateSemanticGraph callEmbedding order merged) as [g'|] eqn:E;
      [exact (pass_closed _ _ _ _ E Hmerged) | exact Hmerged]. }
  assert (Hstep : inStep stored (generate2 files)).
  { unfold inStep.
    apply (Forall2_trans_step
             (fun a b => id a = id b /\ code a = code b)
             (fun a b => id a = id b /\ code a = code b) _
             _ (nodes (generate1 files)));
      [intros a b c [? ?] [? ?]; split; congruence | | apply generate_inStep].
    apply (Forall2_trans_step
             (fun a b => id a = id b /\ code a = code b)
             (fun a b => id a = id b /\ code a = code b) _
             _ (nodes merged));
      [intros a b c [? ?] [? ?]; split; congruence | |].
    - apply Forall2_flip.
      eapply Forall2_impl; [|apply PendingFacts.storedAfter_settled].
      intros a b [->|[e ->]]; now split.
    - unfold merged, mergeGraph. cbn [nodes]. apply Forall2_map_r.
      intros n. split; [apply mergeNode_id|].
      unfold mergeNode. destruct (find _ (nodes prevGraph)) as [o|]; [|reflexivity].
      destruct (code_eqb (code o) (code n)); reflexivity. }
  assert (Hnd' : NoDup (ids (nodes stored))) by now rewrite Hids.
  destruct (merge_in_step stored (generate2 files) Hnd' Hclosed Hstep) as [Hkept Hlinks].
  split; [exact Hkept|]. rewrite Hlinks, <- generate_links_same.
  destruct (generate_no_semantic files) as [Hnone Hall].
  assert (Hm : links merged
               = links (generate1 files) ++ filter isSemantic (links merged)).
  { unfold merged, mergeGraph at 1. cbn [links]. f_equal.
    unfold mergeGraph. cbn [links]. rewrite filter_app, Hnone. cbn [app].
    symmetry. apply filter_all. intros l Hl.
    apply filter_In in Hl as [Hl _]. now apply filter_In in Hl as [_ Hl]. }
  unfold stored, storedAfter.
  destruct (handleRecalculateSemanticGraph callEmbedding order merged) as [g'|] eqn:E.
  - destruct (pass_some _ _ _ _ E) as [_ Hl]. rewrite Hl.
    rewrite filter_app. destruct (semanticLinks_semantic (filter hasEmbedding (nodes g')))
      as [-> _].
    rewrite (SemanticFacts.filter_none isSemantic (links merged)), app_nil_l.
    f_equal. rewrite Hm at 1. rewrite filter_app, Hall.
    now rewrite filter_semantic_none, app_nil_r.
  - symmetry. exact Hm.
Qed.

End SameFiles.

End RebuildFacts.

(* ================================================================== *)
(** ** From an edit to the next rebuild                                *)
(* ================================================================== *)

Module EndToEndFacts.

Import Builder Merge Semantic Editing.
Import LineFacts ReplaceFacts HeaderFacts BlockFacts BuilderFacts MergeFacts.
Import SemanticFacts StoredFacts EditFacts FileMapFacts RoundTripFacts RebuildFacts.

(** The stored graph goes with a fresh graph: node by node the same id,
    type, label and code, and the links of the stored graph that are not
    Semantic are the fresh links. *)
Definition mirror (o n : NodeData) : Prop :=
  id o = id n /\ type o = type n /\ label o = label n /\ code o = code n.

Definition mirrors (g fresh : GraphData) : Prop :=
  Forall2 mirror (nodes g) (nodes fresh) /\
  filter (fun l => negb (isSemantic l)) (links g) = links fresh.

Lemma mirror_ids (A B : list NodeData) : Forall2 mirror A B -> ids A = ids B.
Proof. unfold ids. induction 1 as [|a b A B (Hid & _) _ IH]; cbn; congruence. Qed.

Lemma find_mirror (A B : list NodeData) (i : string) (b : NodeData) :
  Forall2 mirror A B ->
  find (fun n => String.eqb (id n) i) B = Some b ->
  exists a, find (fun n => String.eqb (id n) i) A = Some a /\ mirror a b.
Proof.
  induction 1 as [|a0 b0 A B Hm _ IH]; cbn [find]; [discriminate|].
  destruct Hm as (Hid & Hrest). rewrite Hid.
  destruct (String.eqb (id b0) i).
  - intros H. injection H as <-. exists a0. split; [reflexivity | now split].
  - exact IH.
Qed.

Lemma find_present (ns : list NodeData) (i : string) :
  In i (ids ns) ->
  exists n, find (fun n => String.eqb (id n) i) ns = Some n /\ In n ns /\ id n = i.
Proof.
  intros H. apply hasNode_In in H. unfold hasNode in H.
  destruct (find _ ns) as [n|] eqn:E; [|discriminate].
  exists n. apply find_some in E as [Hin E]. apply String.eqb_eq in E. auto.
Qed.

Lemma find_filter_implies (p q : LinkData -> bool) (ls : list LinkData) :
  (forall l, p l = true -> q l = true) -> find p (filter q ls) = find p ls.
Proof.
  intros H. induction ls as [|l ls IH]; cbn; [reflexivity|].
  destruct (q l) eqn:Eq; cbn.
  - destruct (p l); [reflexivity | exact IH].
  - destruct (p l) eqn:Ep; [|exact IH]. apply H in Ep. congruence.
Qed.

Lemma find_app_first (p : LinkData -> bool) (l1 l2 : list LinkData) (x : LinkData) :
  find p l1 = Some x -> find p (l1 ++ l2) = Some x.
Proof.
  induction l1 as [|a l1 IH]; cbn; [discriminate|].
  destruct (p a); [auto | exact IH].
Qed.

Lemma find_app_none (p : LinkData -> bool) (l1 l2 : list LinkData) :
  find p l1 = None -> find p (l1 ++ l2) = find p l2.
Proof.
  induction l1 as [|a l1 IH]; cbn; [reflexivity|].
  destruct (p a); [discriminate | exact IH].
Qed.

(** The test of [handleCodeChange] for the Imports link of a node. *)
Definition importOf (i : string) (l : LinkData) : bool :=
  EdgeType_eqb (etype l) IMPORTS && String.eqb (source l) i.

Lemma find_import_names (fileId f : string) (names : list string) :
  find (importOf ("fn-" ++ f)) (map (importLink fileId) names)
  = if in_dec string_dec f names then Some (importLink fileId f) else None.
Proof.
  induction names as [|name names IH]; cbn [map find]; [reflexivity|].
  unfold importOf at 1. cbn [etype source importLink EdgeType_eqb andb].
  destruct (String.eqb_spec ("fn-" ++ name) ("fn-" ++ f)) as [E|E].
  - apply append_inj_l in E. subst name.
    destruct (in_dec string_dec f (f :: names)) as [_|Hn]; [reflexivity|].
    exfalso. apply Hn. now left.
  - rewrite IH. destruct (in_dec string_dec f names) as [Hin|Hn];
      destruct (in_dec string_dec f (name :: names)) as [Hin'|Hn']; try reflexivity.
    + exfalso. apply Hn'. now right.
    + destruct Hin' as [->|Hin']; [congruence | contradiction].
Qed.

Lemma find_import_none (f : string) (entries : FileMap) :
  ~ In f (allNames entries) ->
  find (importOf ("fn-" ++ f)) (fileLinks entries) = None.
Proof.
  unfold fileLinks, allNames. induction entries as [|e entries IH]; cbn [flat_map];
    intros H; [reflexivity|].
  rewrite in_app_iff in H.
  rewrite find_app_none.
  - apply IH. tauto.
  - rewrite find_import_names.
    destruct (in_dec string_dec f (namesIn e)); [tauto | reflexivity].
Qed.

Lemma find_import (f : string) (fs1 fs2 : FileMap) (e : string * string) :
  ~ In f (allNames fs1) -> In f (namesIn e) ->
  find (importOf ("fn-" ++ f)) (fileLinks (fs1 ++ e :: fs2))
  = Some (importLink ("file-" ++ fst e) f).
Proof.
  intros H1 He. unfold fileLinks. rewrite flat_map_app. cbn [flat_map].
  fold (fileLinks fs1). rewrite (find_app_none _ _ _ (find_import_none f fs1 H1)).
  apply find_app_first. rewrite find_import_names.
  destruct (in_dec string_dec f (namesIn e)); [reflexivity | contradiction].
Qed.

Lemma filter_nonsemantic_nil (ls : list LinkData) :
  (forall l, In l ls -> isSemantic l = true) ->
  filter (fun l => negb (isSemantic l)) ls = [].
Proof.
  induction ls as [|l ls IH]; intros H; cbn; [reflexivity|].
  rewrite (H l (or_introl eq_refl)). cbn. apply IH.
  intros l' Hl'. apply H. now right.
Qed.

Section WithRuntime.

Variables Math_cos Math_sin Math_floor : float -> float.

Local Abbreviation generateGraphFromFiles :=
  (generateGraphFromFiles Math_cos Math_sin Math_floor).

(** A node of a fresh graph whose id is made for a function is a function
    node with that name; one whose id is made for a file is the node of
    that file. *)
Lemma fresh_node_by_id (Math_random : nat -> float) (files : FileMap)
    (n : NodeData) :
  In n (nodes (generateGraphFromFiles Math_random files)) ->
  (forall f, id n = ("fn-" ++ f)%string -> type n = FUNCTION /\ label n = f) /\
  (forall file, id n = ("file-" ++ file)%string ->
                type n <> FUNCTION /\ label n = file).
Proof.
  intros Hn.
  destruct (proj1 (Forall_forall _ _)
              (generate_nodeShape Math_cos Math_sin Math_floor Math_random files) n Hn)
    as [_ Hshape].
  split.
  - intros f Hid. destruct (type n); [| | |destruct Hshape]; rewrite Hid in Hshape.
    + symmetry in Hshape. now apply file_id_not_fn_id in Hshape.
    + symmetry in Hshape. now apply file_id_not_fn_id in Hshape.
    + destruct Hshape as (Hshape & _). apply append_inj_l in Hshape. auto.
  - intros file Hid. destruct (type n); [| | |destruct Hshape]; rewrite Hid in Hshape.
    + apply append_inj_l in Hshape. split; [discriminate | auto].
    + apply append_inj_l in Hshape. split; [discriminate | auto].
    + destruct Hshape as (Hshape & _). now apply file_id_not_fn_id in Hshape.
Qed.

Lemma header_in_names (lines : list string) (h f : string) :
  In h lines -> matchHeader h = Some f -> In f (headerNames lines).
Proof.
  induction lines as [|line lines IH]; [intros []|].
  intros [->|Hin] Hh; cbn [headerNames].
  - rewrite Hh. now left.
  - destruct (matchHeader line); [right|]; now apply IH.
Qed.

(** The file that the handler rewrites for a function node: the file of
    the map that defines the function. *)
Lemma handleCodeChange_function (Math_random : nat -> float) (g : GraphData)
    (files : FileMap) (filename content funcName newCode : string) :
  mirrors g (generateGraphFromFiles Math_random files) ->
  NoDup (ids (nodes g)) ->
  ownValue filename files = Some content ->
  JS.endsWith ".py" filename = true ->
  In funcName (headerNames (JS.split_nl content)) ->
  handleCodeChange newCode
    {| graphData := g; fileMap := files;
       selectedNodeId := Some ("fn-" ++ funcName)%string |}
  = ({| graphData := markEdited ("fn-" ++ funcName) newCode g;
        fileMap := objectSet filename
                     (replaceFunctionInCode content funcName newCode) files;
        selectedNodeId := Some ("fn-" ++ funcName)%string |}, Returned).
Proof.
  intros [Hnodes Hlinks] Hnd Hown Hpy Hf.
  set (fresh := generateGraphFromFiles Math_random files) in *.
  destruct (ownValue_split _ _ _ Hown) as (fs1 & fs2 & Hfiles & _ & Hset).
  assert (Hids : ids (nodes fresh) = flat_map idsOfEntry files) by apply ids_generate.
  assert (HidsA : ids (nodes g) = ids (nodes fresh)) by now apply mirror_ids.
  assert (He : namesIn (filename, content) = headerNames (JS.split_nl content)).
  { unfold namesIn, linesOf. cbn [fst snd]. now rewrite Hpy. }
  assert (Hfn : In ("fn-" ++ funcName)%string (ids (nodes fresh))).
  { rewrite Hids, Hfiles, flat_map_app, in_app_iff. right. cbn [flat_map].
    rewrite in_app_iff. left. right. rewrite He. now apply in_map. }
  assert (Hfile : In ("file-" ++ filename)%string (ids (nodes fresh))).
  { rewrite Hids, Hfiles, flat_map_app, in_app_iff. right. cbn [flat_map].
    rewrite in_app_iff. left. now left. }
  assert (Hfirst : ~ In funcName (allNames fs1)).
  { intros Hin. rewrite HidsA, Hids, Hfiles, flat_map_app in Hnd.
    apply NoDup_app_iff in Hnd as (_ & _ & Hnd).
    apply (Hnd ("fn-" ++ funcName)%string).
    - unfold allNames in Hin. apply in_flat_map in Hin as (e & He1 & Hin).
      apply in_flat_map. exists e. split; [exact He1|]. right. now apply in_map.
    - cbn [flat_map]. rewrite in_app_iff. left. right. rewrite He. now apply in_map. }
  destruct (find_present _ _ Hfn) as (n0 & Hfind0 & Hn0 & Hid0).
  destruct (proj1 (fresh_node_by_id Math_random files n0 Hn0) funcName Hid0)
    as [Htype0 Hlabel0].
  destruct (find_mirror _ _ _ _ Hnodes Hfind0) as (node & Hfind & Hm).
  destruct Hm as (Hid & Htype & Hlabel & _).
  destruct (find_present _ _ Hfile) as (p0 & Hfindp0 & Hp0 & Hidp0).
  destruct (proj2 (fresh_node_by_id Math_random files p0 Hp0) filename Hidp0)
    as [_ Hlabelp0].
  destruct (find_mirror _ _ _ _ Hnodes Hfindp0) as (parent & Hfindp & Hmp).
  destruct Hmp as (_ & _ & Hlabelp & _).
  assert (Hlink :
    find (importOf (id node)) (links g)
    = Some (importLink ("file-" ++ filename) funcName)).
  { rewrite <- (find_filter_implies (importOf (id node))
                  (fun l => negb (isSemantic l)) (links g)).
    - rewrite Hlinks. unfold fresh, Builder.generateGraphFromFiles. cbn [links].
      rewrite firstPass_view. cbn [st_links].
      apply find_app_first. rewrite Hid, Hid0, Hfiles.
      apply (find_import funcName fs1 fs2 (filename, content) Hfirst).
      now rewrite He.
    - intros l Hl. unfold importOf in Hl. apply andb_prop in Hl as [Hl _].
      apply EdgeType_eqb_eq in Hl. unfold isSemantic. now rewrite Hl. }
  unfold handleCodeChange. cbn [selectedNodeId graphData fileMap].
  replace (negb (JS.truthy ("fn-" ++ funcName))) with false by reflexivity.
  rewrite Hfind. unfold syncFile. rewrite Htype, Htype0.
  fold (importOf (id node)). rewrite Hlink.
  cbn [target importLink]. rewrite Hfindp, Hlabelp, Hlabelp0, Hown.
  rewrite Hlabel, Hlabel0.
  destruct (String.eqb_spec (replaceFunctionInCode content funcName newCode) content)
    as [E|E]; [|reflexivity].
  rewrite E, (Hset content), <- Hfiles. reflexivity.
Qed.

Lemma generate_mirror (random1 random2 : nat -> float) (files : FileMap) :
  Forall2 mirror (nodes (generateGraphFromFiles random1 files))
                 (nodes (generateGraphFromFiles random2 files)).
Proof.
  unfold Builder.generateGraphFromFiles. cbn [nodes]. rewrite !firstPass_view.
  cbn [st_nodes].
  eapply Forall2_impl;
    [|apply (Determinism.fileNodes_sameButDraws Math_cos Math_sin Math_floor
               random1 random2 (List.length files) files 0 0 0)].
  intros a b (Hid & Htype & Hlabel & _ & Hcode & _). now repeat split.
Qed.

Lemma mirror_trans (A B C : list NodeData) :
  Forall2 mirror A B -> Forall2 mirror B C -> Forall2 mirror A C.
Proof.
  apply Forall2_trans_step.
  intros a b c (? & ? & ? & ?) (? & ? & ? & ?). repeat split; congruence.
Qed.

(** A rebuild leaves a graph that goes with the fresh one. *)
Lemma merge_mirrors (Math_random : nat -> float) (prev : GraphData)
    (files : FileMap) :
  mirrors (mergeGraph prev (generateGraphFromFiles Math_random files))
          (generateGraphFromFiles Math_random files).
Proof.
  split.
  - unfold mergeGraph. cbn [nodes]. apply Forall2_map_r. intros n.
    unfold mirror, mergeNode. destruct (find _ (nodes prev)) as [o|];
      [destruct (code_eqb (code o) (code n))|]; now repeat split.
  - unfold mergeGraph. cbn [links]. rewrite filter_app.
    destruct (generate_no_semantic Math_cos Math_sin Math_floor Math_random files)
      as [_ ->].
    rewrite <- (app_nil_r (links _)) at 2. f_equal.
    apply filter_nonsemantic_nil. intros l Hl.
    apply filter_In in Hl as [Hl _]. now apply filter_In in Hl as [_ Hl].
Qed.

(** What the rebuild that follows an edit leaves of a stored node [o]:
    the node [m] with the id and the embedding of [o]; for the edited
    function, the new code and the stale flag; for the file, the rewritten
    content; for every other node, the code and the stale flag of [o]. *)
Definition afterEdit (selected fileId newCode content' : string)
    (o m : NodeData) : Prop :=
  id m = id o /\ embedding m = embedding o /\
  if String.eqb (id o) selected
  then code m = Some newCode /\ isStale m = Some true
  else if String.eqb (id o) fileId
       then code m = Some content'
       else code m = code o /\ isStale m = isStale o.

Lemma unchanged_piece (g : GraphData) (selected fileId newCode content' : string)
    (ns cs : list NodeData) :
  NoDup (ids (nodes g)) -> incl ns (nodes g) -> Forall2 mirror ns cs ->
  (forall o, In o ns -> id o <> selected /\ id o <> fileId) ->
  Forall2 (afterEdit selected fileId newCode content') ns
          (map (mergeNode (nodes (markEdited selected newCode g))) cs).
Proof.
  intros Hnd Hincl H Hne. induction H as [|o c ns cs Hm _ IH]; cbn [map];
    constructor.
  - destruct Hm as (Hid & _ & _ & Hcode).
    destruct (Hne o (or_introl eq_refl)) as [Hsel Hfile].
    rewrite mergeNode_edited, <- Hid.
    destruct (String.eqb_spec (id o) selected); [contradiction|].
    rewrite (mergeNode_unique (nodes g) o c Hnd (Hincl o (or_introl eq_refl)) Hid).
    rewrite (proj2 (code_eqb_eq _ _) Hcode).
    unfold afterEdit. cbn [withState id embedding code isStale].
    destruct (String.eqb_spec (id o) selected); [contradiction|].
    destruct (String.eqb_spec (id o) fileId); [contradiction|].
    repeat split; congruence.
  - apply IH.
    + intros a Ha. apply Hincl. now right.
    + intros a Ha. apply Hne. now right.
Qed.

Lemma NoDup_middle (l1 l2 : list string) (x y : string) :
  NoDup (l1 ++ x :: l2) -> In y (l1 ++ l2) -> y <> x.
Proof.
  intros H Hy ->. exact (NoDup_remove_2 _ _ _ H Hy).
Qed.

(** X22: from an edit to the next rebuild.  Let the stored graph go with
    the graph of the file map and have unique ids, let the block that
    [replaceFunctionInCode] finds for [funcName] in a Python file of the map
    start with a header that the builder recognises for that name, and let
    the new code be one block for the same name.  Then [handleCodeChange]
    for the node of the function returns, and the rebuild from the file map
    it leaves gives, node by node: for the edited function the new code,
    the stale flag and the embedding it had; for the file its rewritten
    content; for every other node the code, the embedding and the stale
    flag it had.  The rebuilt graph goes with the graph of the new file
    map. *)
Theorem edit_marks_one_function (random1 random2 : nat -> float)
    (g : GraphData) (files : FileMap)
    (filename content funcName newCode h' : string) (body' : list string)
    (startLine endLine : nat) :
  mirrors g (generateGraphFromFiles random1 files) ->
  NoDup (ids (nodes g)) ->
  ownValue filename files = Some content ->
  JS.endsWith ".py" filename = true ->
  findBlock funcName (JS.split_nl content) 0 = Some (startLine, endLine) ->
  matchHeader (nth startLine (JS.split_nl content) EmptyString) = Some funcName ->
  JS.split_nl newCode = h' :: body' ->
  matchHeader h' = Some funcName ->
  Forall (fun l => endsBlock l = false) body' ->
  let edited :=
    handleCodeChange newCode
      {| graphData := g; fileMap := files;
         selectedNodeId := Some ("fn-" ++ funcName)%string |} in
  let fresh := generateGraphFromFiles random2 (fileMap (fst edited)) in
  let rebuilt := mergeGraph (graphData (fst edited)) fresh in
  snd edited = Returned /\
  fileMap (fst edited)
    = objectSet filename (replaceFunctionInCode content funcName newCode) files /\
  Forall2 (afterEdit ("fn-" ++ funcName) ("file-" ++ filename) newCode
                     (replaceFunctionInCode content funcName newCode))
          (nodes g) (nodes rebuilt) /\
  mirrors rebuilt fresh.
Proof.
  intros Hmirrors Hnd Hown Hpy Hfound Hheader Hnew Hh' Hbody.
  assert (Hf : In funcName (headerNames (JS.split_nl content))).
  { destruct (block_found _ _ _ _ Hfound)
      as (before & h & rest & Hlines & Hstart & _).
    rewrite Hlines, Hstart, nth_middle in Hheader. rewrite Hlines.
    apply (header_in_names _ h); [|exact Hheader].
    apply in_app_iff. right. now left. }
  intros edited. subst edited.
  rewrite (handleCodeChange_function random1 g files filename content funcName
             newCode Hmirrors Hnd Hown Hpy Hf).
  cbv zeta. cbn [fst snd graphData fileMap].
  set (selected := ("fn-" ++ funcName)%string).
  set (fileId := ("file-" ++ filename)%string).
  set (content' := replaceFunctionInCode content funcName newCode).
  set (fresh := generateGraphFromFiles random2 (objectSet filename content' files)).
  set (rebuilt := mergeGraph (markEdited selected newCode g) fresh).
  split; [reflexivity|]. split; [reflexivity|].
  split; [|apply merge_mirrors].
  destruct (generate_after_edit Math_cos Math_sin Math_floor random2
              files filename content funcName newCode h' body' startLine endLine
              Hown Hpy Hfound Hheader Hnew Hh' Hbody)
    as (pre & mid & post & fileIndex & x & y & d & Hold & Hnew').
  fold content' in Hnew'. fold fresh in Hnew'.
  set (oldCode := JS.join_nl (firstn (endLine - startLine)
                                     (skipn startLine (JS.split_nl content)))) in *.
  set (F := fileNode Math_cos Math_sin filename content fileIndex (List.length files)) in *.
  set (F' := fileNode Math_cos Math_sin filename content' fileIndex (List.length files)) in *.
  set (N := functionNode Math_floor random2 funcName oldCode x y d) in *.
  set (N' := functionNode Math_floor random2 funcName newCode x y d) in *.
  destruct Hmirrors as [Hnodes _].
  assert (HA := mirror_trans _ _ _ Hnodes (generate_mirror random1 random2 files)).
  rewrite Hold in HA.
  apply Forall2_app_inv_r in HA as (Apre & A1 & Hpre & HA & HAeq).
  inversion HA as [|aF F0 A2 rest0 HF HA2 E1 E2]; subst F0 rest0 A1. clear HA.
  apply Forall2_app_inv_r in HA2 as (Amid & A3 & Hmid & HA3 & ->).
  inversion HA3 as [|aN N0 Apost rest0 HN Hpost E1 E2]; subst N0 rest0 A3. clear HA3.
  assert (HidF : id aF = fileId) by (destruct HF as (-> & _); reflexivity).
  assert (HidN : id aN = selected) by (destruct HN as (-> & _); reflexivity).
  assert (Hfs : fileId <> selected) by apply file_id_not_fn_id.
  assert (Hids : ids (nodes g)
                 = ids Apre ++ fileId :: ids Amid ++ selected :: ids Apost).
  { rewrite HAeq. unfold ids. rewrite map_app. cbn [map]. rewrite map_app. cbn [map].
    now rewrite HidF, HidN. }
  assert (Hnd' := Hnd). rewrite Hids in Hnd'.
  assert (Hnd2 : NoDup ((ids Apre ++ fileId :: ids Amid) ++ selected :: ids Apost)).
  { now rewrite <- app_assoc. }
  assert (Hother : forall o, In o Apre \/ In o Amid \/ In o Apost ->
                             id o <> selected /\ id o <> fileId).
  { intros o Ho. split.
    - apply (NoDup_middle _ _ _ _ Hnd2). rewrite !in_app_iff. cbn [In].
      destruct Ho as [Ho|[Ho|Ho]]; apply (in_map id) in Ho; unfold ids; tauto.
    - apply (NoDup_middle _ _ _ _ Hnd'). rewrite !in_app_iff. cbn [In].
      destruct Ho as [Ho|[Ho|Ho]]; apply (in_map id) in Ho; unfold ids; tauto. }
  assert (Hincl : forall o, In o Apre \/ In o Amid \/ In o Apost \/ o = aF \/ o = aN ->
                            In o (nodes g)).
  { intros o Ho. rewrite HAeq, in_app_iff. cbn [In]. rewrite in_app_iff. cbn [In].
    intuition auto. }
  unfold rebuilt, mergeGraph. cbn [nodes]. rewrite Hnew', HAeq.
  rewrite map_app. cbn [map]. rewrite map_app. cbn [map].
  apply Forall2_app; [|constructor; [|apply Forall2_app; [|constructor]]].
  - apply unchanged_piece; auto.
    intros o Ho. apply Hincl. auto.
  - rewrite mergeNode_edited.
    replace (String.eqb (id F') selected) with false
      by (symmetry; apply String.eqb_neq; exact Hfs).
    rewrite (mergeNode_unique (nodes g) aF F' Hnd (Hincl aF ltac:(auto)) HidF).
    unfold afterEdit. rewrite HidF.
    replace (String.eqb fileId selected) with false
      by (symmetry; apply String.eqb_neq; exact Hfs).
    rewrite String.eqb_refl.
    destruct (code_eqb (code aF) (code F')); cbn; auto.
  - apply unchanged_piece; auto.
    intros o Ho. apply Hincl. auto.
  - rewrite mergeNode_edited.
    replace (String.eqb (id N') selected) with true
      by (symmetry; apply String.eqb_refl).
    rewrite (mergeNode_unique (nodes g) aN N' Hnd (Hincl aN ltac:(auto)) HidN).
    unfold afterEdit. rewrite HidN, String.eqb_refl.
    destruct (code_eqb (code aN) (code N')); cbn; auto.
  - apply unchanged_piece; auto.
    intros o Ho. apply Hincl. auto.
Qed.

End WithRuntime.

End EndToEndFacts.

(* ================================================================== *)
(** ** The shape of a fresh graph                                      *)
(* ================================================================== *)

Module StructureFacts.

Import Builder.
Import BuilderFacts RoundTripFacts.

Definition isImports (l : LinkData) : bool := EdgeType_eqb (etype l) IMPORTS.

Lemma filter_imports_fileLinks (entries : FileMap) :
  filter isImports (fileLinks entries) = fileLinks entries.
Proof.
  assert (H : Forall (fun l => isImports l = true) (fileLinks entries)).
  { apply Forall_forall. intros l Hl. apply fileLinks_imports in Hl.
    unfold isImports. now rewrite Hl. }
  induction H as [|l ls Hl _ IH]; cbn; [reflexivity | now rewrite Hl, IH].
Qed.

Lemma callsFrom_no_imports (defs : StringMap) (n : NodeData) :
  filter isImports (callsFrom defs n) = [].
Proof.
  unfold callsFrom. destruct (code n) as [c|]; [|reflexivity].
  destruct (JS.truthy c); [|reflexivity].
  induction defs as [|[t tid] defs IH]; [reflexivity|].
  cbn [flat_map]. rewrite filter_app, IH, app_nil_r.
  destruct (RegExp.test _ _); reflexivity.
Qed.

Lemma filter_imports_calls (defs : StringMap) (ns : list NodeData) :
  filter isImports (flat_map (callsFrom defs) ns) = [].
Proof.
  induction ns as [|n ns IH]; cbn [flat_map]; [reflexivity|].
  now rewrite filter_app, IH, app_nil_r, callsFrom_no_imports.
Qed.

Lemma source_fileLinks (entries : FileMap) :
  map source (fileLinks entries) = map (String.append "fn-") (allNames entries).
Proof.
  unfold fileLinks, allNames. induction entries as [|e entries IH]; cbn [flat_map];
    [reflexivity|].
  rewrite !map_app, IH, map_map. reflexivity.
Qed.

Section WithRuntime.

Variables Math_cos Math_sin Math_floor : float -> float.
Variable Math_random : nat -> float.

Local Abbreviation generateGraphFromFiles :=
  (generateGraphFromFiles Math_cos Math_sin Math_floor Math_random).
Local Abbreviation firstPass := (firstPass Math_cos Math_sin Math_floor Math_random).

Lemma ids_functions (ns : list NodeData) :
  Forall (fun n => isFunction n = true -> functionShape n) ns ->
  ids (filter isFunction ns)
  = map (String.append "fn-") (map label (filter isFunction ns)).
Proof.
  induction 1 as [|n ns Hn _ IH]; cbn [filter]; [reflexivity|].
  destruct (isFunction n) eqn:E; [|exact IH].
  cbn [ids map]. destruct (Hn eq_refl) as (_ & _ & ->). f_equal. exact IH.
Qed.

Lemma length_fileNodes (totalFiles : nat) (entries : FileMap) :
  forall fileIndex d,
    List.length (fileNodes Math_cos Math_sin Math_floor Math_random
                   totalFiles fileIndex entries d)
    = List.length entries + List.length (allNames entries).
Proof.
  induction entries as [|e entries IH]; intros fileIndex d; cbn [fileNodes];
    [reflexivity|].
  cbn [List.length]. rewrite length_app, IH, length_functionNodes.
  unfold allNames. cbn [flat_map]. rewrite length_app. unfold namesIn. lia.
Qed.

(** X23: the shape of a fresh graph.  The Imports links are, in order,
    one per function node, from that node; each goes to a module node of
    the graph.  There is one node per file and one per header, and the
    builder has drawn three values from [Math.random] per function node. *)
Theorem imports_per_function (files : FileMap) :
  map source (filter isImports (links (generateGraphFromFiles files)))
    = ids (filter isFunction (nodes (generateGraphFromFiles files))) /\
  (forall l, In l (filter isImports (links (generateGraphFromFiles files))) ->
     exists n, In n (nodes (generateGraphFromFiles files)) /\
               id n = target l /\ type n = MODULE) /\
  List.length (nodes (generateGraphFromFiles files))
    = List.length files
      + List.length (filter isFunction (nodes (generateGraphFromFiles files))) /\
  draws (firstPass files)
    = 3 * List.length (filter isFunction (nodes (generateGraphFromFiles files))).
Proof.
  assert (Hlabels := function_labels Math_cos Math_sin Math_floor Math_random files).
  assert (Hlen : List.length (filter isFunction (nodes (generateGraphFromFiles files)))
                 = List.length (allNames files)).
  { now rewrite <- Hlabels, length_map. }
  assert (Himports : filter isImports (links (generateGraphFromFiles files))
                     = fileLinks files).
  { unfold Builder.generateGraphFromFiles. cbn [links].
    rewrite firstPass_view. cbn [st_links st_nodes definedFunctions].
    now rewrite filter_app, filter_imports_fileLinks, filter_imports_calls, app_nil_r. }
  rewrite Himports, Hlen. split; [|split; [|split]].
  - rewrite source_fileLinks, ids_functions, Hlabels; [reflexivity|].
    apply Forall_forall. intros n Hn Hf.
    exact (function_shape Math_cos Math_sin Math_floor Math_random files n Hn Hf).
  - intros l Hl. unfold fileLinks in Hl. apply in_flat_map in Hl as (e & He & Hl).
    apply in_map_iff in Hl as (f & <- & Hf).
    assert (Hpy : JS.endsWith ".py" (fst e) = true).
    { unfold namesIn, linesOf in Hf.
      destruct (JS.endsWith ".py" (fst e)); [reflexivity | destruct Hf]. }
    apply in_split in He as (fs1 & fs2 & ->).
    eexists. split; [|split].
    + unfold Builder.generateGraphFromFiles. cbn [nodes].
      rewrite firstPass_view. cbn [st_nodes]. rewrite fileNodes_app.
      apply in_app_iff. right. left. reflexivity.
    + reflexivity.
    + cbn [type fileNode]. now rewrite Hpy.
  - unfold Builder.generateGraphFromFiles. cbn [nodes].
    rewrite firstPass_view. cbn [st_nodes]. apply length_fileNodes.
  - rewrite firstPass_view. reflexivity.
Qed.

End WithRuntime.

End StructureFacts.

(* ================================================================== *)
(** ** The file tree and the graph                                     *)
(* ================================================================== *)

Module TreeFacts.

Import Builder Merge Semantic Editing Tree.
Import BuilderFacts MergeFacts StoredFacts EndToEndFacts FileMapFacts StructureFacts.

Lemma present_map_some (ns : list NodeData) : present (map Some ns) = ns.
Proof. induction ns; cbn; congruence. Qed.





Lemma present_In (found : list (option NodeData)) (n : NodeData) :
  In n (present found) <-> In (Some n) found.
Proof.
  induction found as [|[m|] found IH]; cbn; [tauto| |].
  - rewrite IH. split; intros [H|H]; auto; left; congruence.
  - rewrite IH. split; [auto | intros [H|H]; [discriminate | exact H]].
Qed.

(** X24: the items that [enrichTree] puts under a file lead back to the
    nodes they were made from.  In any graph, for every item that
    [enrichTree] lists under a file, [handleFileSelect] with the id of the
    item selects that id, and the node that is then shown as selected, the
    first node with the id, has the name of the item as its label. *)
Theorem tree_item_selects_its_node (graphData : GraphData) (itemId : string)
    (item : FileSystemItem) (selectedNodeId : option string) :
  In item (functionsInFile graphData itemId) ->
  handleFileSelect (item_id item) graphData selectedNodeId = Some (item_id item) /\
  exists n,
    find (fun n => String.eqb (id n) (item_id item)) (nodes graphData) = Some n /\
    label n = item_name item /\ item_type item = ItemFunction.
Proof.
  unfold functionsInFile. intros H.
  apply in_map_iff in H as (n & <- & H).
  apply present_In in H. apply in_map_iff in H as (l & Hfind & _).
  assert (Hid : id n = source l).
  { apply find_some in Hfind as [_ E]. now apply String.eqb_eq in E. }
  cbn [item_id item_name item_type functionItem].
  unfold handleFileSelect. rewrite Hid, Hfind. rewrite Hid.
  split; [reflexivity|]. exists n. auto.
Qed.

Section WithRuntime.

Variables Math_cos Math_sin Math_floor : float -> float.
Variable Math_random : nat -> float.

Local Abbreviation generateGraphFromFiles :=
  (generateGraphFromFiles Math_cos Math_sin Math_floor Math_random).




(** The node of a file of the map, as the tree finds it. *)
Lemma file_node_found (g : GraphData) (files : FileMap) (filename : string) :
  mirrors g (generateGraphFromFiles files) ->
  In filename (keys files) ->
  exists n,
    find (fun n => String.eqb (id n) ("file-" ++ filename)) (nodes g) = Some n /\
    id n = ("file-" ++ filename)%string /\ label n = filename /\ type n <> FUNCTION.
Proof.
  intros [Hnodes _] Hk.
  assert (Hin : In ("file-" ++ filename)%string
                   (ids (nodes (generateGraphFromFiles files)))).
  { rewrite ids_generate. unfold keys in Hk. apply in_map_iff in Hk as (e & <- & He).
    apply in_flat_map. exists e. split; [exact He | now left]. }
  destruct (find_present _ _ Hin) as (n0 & Hfind0 & Hn0 & Hid0).
  destruct (proj2 (fresh_node_by_id Math_cos Math_sin Math_floor Math_random
                     files n0 Hn0) filename Hid0) as [Htype0 Hlabel0].
  destruct (find_mirror _ _ _ _ Hnodes Hfind0) as (n & Hfind & (Hid & Htype & Hlabel & _)).
  exists n. repeat split; congruence.
Qed.

Lemma hasKey_objectAssign_keeps (k v k' : string) (m : FileMap) :
  hasKey k' m = true -> hasKey k' (objectAssign k v m) = true.
Proof.
  intros H. unfold objectAssign.
  destruct (String.eqb k "__proto__" && negb (hasKey k m)); [exact H|].
  rewrite hasKey_objectSet, H. apply orb_true_r.
Qed.

Lemma hasKey_uploadFiles_keeps (uploaded : list (string * string)) (files : FileMap)
    (k : string) :
  hasKey k files = true -> hasKey k (uploadFiles uploaded files) = true.
Proof.
  unfold uploadFiles. revert files.
  induction uploaded as [|f uploaded IH]; intros files H; [exact H|].
  cbn [fold_left]. apply IH. now apply hasKey_objectAssign_keeps.
Qed.

Lemma uploaded_key (uploaded : list (string * string)) (files : FileMap)
    (file : string * string) :
  In file uploaded ->
  fst file <> "__proto__"%string \/ hasKey "__proto__" files = true ->
  In (fst file) (keys (uploadFiles uploaded files)).
Proof.
  intros Hin Hp. apply hasKey_In. revert files Hp.
  induction uploaded as [|f uploaded IH]; intros files Hp; [destruct Hin|].
  change (uploadFiles (f :: uploaded) files)
    with (uploadFiles uploaded (objectAssign (fst f) (snd f) files)).
  destruct Hin as [->|Hin].
  - apply hasKey_uploadFiles_keeps. unfold objectAssign.
    destruct (String.eqb_spec (fst file) "__proto__") as [E|E]; cbn [andb].
    + destruct Hp as [Hp|Hp]; [contradiction|].
      rewrite E, Hp. cbn [negb].
      now rewrite hasKey_objectSet, String.eqb_refl.
    + now rewrite hasKey_objectSet, String.eqb_refl.
  - apply (IH Hin). destruct Hp as [Hp|Hp]; [now left | right].
    now rewrite hasKey_objectAssign_proto.
Qed.

(** X26: the tree item of an uploaded file leads to the node of the file.
    After an upload, in a graph that goes with the graph of the new file
    map, [handleFileSelect] with the id of the item that was pushed for an
    uploaded file selects that id, and the node with the id is the node of
    the file: its label is the name of the file and it is no function. The
    name [__proto__] is excepted unless the map had it before. *)
Theorem uploaded_item_selects_file (g : GraphData) (files : FileMap)
    (uploaded : list (string * string)) (file : string * string)
    (selectedNodeId : option string) :
  mirrors g (generateGraphFromFiles (uploadFiles uploaded files)) ->
  In file uploaded ->
  fst file <> "__proto__"%string \/ hasKey "__proto__" files = true ->
  In (uploadItem file) (newTreeItems uploaded) /\
  handleFileSelect (item_id (uploadItem file)) g selectedNodeId
  = Some (item_id (uploadItem file)) /\
  exists n,
    find (fun n => String.eqb (id n) (item_id (uploadItem file))) (nodes g) = Some n /\
    label n = item_name (uploadItem file) /\ type n <> FUNCTION.
Proof.
  intros Hm Hin Hp.
  destruct (file_node_found g _ (fst file) Hm (uploaded_key _ _ _ Hin Hp))
    as (n & Hfind & Hid & Hlabel & Htype).
  cbn [uploadItem item_id item_name].
  split; [now apply in_map|].
  unfold handleFileSelect. rewrite Hfind, Hid.
  split; [reflexivity|]. now exists n.
Qed.

End WithRuntime.

(** *** The language of a file *)









End TreeFacts.

(* ================================================================== *)
(** ** The texts that a pass sends                                     *)
(* ================================================================== *)

Module RequestFacts.

Import Semantic.
Local Open Scope string_scope.
Local Open Scope list_scope.

Lemma orElseString_truthy (a b : string) :
  JS.truthy b = true -> JS.truthy (orElseString a b) = true.
Proof. unfold orElseString. intros H. now destruct (JS.truthy a) eqn:E. Qed.

(** X28: a pass never sends an empty text, and never the label of a
    node.  For every node that [handleRecalculateSemanticGraph] requests an
    embedding for, the text sent is the cleaned code of the node if that
    is not empty and the code of the node as it is otherwise; in both
    cases it is not empty, so the last alternative of the expression, the
    label, is never taken. *)
Theorem requests_not_empty (graphData : GraphData) :
  Forall (fun node =>
            JS.truthy (contentToEmbed node) = true /\
            exists c, code node = Some c /\
              contentToEmbed node
              = if JS.truthy (cleanCodeForEmbedding c)
                then cleanCodeForEmbedding c else c)
         (filter needsUpdate (nodes graphData)).
Proof.
  apply Forall_forall. intros node H. apply filter_In in H as [_ H].
  unfold needsUpdate in H.
  apply andb_prop in H as [H _]. apply andb_prop in H as [_ H].
  unfold contentToEmbed, codeOr.
  destruct (code node) as [c|]; [|discriminate].
  assert (Ha : forall d, orElseString c d = c)
    by (intros d; unfold orElseString; now rewrite H).
  rewrite !Ha. split.
  - now apply orElseString_truthy.
  - exists c. split; reflexivity.
Qed.

End RequestFacts.

(* ================================================================== *)
(** ** Examples                                                        *)
(* ================================================================== *)

Module EditExamples.

Import Builder Merge Semantic Editing App Tree.
Import ReplaceFacts HeaderFacts BlockFacts StoredFacts EditFacts PendingFacts.
Import RoundTripFacts FileMapFacts RebuildFacts EndToEndFacts TreeFacts.
Local Open Scope string_scope.
Local Open Scope list_scope.

Lemma replace_keeps_surroundings_witness :
  isPlainName "g" = true /\
  findBlock "g" (JS.split_nl Scenario.fCallsG) 0 = Some (3, 6) /\
  JS.split_nl (replaceFunctionInCode Scenario.fCallsG "g" EditScenario.newG)
  = firstn 3 (JS.split_nl Scenario.fCallsG)
    ++ JS.split_nl EditScenario.newG
    ++ skipn 6 (JS.split_nl Scenario.fCallsG).
Proof.
  assert (H1 : isPlainName "g" = true) by reflexivity.
  assert (H2 : findBlock "g" (JS.split_nl Scenario.fCallsG) 0 = Some (3, 6))
    by reflexivity.
  split; [exact H1|]. split; [exact H2|].
  exact (proj2 (proj2 (replace_keeps_surroundings Scenario.fCallsG "g" 3 6 H1 H2))
           EditScenario.newG).
Defined.

Lemma replace_own_block_witness :
  isPlainName "g" = true /\
  findBlock "g" (JS.split_nl Scenario.fCallsG) 0 = Some (3, 6) /\
  (replaceFunctionInCode Scenario.fCallsG "g" EditScenario.oldG = Scenario.fCallsG <->
   EditScenario.oldG
   = JS.join_nl (firstn (6 - 3) (skipn 3 (JS.split_nl Scenario.fCallsG)))).
Proof.
  assert (H1 : isPlainName "g" = true) by reflexivity.
  assert (H2 : findBlock "g" (JS.split_nl Scenario.fCallsG) 0 = Some (3, 6))
    by reflexivity.
  split; [exact H1|]. split; [exact H2|].
  exact (replace_own_block Scenario.fCallsG "g" EditScenario.oldG 3 6 H1 H2).
Defined.

Lemma replace_without_header_witness :
  isPlainName "h" = true /\
  Forall (fun l => RegExp.test (headerOf "h") l = false)
         (JS.split_nl Scenario.fCallsG) /\
  replaceFunctionInCode Scenario.fCallsG "h" EditScenario.newG = Scenario.fCallsG.
Proof.
  assert (H1 : isPlainName "h" = true) by reflexivity.
  assert (H2 : Forall (fun l => RegExp.test (headerOf "h") l = false)
                      (JS.split_nl Scenario.fCallsG))
    by (repeat constructor).
  split; [exact H1|]. split; [exact H2|].
  exact (replace_without_header Scenario.fCallsG "h" EditScenario.newG H1 H2).
Defined.

Lemma headerOf_iff_witness :
  isPlainName "g" = true /\ "g" <> EmptyString /\
  (RegExp.test (headerOf "g") "def g():" = true <->
   exists ws ws' tail,
     "def g():" = ("def" ++ ws ++ "g" ++ ws' ++ "(" ++ tail)%string /\
     ws <> EmptyString /\ allOf JS.isSpace ws = true /\
     allOf JS.isSpace ws' = true).
Proof.
  assert (H1 : isPlainName "g" = true) by reflexivity.
  assert (H2 : "g" <> EmptyString) by discriminate.
  split; [exact H1|]. split; [exact H2|].
  exact (headerOf_iff "g" "def g():" H1 H2).
Defined.

Lemma builder_function_is_found_witness :
  matchHeader "def g():" = Some "g" /\
  findBlock "g" (["def f():"; "    return g()"; ""] ++ "def g():" :: ["    return 1"; ""]) 0
  = Some (3, S (3 + List.length (takeBody ["    return 1"; ""]))).
Proof.
  assert (H : matchHeader "def g():" = Some "g") by reflexivity.
  split; [exact H|].
  apply (proj2 (proj2 (builder_function_is_found
                         ["def f():"; "    return g()"; ""] ["    return 1"; ""]
                         "def g():" "g" H))).
  repeat constructor.
Defined.

(** The first link of [Scenario.storedFG]. *)
Definition importOfF : LinkData :=
  {| source := "fn-f"; target := "file-main.py"; etype := IMPORTS; weight := None |}.

Lemma storedFG_stored :
  Stored Scenario.hostCos Scenario.hostSin Scenario.hostFloor Scenario.storedFG.
Proof.
  unfold Scenario.storedFG, Scenario.generate.
  apply Stored_merge; [apply Stored_empty | discriminate].
Defined.

Lemma stored_links_closed_witness :
  Stored Scenario.hostCos Scenario.hostSin Scenario.hostFloor Scenario.storedFG /\
  In importOfF (links Scenario.storedFG) /\
  In "fn-f" (ids (nodes Scenario.storedFG)) /\
  In "file-main.py" (ids (nodes Scenario.storedFG)).
Proof.
  assert (H : In importOfF (links Scenario.storedFG)) by (left; reflexivity).
  split; [exact storedFG_stored|]. split; [exact H|].
  exact (stored_links_closed Scenario.hostCos Scenario.hostSin Scenario.hostFloor
           Scenario.storedFG importOfF storedFG_stored H).
Defined.

Lemma stored_node_shape_witness :
  Stored Scenario.hostCos Scenario.hostSin Scenario.hostFloor Scenario.storedFG /\
  In Scenario.waitingF (nodes Scenario.storedFG) /\
  id Scenario.waitingF = "fn-f" /\ isName "f" = true /\
  language Scenario.waitingF = Some python.
Proof.
  assert (H : In Scenario.waitingF (nodes Scenario.storedFG))
    by (right; left; reflexivity).
  split; [exact storedFG_stored|]. split; [exact H|].
  exact (proj2 (stored_node_shape Scenario.hostCos Scenario.hostSin Scenario.hostFloor
                  Scenario.storedFG Scenario.waitingF storedFG_stored H)).
Defined.

Lemma stored_link_shape_witness :
  Stored Scenario.hostCos Scenario.hostSin Scenario.hostFloor Scenario.storedFG /\
  In importOfF (links Scenario.storedFG) /\
  (exists f, source importOfF = ("fn-" ++ f)%string) /\
  (exists file, target importOfF = ("file-" ++ file)%string) /\
  weight importOfF = None.
Proof.
  assert (H : In importOfF (links Scenario.storedFG)) by (left; reflexivity).
  split; [exact storedFG_stored|]. split; [exact H|].
  exact (stored_link_shape Scenario.hostCos Scenario.hostSin Scenario.hostFloor
           Scenario.storedFG importOfF storedFG_stored H).
Defined.

Lemma handleCodeChange_returns_witness :
  Stored Scenario.hostCos Scenario.hostSin Scenario.hostFloor Scenario.storedFG /\
  (forall n, In n (nodes Scenario.storedFG) -> type n <> FUNCTION ->
             hasKey (label n) Scenario.mainFG = true) /\
  snd (handleCodeChange EditScenario.newG
         {| graphData := Scenario.storedFG; fileMap := Scenario.mainFG;
            selectedNodeId := Some "fn-g" |})
  = Returned.
Proof.
  assert (H : forall n, In n (nodes Scenario.storedFG) -> type n <> FUNCTION ->
                        hasKey (label n) Scenario.mainFG = true).
  { intros n [<-|[<-|[<-|[]]]] Hn; try reflexivity; exfalso; now apply Hn. }
  split; [exact storedFG_stored|]. split; [exact H|].
  exact (handleCodeChange_returns Scenario.hostCos Scenario.hostSin Scenario.hostFloor
           Scenario.storedFG Scenario.mainFG (Some "fn-g") EditScenario.newG
           storedFG_stored H).
Defined.

Lemma storedFG_unique : NoDup (ids (nodes Scenario.storedFG)).
Proof. repeat constructor; cbn; intuition discriminate. Defined.

Lemma storedFG_answered :
  forall k node,
    nth_error (filter needsUpdate (nodes Scenario.storedFG)) k = Some node ->
    In k [0; 1] /\
    exists v, Scenario.bothAnswered k (contentToEmbed node) = Resolved (Some v).
Proof.
  intros [|[|k]] node H.
  - split; [now left | eexists; reflexivity].
  - split; [right; now left | eexists; reflexivity].
  - destruct k; discriminate H.
Defined.

Lemma answered_pass_settles_witness :
  NoDup (ids (nodes Scenario.storedFG)) /\
  filter needsUpdate (nodes (storedAfter Scenario.bothAnswered [0; 1] Scenario.storedFG))
  = [].
Proof.
  split; [exact storedFG_unique|].
  exact (proj1 (answered_pass_settles Scenario.bothAnswered [0; 1] Scenario.storedFG
                  storedFG_unique storedFG_answered)).
Defined.

Lemma onFileChanged_lookup_witness :
  noSlash "main.py" = true /\ "main.py" <> EmptyString /\
  ownValue "main.py"
    (onFileChanged ("/work/src" ++ String "/" "main.py")%string
                   EditScenario.fCallsNewG Scenario.mainFG)
  = Some EditScenario.fCallsNewG.
Proof.
  assert (H1 : noSlash "main.py" = true) by reflexivity.
  assert (H2 : "main.py" <> EmptyString) by discriminate.
  split; [exact H1|]. split; [exact H2|].
  exact (onFileChanged_lookup "/work/src" "main.py" EditScenario.fCallsNewG "main.py"
           Scenario.mainFG H1 H2).
Defined.

Lemma mainFG_keys : NoDup (keys Scenario.mainFG).
Proof. repeat constructor; cbn; intuition discriminate. Defined.

Lemma file_map_keys_unique_witness :
  NoDup (keys Scenario.mainFG) /\
  NoDup (keys (uploadFiles [("b.py", Scenario.otherF); ("main.py", Scenario.onlyF)]
                 Scenario.mainFG)).
Proof.
  split; [exact mainFG_keys|].
  exact (proj1 (proj2 (file_map_keys_unique Scenario.mainFG "b.py" Scenario.otherF
                         EditScenario.newG
                         [("b.py", Scenario.otherF); ("main.py", Scenario.onlyF)]
                         Scenario.storedFG (Some "fn-g") mainFG_keys))).
Defined.

Lemma generatedFG_unique :
  NoDup (ids (nodes (Scenario.generate (Scenario.always 0.5) Scenario.mainFG))).
Proof. repeat constructor; cbn; intuition discriminate. Defined.

Lemma rebuild_changes_nothing_witness :
  NoDup (ids (nodes (Scenario.generate (Scenario.always 0.5) Scenario.mainFG))) /\
  links (mergeGraph Scenario.embeddedFG
           (Scenario.generate (Scenario.always 0.25) Scenario.mainFG))
  = links Scenario.embeddedFG.
Proof.
  split; [exact generatedFG_unique|].
  exact (proj2 (rebuild_changes_nothing Scenario.hostCos Scenario.hostSin
                  Scenario.hostFloor (Scenario.always 0.5) (Scenario.always 0.25)
                  Scenario.emptyGraph Scenario.mainFG Scenario.bothAnswered [0; 1]
                  generatedFG_unique)).
Defined.


Lemma embeddedFG_mirrors :
  mirrors Scenario.embeddedFG
          (Scenario.generate (Scenario.always 0.5) Scenario.mainFG).
Proof.
  split; [|reflexivity].
  repeat constructor.
Defined.

Lemma embeddedFG_unique : NoDup (ids (nodes Scenario.embeddedFG)).
Proof. repeat constructor; cbn; intuition discriminate. Defined.

Lemma edit_marks_one_function_witness :
  mirrors Scenario.embeddedFG
          (Scenario.generate (Scenario.always 0.5) Scenario.mainFG) /\
  NoDup (ids (nodes Scenario.embeddedFG)) /\
  snd (handleCodeChange EditScenario.newG
         {| graphData := Scenario.embeddedFG; fileMap := Scenario.mainFG;
            selectedNodeId := Some "fn-g" |})
  = Returned /\
  fileMap (fst (handleCodeChange EditScenario.newG
         {| graphData := Scenario.embeddedFG; fileMap := Scenario.mainFG;
            selectedNodeId := Some "fn-g" |}))
  = objectSet "main.py"
      (replaceFunctionInCode Scenario.fCallsG "g" EditScenario.newG) Scenario.mainFG /\
  Forall2 (afterEdit "fn-g" "file-main.py" EditScenario.newG
             (replaceFunctionInCode Scenario.fCallsG "g" EditScenario.newG))
    (nodes Scenario.embeddedFG)
    (nodes (mergeGraph
              (markEdited "fn-g" EditScenario.newG Scenario.embeddedFG)
              (Scenario.generate (Scenario.always 0.25)
                 (objectSet "main.py"
                    (replaceFunctionInCode Scenario.fCallsG "g" EditScenario.newG)
                    Scenario.mainFG)))).
Proof.
  assert (H1 : ownValue "main.py" Scenario.mainFG = Some Scenario.fCallsG)
    by reflexivity.
  assert (H2 : JS.endsWith ".py" "main.py" = true) by reflexivity.
  assert (H3 : findBlock "g" (JS.split_nl Scenario.fCallsG) 0 = Some (3, 6))
    by reflexivity.
  assert (H4 : matchHeader (nth 3 (JS.split_nl Scenario.fCallsG) EmptyString)
               = Some "g") by reflexivity.
  assert (H5 : JS.split_nl EditScenario.newG = "def g():" :: ["    return 2"; ""])
    by reflexivity.
  assert (H6 : matchHeader "def g():" = Some "g") by reflexivity.
  assert (H7 : Forall (fun l => endsBlock l = false) ["    return 2"; ""])
    by (repeat constructor).
  split; [exact embeddedFG_mirrors|]. split; [exact embeddedFG_unique|].
  destruct (edit_marks_one_function Scenario.hostCos Scenario.hostSin
              Scenario.hostFloor (Scenario.always 0.5) (Scenario.always 0.25)
              Scenario.embeddedFG Scenario.mainFG "main.py" Scenario.fCallsG "g"
              EditScenario.newG "def g():" ["    return 2"; ""] 3 6
              embeddedFG_mirrors embeddedFG_unique H1 H2 H3 H4 H5 H6 H7)
    as (Hret & Hmap & Hnodes & _).
  split; [exact Hret|]. split; [exact Hmap | exact Hnodes].
Defined.

Lemma tree_item_selects_its_node_witness :
  In (mkItem "fn-g" "g" ItemFunction (Some python) None None)
     (functionsInFile Scenario.embeddedFG "file-main.py") /\
  handleFileSelect "fn-g" Scenario.embeddedFG None = Some "fn-g".
Proof.
  assert (H1 : In (mkItem "fn-g" "g" ItemFunction (Some python) None None)
                  (functionsInFile Scenario.embeddedFG "file-main.py"))
    by (right; left; reflexivity).
  split; [exact H1|].
  exact (proj1 (tree_item_selects_its_node Scenario.embeddedFG "file-main.py"
                  (mkItem "fn-g" "g" ItemFunction (Some python) None None) None H1)).
Defined.



Lemma uploaded_item_selects_file_witness :
  mirrors Scenario.embeddedFG
          (Scenario.generate (Scenario.always 0.5)
             (uploadFiles [("main.py", Scenario.fCallsG)] [])) /\
  handleFileSelect "file-main.py" Scenario.embeddedFG None = Some "file-main.py".
Proof.
  assert (H1 : mirrors Scenario.embeddedFG
                 (Scenario.generate (Scenario.always 0.5)
                    (uploadFiles [("main.py", Scenario.fCallsG)] [])))
    by exact embeddedFG_mirrors.
  assert (H2 : In ("main.py", Scenario.fCallsG) [("main.py", Scenario.fCallsG)])
    by (left; reflexivity).
  assert (H3 : fst ("main.py", Scenario.fCallsG) <> "__proto__"
               \/ hasKey "__proto__" [] = true)
    by (left; discriminate).
  split; [exact H1|].
  exact (proj1 (proj2 (uploaded_item_selects_file Scenario.hostCos Scenario.hostSin
                         Scenario.hostFloor (Scenario.always 0.5)
                         Scenario.embeddedFG [] [("main.py", Scenario.fCallsG)]
                         ("main.py", Scenario.fCallsG) None H1 H2 H3))).
Defined.

End EditExamples.
